(** * signalforge/validation (TypeScript): the validation engine in Rocq

    A shallow embedding of the engine's core: path resolution
    ([utils/get.ts]), the emptiness predicate ([utils/is-empty.ts]),
    wildcard expansion ([wildcard.ts]), condition evaluation
    ([condition.ts]), rule parsing ([parser.ts], [rules/index.ts],
    [errors.ts]), the orchestration in [validator.ts], and the handlers
    of [rules/presence.ts], [rules/type-checks.ts], [rules/comparison.ts]
    and [rules/regional.ts] that need nothing but the language.

    The run-time values are the JSON-like fragment of JavaScript plus
    [undefined] and regular-expression literals.  Objects and arrays of the
    input record live in a store and are addressed by reference, because
    [set] writes through references; rule specifications are immutable
    literals.  Boundaries of the model:
    - a string is a sequence of code units below 256;
    - a finite number is the rational it denotes: literals and parsed
      strings are taken exactly (rounding to 53 bits is not modelled) and
      printing gives the exact decimal expansion up to 17 digits;
    - objects carry own enumerable data properties only, so keys that name
      members of [Object.prototype] or [Array.prototype] are outside the
      key space, and so are getters, symbols and functions;
    - regular expressions are matched by a host oracle and carry no
      [lastIndex] state; leaf rule handlers are pure functions. *)

From Stdlib Require Import String Ascii List ZArith QArith Bool Lia DecimalString.
From Stdlib Require DecimalNat DecimalN DecimalPos.
Import ListNotations.
Local Open Scope list_scope.
Local Open Scope string_scope.
Set Warnings "-register-all".
Close Scope Q_scope.

(* ================================================================== *)
(** ** Run-time model: strings *)

Module JS.

(** White space and line terminators removed by [String.prototype.trim],
    restricted to code units below 256. *)
Definition isWhiteSpace (c : ascii) : bool :=
  let n := nat_of_ascii c in
  ((9 <=? n) && (n <=? 13))%nat || (n =? 32)%nat || (n =? 160)%nat.

Fixpoint trimStart (s : string) : string :=
  match s with
  | String c rest => if isWhiteSpace c then trimStart rest else s
  | EmptyString => EmptyString
  end.

(** [trimEnd] drops a character when it is white space and everything
    after it has been dropped. *)
Fixpoint trimEnd (s : string) : string :=
  match s with
  | EmptyString => EmptyString
  | String c rest =>
      match trimEnd rest with
      | EmptyString => if isWhiteSpace c then EmptyString else String c EmptyString
      | rest' => String c rest'
      end
  end.

Definition trim (s : string) : string := trimEnd (trimStart s).

(** [s.split(sep)] for a one-character separator. *)
Fixpoint split (sep : ascii) (s : string) : list string :=
  match s with
  | EmptyString => [EmptyString]
  | String c rest =>
      if Ascii.eqb c sep then EmptyString :: split sep rest
      else match split sep rest with
           | p :: ps => String c p :: ps
           | [] => [String c EmptyString]
           end
  end.

(** [s.includes(c)] for a single character. *)
Fixpoint includesChar (c : ascii) (s : string) : bool :=
  match s with
  | EmptyString => false
  | String d rest => Ascii.eqb c d || includesChar c rest
  end.

(** [s.includes(sub)]. *)
Definition includes (sub s : string) : bool :=
  match String.index 0 sub s with Some _ => true | None => false end.

(** [s.startsWith(p)]. *)
Definition startsWith (p s : string) : bool := String.prefix p s.

(** [s.slice(1)]. *)
Definition slice1 (s : string) : string :=
  match s with String _ rest => rest | EmptyString => EmptyString end.

(** The string as the array of its one-character strings (what indexing
    and array destructuring see). *)
Fixpoint chars (s : string) : list string :=
  match s with
  | EmptyString => []
  | String c rest => String c EmptyString :: chars rest
  end.

Definition isDigit (c : ascii) : bool :=
  let n := nat_of_ascii c in ((48 <=? n) && (n <=? 57))%nat.

Definition isLower (c : ascii) : bool :=
  let n := nat_of_ascii c in ((97 <=? n) && (n <=? 122))%nat.

Fixpoint allChars (p : ascii -> bool) (s : string) : bool :=
  match s with
  | EmptyString => true
  | String c rest => p c && allChars p rest
  end.

(** [/^\d+$/.test(s)]. *)
Definition allDigits (s : string) : bool :=
  match s with EmptyString => false | _ => allChars isDigit s end.

(** Decimal digits of a natural number, as [String(i)] prints an index. *)
Definition natToString (n : nat) : string :=
  NilZero.string_of_uint (Nat.to_uint n).

Definition ZToString (z : Z) : string :=
  match z with
  | Zneg p => "-" ++ NilZero.string_of_uint (Pos.to_uint p)
  | _ => NilZero.string_of_uint (N.to_uint (Z.to_N z))
  end.

(** Value of a string of decimal digits. *)
Fixpoint digitsValueFrom (acc : Z) (s : string) : Z :=
  match s with
  | EmptyString => acc
  | String c rest =>
      digitsValueFrom (10 * acc + Z.of_nat (nat_of_ascii c - 48)) rest
  end.

Definition digitsValue (s : string) : Z := digitsValueFrom 0 s.

(** Longest prefix of [s] whose characters satisfy [p], and the rest. *)
Fixpoint span (p : ascii -> bool) (s : string) : string * string :=
  match s with
  | String c rest =>
      if p c then let '(a, b) := span p rest in (String c a, b)
      else (EmptyString, s)
  | EmptyString => (EmptyString, EmptyString)
  end.

(** A canonical array index: the decimal form, without leading zeros, of
    an integer below 2^32 - 1. *)
Definition arrayIndex (key : string) : option nat :=
  if allDigits key then
    let z := digitsValue key in
    if (ZToString z =? key) && (z <? 4294967295)%Z then Some (Z.to_nat z)
    else None
  else None.

(* ------------------------------------------------------------------ *)
(** ** Run-time model: numbers *)

Inductive number :=
  | NaN
  | Infinity (negative : bool)
  | Finite (q : Q).

Definition ofZ (z : Z) : number := Finite (inject_Z z).
Definition ofNat (n : nat) : number := ofZ (Z.of_nat n).

(** [x === y] on numbers: [NaN] differs from everything, zero has one
    value. *)
Definition numEq (x y : number) : bool :=
  match x, y with
  | Finite p, Finite q => Qeq_bool p q
  | Infinity a, Infinity b => Bool.eqb a b
  | _, _ => false
  end.

(** [x < y] on numbers; [None] is the undefined result of a comparison
    with [NaN]. *)
Definition numLt (x y : number) : option bool :=
  match x, y with
  | NaN, _ | _, NaN => None
  | Finite p, Finite q =>
      Some (match Qcompare p q with Lt => true | _ => false end)
  | Infinity a, Infinity b => Some (a && negb b)
  | Infinity a, Finite _ => Some a
  | Finite _, Infinity b => Some (negb b)
  end.

Definition isNaN (x : number) : bool :=
  match x with NaN => true | _ => false end.

(** [Number.isInteger]. *)
Definition isInteger (x : number) : bool :=
  match x with
  | Finite q => (Z.rem (Qnum q) (Zpos (Qden q)) =? 0)%Z
  | _ => false
  end.

(** Scaling by a power of ten. *)
Definition scale10 (m e : Z) : Q :=
  match e with
  | Zneg p => Qmake m (Z.to_pos (Z.pow 10 (Zpos p)))
  | _ => inject_Z (m * Z.pow 10 e)
  end.

(** The decimal exponent [n] of a positive rational: 10^(n-1) <= q < 10^n. *)
Fixpoint leadingZeros (fuel : nat) (q : Q) : nat :=
  match fuel with
  | O => O
  | S fuel' =>
      match Qcompare (Qmult q (inject_Z 10)) (inject_Z 1) with
      | Lt => S (leadingZeros fuel' (Qmult q (inject_Z 10)))
      | _ => O
      end
  end.

Definition Qfloor' (q : Q) : Z := Z.div (Qnum q) (Zpos (Qden q)).

Definition decimalExponent (q : Q) : Z :=
  match Qcompare q (inject_Z 1) with
  | Lt => - Z.of_nat (leadingZeros (Pos.to_nat (Qden q)) q)
  | _ => Z.of_nat (String.length (ZToString (Qfloor' q)))
  end.

Fixpoint stripZeros (fuel : nat) (s : Z) : Z :=
  match fuel with
  | O => s
  | S fuel' => if (Z.rem s 10 =? 0)%Z then stripZeros fuel' (Z.div s 10) else s
  end.

Fixpoint zeros (n : nat) : string :=
  match n with O => EmptyString | S n' => String "0" (zeros n') end.

(** [Number::toString] for a positive finite number: digits [s] (of
    length [k]) and exponent [n] with [q = s * 10^(n-k)], laid out as the
    language prescribes. *)
Definition positiveToString (q : Q) : string :=
  let n := decimalExponent q in
  let s17 := Qfloor' (Qmult q (scale10 1 (17 - n))) in
  let digits := ZToString (stripZeros 17 s17) in
  let k := Z.of_nat (String.length digits) in
  if ((k <=? n) && (n <=? 21))%Z then
    digits ++ zeros (Z.to_nat (n - k))
  else if ((0 <? n) && (n <=? 21))%Z then
    substring 0 (Z.to_nat n) digits ++ "." ++
    substring (Z.to_nat n) (Z.to_nat (k - n)) digits
  else if ((-6 <? n) && (n <=? 0))%Z then
    "0." ++ zeros (Z.to_nat (- n)) ++ digits
  else
    let e := (n - 1)%Z in
    let exponent := (if (e <? 0)%Z then "-" else "+") ++ ZToString (Z.abs e) in
    if (k =? 1)%Z then digits ++ "e" ++ exponent
    else substring 0 1 digits ++ "." ++
         substring 1 (Z.to_nat (k - 1)) digits ++ "e" ++ exponent.

Definition numberToString (x : number) : string :=
  match x with
  | NaN => "NaN"
  | Infinity false => "Infinity"
  | Infinity true => "-Infinity"
  | Finite q =>
      match Qcompare q (inject_Z 0) with
      | Eq => "0"
      | Lt => "-" ++ positiveToString (Qopp q)
      | Gt => positiveToString q
      end
  end.

(** An optional sign in front of a literal. *)
Definition signOf (s : string) : bool * string :=
  match s with
  | String "-" rest => (true, rest)
  | String "+" rest => (false, rest)
  | _ => (false, s)
  end.

Definition applySign (neg : bool) (x : number) : number :=
  match x with
  | Finite q => Finite (if neg then Qopp q else q)
  | Infinity b => Infinity (xorb neg b)
  | NaN => NaN
  end.

(** [parseInt(s, 10)]: leading white space, an optional sign, then the
    longest run of decimal digits. *)
Definition parseInt10 (s : string) : number :=
  let '(neg, body) := signOf (trimStart s) in
  let '(digits, _) := span isDigit body in
  match digits with
  | EmptyString => NaN
  | _ => applySign neg (ofZ (digitsValue digits))
  end.

(** Unsigned decimal literal: digits, optional fraction, optional
    exponent; the whole string has to be consumed. *)
Definition decimalLiteral (s : string) : number :=
  let '(ip, r1) := span isDigit s in
  let '(fp, r2, dot) :=
    match r1 with
    | String "." r => let '(f, r') := span isDigit r in (f, r', true)
    | _ => (EmptyString, r1, false)
    end in
  if (String.length ip + String.length fp =? 0)%nat then NaN
  else
    let mant := digitsValue (ip ++ fp) in
    let frac := Z.of_nat (String.length fp) in
    match r2 with
    | EmptyString => Finite (scale10 mant (- frac))
    | String c r3 =>
        if (Ascii.eqb c "e" || Ascii.eqb c "E")%char then
          let '(eneg, ed) := signOf r3 in
          if allDigits ed then
            let e := digitsValue ed in
            Finite (scale10 mant ((if eneg then - e else e) - frac))
          else NaN
        else NaN
    end.

Definition hexDigitValue (c : ascii) : option Z :=
  let n := Z.of_nat (nat_of_ascii c) in
  if ((48 <=? n) && (n <=? 57))%Z then Some (n - 48)%Z
  else if ((97 <=? n) && (n <=? 102))%Z then Some (n - 87)%Z
  else if ((65 <=? n) && (n <=? 70))%Z then Some (n - 55)%Z
  else None.

Fixpoint radixValueFrom (radix acc : Z) (s : string) : option Z :=
  match s with
  | EmptyString => Some acc
  | String c rest =>
      match hexDigitValue c with
      | Some d => if (d <? radix)%Z then radixValueFrom radix (radix * acc + d) rest
                  else None
      | None => None
      end
  end.

Definition radixLiteral (radix : Z) (s : string) : number :=
  match s with
  | EmptyString => NaN
  | _ => match radixValueFrom radix 0 s with
         | Some z => ofZ z
         | None => NaN
         end
  end.

(** [StringToNumber]: what [ToNumber] does to a string. *)
Definition stringToNumber (s : string) : number :=
  let t := trim s in
  match t with
  | EmptyString => ofZ 0
  | String "0" (String "x" r) | String "0" (String "X" r) => radixLiteral 16 r
  | String "0" (String "o" r) | String "0" (String "O" r) => radixLiteral 8 r
  | String "0" (String "b" r) | String "0" (String "B" r) => radixLiteral 2 r
  | _ =>
      let '(neg, body) := signOf t in
      if body =? "Infinity" then Infinity neg
      else applySign neg (decimalLiteral body)
  end.

(* ------------------------------------------------------------------ *)
(** ** Run-time model: values, literals and the store *)

Inductive prim :=
  | PUndefined
  | PNull
  | PBool (b : bool)
  | PNum (n : number)
  | PStr (s : string).

(** Immutable literals: rule specifications, conditions, rule parameters
    and error parameters. *)
Inductive tree :=
  | TPrim (p : prim)
  | TArr (items : list tree)
  | TObj (entries : list (string * tree))
  | TRegExp (source flags : string).

(** Values of the record under validation: primitives and references
    into the store. *)
Definition loc := nat.

Inductive value :=
  | VPrim (p : prim)
  | VRef (l : loc).

(** A plain object lists its own properties in enumeration order; an
    array lists its elements ([None] is a hole) and any further named
    properties. *)
Inductive object :=
  | Obj (props : list (string * value))
  | Arr (elems : list (option value)) (named : list (string * value)).

Definition heap := list object.

Definition lookup (h : heap) (l : loc) : option object := nth_error h l.

Fixpoint update (l : loc) (o : object) (h : heap) : heap :=
  match h, l with
  | [], _ => []
  | _ :: rest, O => o :: rest
  | x :: rest, S l' => x :: update l' o rest
  end.

Definition alloc (o : object) (h : heap) : value * heap :=
  (VRef (List.length h), (h ++ [o])%list).

Definition primTypeof (p : prim) : string :=
  match p with
  | PUndefined => "undefined"
  | PNull => "object"
  | PBool _ => "boolean"
  | PNum _ => "number"
  | PStr _ => "string"
  end.

Definition typeof (v : value) : string :=
  match v with VPrim p => primTypeof p | VRef _ => "object" end.

(** Truthiness, as [if (x)], [!x] and [x && ...] test it. *)
Definition primTruthy (p : prim) : bool :=
  match p with
  | PUndefined | PNull => false
  | PBool b => b
  | PNum NaN => false
  | PNum (Finite q) => negb (Qeq_bool q (inject_Z 0))
  | PNum (Infinity _) => true
  | PStr s => negb (s =? "")
  end.

Definition truthy (v : value) : bool :=
  match v with VPrim p => primTruthy p | VRef _ => true end.

(** [x === y] on primitives. *)
Definition primEq (x y : prim) : bool :=
  match x, y with
  | PUndefined, PUndefined | PNull, PNull => true
  | PBool a, PBool b => Bool.eqb a b
  | PNum a, PNum b => numEq a b
  | PStr a, PStr b => a =? b
  | _, _ => false
  end.

(** [SameValueZero], the equality of [Array.prototype.includes] and of
    [Map] keys: as [===], but [NaN] equals itself. *)
Definition primSameValueZero (x y : prim) : bool :=
  match x, y with
  | PNum NaN, PNum NaN => true
  | _, _ => primEq x y
  end.

Definition primToString (p : prim) : string :=
  match p with
  | PUndefined => "undefined"
  | PNull => "null"
  | PBool true => "true"
  | PBool false => "false"
  | PNum n => numberToString n
  | PStr s => s
  end.

Definition primToNumber (p : prim) : number :=
  match p with
  | PUndefined => NaN
  | PNull => ofZ 0
  | PBool true => ofZ 1
  | PBool false => ofZ 0
  | PNum n => n
  | PStr s => stringToNumber s
  end.

(** [ToString] of a literal; an array joins its elements with commas,
    printing [null] and [undefined] as nothing. *)
Fixpoint treeToString (t : tree) : string :=
  match t with
  | TPrim p => primToString p
  | TArr items =>
      String.concat ","
        ((fix each (ts : list tree) : list string :=
            match ts with
            | [] => []
            | TPrim PUndefined :: rest | TPrim PNull :: rest =>
                EmptyString :: each rest
            | t' :: rest => treeToString t' :: each rest
            end) items)
  | TObj _ => "[object Object]"
  | TRegExp source flags => "/" ++ source ++ "/" ++ flags
  end.

(** [ToPrimitive] of a literal: objects become their string form. *)
Definition treeToPrimitive (t : tree) : prim :=
  match t with TPrim p => p | _ => PStr (treeToString t) end.

Definition memLoc (l : loc) (ls : list loc) : bool := existsb (Nat.eqb l) ls.

(** [ToString] of a stored value.  [stack] holds the arrays being joined:
    an array met again while it is being joined prints as nothing, which
    ends the recursion on cyclic stores. *)
Fixpoint refToString (fuel : nat) (h : heap) (stack : list loc) (v : value)
  : string :=
  match v with
  | VPrim p => primToString p
  | VRef l =>
      match lookup h l with
      | Some (Arr elems _) =>
          if memLoc l stack then EmptyString
          else match fuel with
               | O => EmptyString
               | S fuel' =>
                   String.concat ","
                     (map (fun e =>
                             match e with
                             | None | Some (VPrim PUndefined)
                             | Some (VPrim PNull) => EmptyString
                             | Some v' => refToString fuel' h (l :: stack) v'
                             end) elems)
               end
      | _ => "[object Object]"
      end
  end.

Definition valueToString (h : heap) (v : value) : string :=
  refToString (S (List.length h)) h [] v.

Definition valueToPrimitive (h : heap) (v : value) : prim :=
  match v with VPrim p => p | VRef _ => PStr (valueToString h v) end.

Definition valueToNumber (h : heap) (v : value) : number :=
  primToNumber (valueToPrimitive h v).

Definition isArray (h : heap) (v : value) : bool :=
  match v with
  | VRef l => match lookup h l with Some (Arr _ _) => true | _ => false end
  | VPrim _ => false
  end.

(** The relational comparison [x < y] after [ToPrimitive]: two strings
    compare by code units, anything else numerically; [None] is the
    undefined outcome when a side is [NaN]. *)
Definition primLt (x y : prim) : option bool :=
  match x, y with
  | PStr a, PStr b => Some (String.ltb a b)
  | _, _ => numLt (primToNumber x) (primToNumber y)
  end.

(** [x < y], [x > y], [x <= y], [x >= y] from the relational comparison. *)
Definition lessThan (x y : prim) : bool :=
  match primLt x y with Some true => true | _ => false end.
Definition greaterThan (x y : prim) : bool := lessThan y x.
Definition lessOrEqual (x y : prim) : bool :=
  match primLt y x with Some false => true | _ => false end.
Definition greaterOrEqual (x y : prim) : bool :=
  match primLt x y with Some false => true | _ => false end.

(* ------------------------------------------------------------------ *)
(** ** Run-time model: property access *)

Fixpoint assoc {A} (key : string) (ps : list (string * A)) : option A :=
  match ps with
  | [] => None
  | (k, v) :: rest => if k =? key then Some v else assoc key rest
  end.

Definition orUndefined (o : option value) : value :=
  match o with Some v => v | None => VPrim PUndefined end.

(** [o[key]] for a stored object. *)
Definition objectGet (o : object) (key : string) : value :=
  match o with
  | Obj props => orUndefined (assoc key props)
  | Arr elems named =>
      if key =? "length" then VPrim (PNum (ofNat (List.length elems)))
      else match arrayIndex key with
           | Some i => orUndefined (nth i elems None)
           | None => orUndefined (assoc key named)
           end
  end.

(** [current[key]] where [current] is known to be an object. *)
Definition getProp (h : heap) (current : value) (key : string) : value :=
  match current with
  | VRef l =>
      match lookup h l with
      | Some o => objectGet o key
      | None => VPrim PUndefined
      end
  | VPrim _ => VPrim PUndefined
  end.

Definition isSome {A} (o : option A) : bool :=
  match o with Some _ => true | None => false end.

(** [key in o] for a stored object. *)
Definition objectHas (o : object) (key : string) : bool :=
  match o with
  | Obj props => isSome (assoc key props)
  | Arr elems named =>
      (key =? "length") ||
      match arrayIndex key with
      | Some i => isSome (nth i elems None)
      | None => isSome (assoc key named)
      end
  end.

(** Insertion of an own property: an existing key keeps its place; a new
    array-index key goes among the index keys in ascending order, any
    other new key goes last. *)
Fixpoint replaceProp {A} (key : string) (v : A) (ps : list (string * A))
  : list (string * A) :=
  match ps with
  | [] => []
  | (k, x) :: rest =>
      if k =? key then (k, v) :: rest else (k, x) :: replaceProp key v rest
  end.

Fixpoint insertIndexProp {A} (i : nat) (key : string) (v : A)
  (ps : list (string * A)) : list (string * A) :=
  match ps with
  | [] => [(key, v)]
  | (k, x) :: rest =>
      match arrayIndex k with
      | Some j => if (j <? i)%nat then (k, x) :: insertIndexProp i key v rest
                  else (key, v) :: ps
      | None => (key, v) :: ps
      end
  end.

Definition ownSet {A} (key : string) (v : A) (ps : list (string * A))
  : list (string * A) :=
  if isSome (assoc key ps) then replaceProp key v ps
  else match arrayIndex key with
       | Some i => insertIndexProp i key v ps
       | None => (ps ++ [(key, v)])%list
       end.

(** Writing element [i] of an array, growing it with holes. *)
Fixpoint writeElem (i : nat) (v : value) (elems : list (option value))
  : list (option value) :=
  match i, elems with
  | O, [] => [Some v]
  | O, _ :: rest => Some v :: rest
  | S i', [] => None :: writeElem i' v []
  | S i', e :: rest => e :: writeElem i' v rest
  end.

(** Setting an array's length to [n]: shorter drops elements, longer adds
    holes. *)
Definition resize (n : nat) (elems : list (option value))
  : list (option value) :=
  (firstn n elems ++ repeat None (n - List.length elems))%list.

(** A valid array length: a non-negative integer below 2^32. *)
Definition arrayLength (x : number) : option nat :=
  match x with
  | Finite q =>
      if isInteger x && (0 <=? Qnum q)%Z && (Qfloor' q <? 4294967296)%Z
      then Some (Z.to_nat (Qfloor' q)) else None
  | _ => None
  end.

(** [Map.prototype.set] on an insertion-ordered map with string keys. *)
Definition mapSet {A} (key : string) (v : A) (m : list (string * A))
  : list (string * A) :=
  if isSome (assoc key m) then replaceProp key v m else (m ++ [(key, v)])%list.

(* ------------------------------------------------------------------ *)
(** ** Run-time model: exceptions *)

(** [errors.ts] declares four exception classes; the language adds its
    own [TypeError], [RangeError] and [SyntaxError]. *)
Inductive exn :=
  | TypeError
  | RangeError
  | SyntaxError
  | ValidationException (message : string)
  | InvalidRuleException (ruleName : string) (message : string)
  | UnknownRuleException (ruleName : tree)
  | InvalidRuleNameException (ruleName : tree) (reason : string).

(** The [name] property that each class sets in its constructor. *)
Definition exnName (e : exn) : string :=
  match e with
  | TypeError => "TypeError"
  | RangeError => "RangeError"
  | SyntaxError => "SyntaxError"
  | ValidationException _ => "ValidationException"
  | InvalidRuleException _ _ => "InvalidRuleException"
  | UnknownRuleException _ => "UnknownRuleException"
  | InvalidRuleNameException _ _ => "InvalidRuleNameException"
  end.

Inductive Completion (A : Type) :=
  | Normal (a : A)
  | Throw (e : exn).
Arguments Normal {A} a.
Arguments Throw {A} e.

Definition bind {A B} (c : Completion A) (k : A -> Completion B)
  : Completion B :=
  match c with
  | Normal a => k a
  | Throw e => Throw e
  end.

(** [xs.map(f)] when [f] can throw: elements in order, the first
    exception ends the traversal. *)
Fixpoint mapM {A B} (f : A -> Completion B) (xs : list A)
  : Completion (list B) :=
  match xs with
  | [] => Normal []
  | x :: rest =>
      bind (f x) (fun y => bind (mapM f rest) (fun ys => Normal (y :: ys)))
  end.

(** [key in current]: a [TypeError] when [current] is not an object. *)
Definition hasProp (h : heap) (current : value) (key : string)
  : Completion bool :=
  match current with
  | VRef l =>
      match lookup h l with
      | Some o => Normal (objectHas o key)
      | None => Normal false
      end
  | VPrim _ => Throw TypeError
  end.

(** [o[key] = v] for a key other than an array's [length]: an array
    index writes an element, any other key an own property. *)
Definition objectPut (o : object) (key : string) (v : value) : object :=
  match o with
  | Obj props => Obj (ownSet key v props)
  | Arr elems named =>
      match arrayIndex key with
      | Some i => Arr (writeElem i v elems) named
      | None => Arr elems (ownSet key v named)
      end
  end.

(** [current[key] = v] in strict mode: a [TypeError] on a primitive, a
    [RangeError] for an invalid array length. *)
Definition putProp (h : heap) (current : value) (key : string) (v : value)
  : Completion heap :=
  match current with
  | VRef l =>
      match lookup h l with
      | Some (Arr elems named as o) =>
          if key =? "length" then
            match arrayLength (valueToNumber h v) with
            | Some n => Normal (update l (Arr (resize n elems) named) h)
            | None => Throw RangeError
            end
          else Normal (update l (objectPut o key v) h)
      | Some o => Normal (update l (objectPut o key v) h)
      | None => Normal h
      end
  | VPrim _ => Throw TypeError
  end.

End JS.

Import JS.

Abbreviation undefined := (VPrim PUndefined).
Abbreviation null := (VPrim PNull).

Definition isNull (v : value) : bool :=
  match v with VPrim PNull => true | _ => false end.

(* ================================================================== *)
(** ** utils/get.ts and utils/is-empty.ts *)

(** The loop of [get]: leave with [undefined] as soon as the current
    value is [null], [undefined] or not an object. *)
Fixpoint getLoop (h : heap) (parts : list string) (current : value) : value :=
  match parts with
  | [] => current
  | part :: rest =>
      match current with
      | VPrim PNull | VPrim PUndefined => undefined
      | _ =>
          if negb (typeof current =? "object") then undefined
          else getLoop h rest (getProp h current part)
      end
  end.

Definition get (h : heap) (data : value) (path : string) : value :=
  if path =? "" then undefined
  else getLoop h (split "." path) data.

(** A fresh container for the next segment: an array when the segment is
    all digits, an object otherwise. *)
Definition freshContainer (nextPart : string) : object :=
  if allDigits nextPart then Arr [] [] else Obj [].

(** The loop of [set] over [parts[i]] for [i < parts.length - 1], then the
    final assignment.  The store is returned also when an exception ends
    the walk, since earlier writes have happened. *)
Fixpoint setLoop (h : heap) (current : value) (parts : list string)
  (v : value) : Completion unit * heap :=
  match parts with
  | [] => (Normal tt, h)
  | [last] =>
      match putProp h current last v with
      | Normal h' => (Normal tt, h')
      | Throw e => (Throw e, h)
      end
  | part :: ((nextPart :: _) as rest) =>
      match hasProp h current part with
      | Throw e => (Throw e, h)
      | Normal present =>
          let child := getProp h current part in
          if negb present || negb (typeof child =? "object")
             || isNull child
          then
            let '(container, h1) := alloc (freshContainer nextPart) h in
            match putProp h1 current part container with
            | Throw e => (Throw e, h1)
            | Normal h2 => setLoop h2 (getProp h2 current part) rest v
            end
          else setLoop h (getProp h current part) rest v
      end
  end.

Definition set (h : heap) (data : value) (path : string) (v : value)
  : Completion unit * heap :=
  if path =? "" then (Normal tt, h)
  else setLoop h data (split "." path) v.

Definition isEmpty (h : heap) (v : value) : bool :=
  match v with
  | VPrim PNull | VPrim PUndefined => true
  | VPrim (PStr s) => trim s =? ""
  | VRef l =>
      match lookup h l with
      | Some (Arr elems _) => (List.length elems =? 0)%nat
      | _ => false
      end
  | _ => false
  end.

Definition isFilled (h : heap) (v : value) : bool := negb (isEmpty h v).

(* ================================================================== *)
(** ** wildcard.ts *)

(** The elements an array's [forEach] visits, with their indices: holes
    are passed over. *)
Fixpoint indexedFrom (i : nat) (elems : list (option value))
  : list (nat * value) :=
  match elems with
  | [] => []
  | Some v :: rest => (i, v) :: indexedFrom (S i) rest
  | None :: rest => indexedFrom (S i) rest
  end.

Definition indexed (elems : list (option value)) : list (nat * value) :=
  indexedFrom 0 elems.

(** [expandRecursive(parts, index, current, path, result)]; the list
    [parts] here is the part of the pattern from [index] on, and the
    updated [result] map is returned. *)
Fixpoint expandRecursive (h : heap) (parts : list string) (current : value)
  (path : string) (result : list (string * value)) : list (string * value) :=
  match parts with
  | [] => mapSet (slice1 path) current result
  | part :: rest =>
      if part =? "*" then
        match current with
        | VRef l =>
            match lookup h l with
            | Some (Arr elems _) =>
                fold_left
                  (fun res '(i, item) =>
                     expandRecursive h rest item
                       (path ++ "." ++ natToString i) res)
                  (indexed elems) result
            | Some (Obj props) =>
                fold_left
                  (fun res '(key, v) =>
                     expandRecursive h rest v (path ++ "." ++ key) res)
                  props result
            | None => result
            end
        | VPrim _ => result
        end
      else
        let next :=
          if truthy current && (typeof current =? "object")
          then getProp h current part else undefined in
        expandRecursive h rest next (path ++ "." ++ part) result
  end.

Definition expandWildcards (h : heap) (pattern : string) (data : value)
  : list (string * value) :=
  if negb (includesChar "*" pattern) then mapSet pattern (get h data pattern) []
  else expandRecursive h (split "." pattern) data EmptyString [].

Definition isWildcardPattern (path : string) : bool := includesChar "*" path.

(** [s.indexOf(c)] for a single character; [None] is [-1]. *)
Fixpoint indexOfChar (c : ascii) (s : string) : option nat :=
  match s with
  | EmptyString => None
  | String d rest =>
      if Ascii.eqb d c then Some O else option_map S (indexOfChar c rest)
  end.

(** [getWildcardBasePath(pattern)]: the pattern up to its first star,
    less the character before the star. *)
Definition getWildcardBasePath (pattern : string) : string :=
  match indexOfChar "*" pattern with
  | None => pattern
  | Some O => EmptyString
  | Some idx => String.substring 0 (idx - 1) pattern
  end.

(* ================================================================== *)
(** ** types.ts *)

Definition RULE_NAME_MAX_LENGTH : nat := 1024.

Definition RuleParams := list tree.

Record ValidationError := {
  key : string;
  params : list (string * tree)
}.

(** The type of a handler's [validate(value, params, data, field)]; the
    store is read, never written. *)
Definition ValidateFn :=
  heap -> value -> RuleParams -> value -> string -> option ValidationError.

(** [bailOnFailure] and [skipIfEmpty] are optional properties. *)
Record RuleHandler := {
  name : string;
  validate : ValidateFn;
  bailOnFailure : option bool;
  skipIfEmpty : option bool
}.

Record ParsedRule := {
  ruleName : string;
  ruleParams : RuleParams;
  handler : RuleHandler
}.

Record ParsedConditionalRule := {
  condition : tree;
  thenRules : list ParsedRule;
  elseRules : option (list ParsedRule)
}.

Inductive ParsedRuleItem :=
  | Simple (rule : ParsedRule)
  | Conditional (rule : ParsedConditionalRule).

Record ValidationResult := {
  valid : bool;
  errors : list (string * list ValidationError);
  validated : value
}.

(** What the engine takes from its host: the regular-expression engine
    ([regExpTest source flags input] is [regex.test(input)], [None] when
    the source is not a valid pattern) and the [validate] functions of the
    leaf rules that are not part of the core. *)
Record Host := {
  regExpTest : string -> string -> string -> option bool;
  leafValidate : string -> ValidateFn
}.

(* ================================================================== *)
(** ** condition.ts *)


(** [items[i]], [undefined] past the end (also what array destructuring
    binds). *)
Definition item (i : nat) (items : list tree) : tree :=
  nth i items (TPrim PUndefined).

Definition isStr (s : string) (t : tree) : bool :=
  match t with TPrim (PStr x) => x =? s | _ => false end.

(** [a === b] between a value of the record and a literal of the rule
    specification: two objects are never the same object. *)
Definition strictEquals (a : value) (b : tree) : bool :=
  match a, b with
  | VPrim p, TPrim q => primEq p q
  | _, _ => false
  end.

Definition sameValueZero (a : value) (b : tree) : bool :=
  match a, b with
  | VPrim p, TPrim q => primSameValueZero p q
  | _, _ => false
  end.

Definition compare (h : heap) (a : value) (op : tree) (b : tree) : bool :=
  let pa := valueToPrimitive h a in
  let pb := treeToPrimitive b in
  if isStr "=" op then strictEquals a b
  else if isStr "!=" op then negb (strictEquals a b)
  else if isStr ">" op then greaterThan pa pb
  else if isStr ">=" op then greaterOrEqual pa pb
  else if isStr "<" op then lessThan pa pb
  else if isStr "<=" op then lessOrEqual pa pb
  else false.

Definition evaluateSelfCondition (host : Host) (h : heap)
  (condition : list tree) (v : value) : Completion bool :=
  let subject := item 0 condition in
  if isStr "@empty" subject then Normal (isEmpty h v)
  else if isStr "@filled" subject then Normal (negb (isEmpty h v))
  else if isStr "@length" subject then
    let op := item 1 condition in
    let expected := item 2 condition in
    let len :=
      match v with
      | VPrim (PStr s) => String.length s
      | VRef l =>
          match lookup h l with
          | Some (Arr elems _) => List.length elems
          | _ => O
          end
      | _ => O
      end in
    Normal (compare h (VPrim (PNum (ofNat len))) op expected)
  else if isStr "@value" subject then
    Normal (compare h v (item 1 condition) (item 2 condition))
  else if isStr "@type" subject then
    let expected := item 1 condition in
    if isStr "array" expected then Normal (isArray h v)
    else Normal (match expected with
                 | TPrim (PStr e) => typeof v =? e
                 | _ => false
                 end)
  else if isStr "@matches" subject then
    match v with
    | VPrim (PStr input) =>
        let '(source, flags) :=
          match item 1 condition with
          | TRegExp source flags => (source, flags)
          | TPrim PUndefined => ("(?:)", EmptyString)
          | pattern => (treeToString pattern, EmptyString)
          end in
        match regExpTest host source flags input with
        | Some b => Normal b
        | None => Throw SyntaxError
        end
    | _ => Normal false
    end
  else Normal false.

(** [get(data, field)] where [field] comes from a condition: a falsy
    field gives [undefined], a string is a path, anything else has no
    [split] method. *)
Definition getField (h : heap) (data : value) (field : tree)
  : Completion value :=
  match field with
  | TPrim (PStr s) => Normal (get h data s)
  | TPrim p => if primTruthy p then Throw TypeError else Normal undefined
  | _ => Throw TypeError
  end.

(** [expected.includes(value)]: membership for an array, substring search
    for a string, and no such method on anything else. *)
Definition includesValue (h : heap) (expected : tree) (v : value)
  : Completion bool :=
  match expected with
  | TArr items => Normal (existsb (sameValueZero v) items)
  | TPrim (PStr s) => Normal (includes (valueToString h v) s)
  | _ => Throw TypeError
  end.

Definition evaluateFieldCondition (h : heap) (condition : list tree)
  (data : value) : Completion bool :=
  let field := item 0 condition in
  let op := item 1 condition in
  bind (getField h data field) (fun v =>
    if isStr "filled" op then Normal (negb (isEmpty h v))
    else if isStr "empty" op then Normal (isEmpty h v)
    else if isStr "in" op then includesValue h (item 2 condition) v
    else if isStr "not_in" op then
      bind (includesValue h (item 2 condition) v) (fun b => Normal (negb b))
    else Normal (compare h v op (item 2 condition))).

(** The last two cases of [evaluateCondition]: a head that is a string
    starting with [@] selects the self condition, anything else the field
    condition. *)
Definition evaluateSimpleCondition (host : Host) (h : heap)
  (condition : list tree) (currentValue allData : value) : Completion bool :=
  match item 0 condition with
  | TPrim (PStr s) =>
      if startsWith "@" s then evaluateSelfCondition host h condition currentValue
      else evaluateFieldCondition h condition allData
  | _ => evaluateFieldCondition h condition allData
  end.

(** [evaluateCondition].  A condition is an array; a string behaves as
    the array of its characters under indexing and destructuring, and
    every other value raises a [TypeError] on the way. *)
Fixpoint evaluateCondition (host : Host) (h : heap) (condition : tree)
  (currentValue allData : value) {struct condition} : Completion bool :=
  match condition with
  | TArr [] => evaluateSimpleCondition host h [] currentValue allData
  | TArr ((head :: rest) as items) =>
      if isStr "and" head then
        (fix every (cs : list tree) : Completion bool :=
           match cs with
           | [] => Normal true
           | c :: cs' =>
               bind (evaluateCondition host h c currentValue allData)
                    (fun b => if b then every cs' else Normal false)
           end) rest
      else if isStr "or" head then
        (fix some (cs : list tree) : Completion bool :=
           match cs with
           | [] => Normal false
           | c :: cs' =>
               bind (evaluateCondition host h c currentValue allData)
                    (fun b => if b then Normal true else some cs')
           end) rest
      else evaluateSimpleCondition host h items currentValue allData
  | TPrim (PStr s) =>
      evaluateSimpleCondition host h (map (fun c => TPrim (PStr c)) (chars s))
        currentValue allData
  | _ => Throw TypeError
  end.

(* ================================================================== *)
(** ** rules/presence.ts, rules/type-checks.ts and rules/index.ts *)

Definition fieldError (k : string) (field : string) : ValidationError :=
  {| key := k; params := [("field", TPrim (PStr field))] |}.

Definition requiredRule : RuleHandler := {|
  name := "required";
  skipIfEmpty := Some false;
  bailOnFailure := Some true;
  validate := fun h v _ _ field =>
    if isEmpty h v then Some (fieldError "validation.required" field)
    else None
|}.

Definition nullableRule : RuleHandler := {|
  name := "nullable";
  skipIfEmpty := Some false;
  bailOnFailure := Some false;
  validate := fun _ _ _ _ _ => None
|}.

Definition filledRule : RuleHandler := {|
  name := "filled";
  skipIfEmpty := Some false;
  bailOnFailure := Some true;
  validate := fun h v _ _ field =>
    match v with
    | VPrim PUndefined => None
    | _ => if isEmpty h v then Some (fieldError "validation.filled" field)
           else None
    end
|}.

Definition presentRule : RuleHandler := {|
  name := "present";
  skipIfEmpty := Some false;
  bailOnFailure := Some true;
  validate := fun _ v _ _ field =>
    match v with
    | VPrim PUndefined => Some (fieldError "validation.present" field)
    | _ => None
    end
|}.

Definition stringRule : RuleHandler := {|
  name := "string";
  skipIfEmpty := None;
  bailOnFailure := None;
  validate := fun _ v _ _ field =>
    if negb (typeof v =? "string")
    then Some (fieldError "validation.string" field) else None
|}.

Definition integerRule : RuleHandler := {|
  name := "integer";
  skipIfEmpty := None;
  bailOnFailure := None;
  validate := fun _ v _ _ field =>
    let asString :=
      match v with
      | VPrim (PStr s) =>
          let parsed := parseInt10 s in
          negb (isNaN parsed) && (numberToString parsed =? trim s)
      | _ => false
      end in
    if asString then None
    else match v with
         | VPrim (PNum n) =>
             if isInteger n then None
             else Some (fieldError "validation.integer" field)
         | _ => Some (fieldError "validation.integer" field)
         end
|}.

Definition booleanLike : list tree :=
  [TPrim (PBool true); TPrim (PBool false); TPrim (PNum (ofZ 0));
   TPrim (PNum (ofZ 1)); TPrim (PStr "0"); TPrim (PStr "1");
   TPrim (PStr "true"); TPrim (PStr "false")].

Definition booleanRule : RuleHandler := {|
  name := "boolean";
  skipIfEmpty := None;
  bailOnFailure := None;
  validate := fun _ v _ _ field =>
    if typeof v =? "boolean" then None
    else if existsb (sameValueZero v) booleanLike then None
    else Some (fieldError "validation.boolean" field)
|}.

Definition arrayRule : RuleHandler := {|
  name := "array";
  skipIfEmpty := None;
  bailOnFailure := None;
  validate := fun h v _ _ field =>
    if negb (isArray h v) then Some (fieldError "validation.array" field)
    else None
|}.

(** A leaf rule outside the core: its [validate] is the host's, and it
    declares neither flag. *)
Definition leafRule (host : Host) (n : string) : RuleHandler := {|
  name := n;
  validate := leafValidate host n;
  bailOnFailure := None;
  skipIfEmpty := None
|}.

Definition builtInRules (host : Host) : list RuleHandler :=
  [requiredRule; nullableRule; filledRule; presentRule;
   stringRule; integerRule; leafRule host "numeric"; booleanRule; arrayRule]
  ++ map (leafRule host)
       ["min"; "max"; "between"; "regex"; "not_regex"; "alpha"; "alpha_num";
        "alpha_dash"; "lowercase"; "uppercase"; "starts_with"; "ends_with";
        "contains";
        "gt"; "gte"; "lt"; "lte";
        "distinct";
        "email"; "url"; "ip"; "uuid"; "json"; "date"; "date_format"; "after";
        "before";
        "in"; "not_in"; "same"; "different"; "confirmed";
        "oib"; "phone"; "iban"; "vat_eu"].

(** The registry is a process-wide [Map] from rule name to handler. *)
Definition Registry := list (string * RuleHandler).

Definition registerRule (handler : RuleHandler) (registry : Registry)
  : Registry :=
  mapSet (name handler) handler registry.

(** The registry after the module has registered the built-in rules. *)
Definition ruleRegistry (host : Host) : Registry :=
  fold_left (fun registry rule => registerRule rule registry)
    (builtInRules host) [].

(** [getRule(name)]: a [Map] keyed by strings finds nothing under a key
    that is not a string. *)
Definition getRule (registry : Registry) (n : tree) : option RuleHandler :=
  match n with
  | TPrim (PStr s) => assoc s registry
  | _ => None
  end.

Definition hasRule (registry : Registry) (n : tree) : bool :=
  isSome (getRule registry n).

Definition getRuleNames (registry : Registry) : list string :=
  map fst registry.

(* ================================================================== *)
(** ** rules/comparison.ts and rules/regional.ts

    The registry above takes the handlers of these modules from the
    host.  Those of [in], [not_in], [same], [different], [confirmed] and
    [oib] use nothing but the language; they follow as the source defines
    them. *)

(** *** Membership: [in] and [not_in] *)

(** [items.join(sep)]: [null] and [undefined] print as nothing. *)
Definition joinTrees (sep : string) (items : list tree) : string :=
  String.concat sep
    (map (fun t => match t with
                   | TPrim PUndefined | TPrim PNull => EmptyString
                   | _ => treeToString t
                   end) items).

(** [Array.isArray(params[0]) ? params[0] : params]. *)
Definition listedValues (ps : RuleParams) : list tree :=
  match item 0 ps with
  | TArr values => values
  | _ => ps
  end.

Definition valuesError (k field : string) (values : list tree)
  : ValidationError :=
  {| key := k;
     params := [("field", TPrim (PStr field));
                ("values", TPrim (PStr (joinTrees ", " values)))] |}.

Definition inRule : RuleHandler := {|
  name := "in";
  skipIfEmpty := None;
  bailOnFailure := None;
  validate := fun _ v ps _ field =>
    let allowedValues := listedValues ps in
    if negb (existsb (sameValueZero v) allowedValues)
    then Some (valuesError "validation.in" field allowedValues)
    else None
|}.

Definition notInRule : RuleHandler := {|
  name := "not_in";
  skipIfEmpty := None;
  bailOnFailure := None;
  validate := fun _ v ps _ field =>
    let disallowedValues := listedValues ps in
    if existsb (sameValueZero v) disallowedValues
    then Some (valuesError "validation.not_in" field disallowedValues)
    else None
|}.

(** *** Agreement between fields: [same], [different], [confirmed] *)

(** [a === b] between two values of the record: objects are equal when
    they are the same object. *)
Definition valueStrictEquals (a b : value) : bool :=
  match a, b with
  | VPrim p, VPrim q => primEq p q
  | VRef l, VRef l' => (l =? l')%nat
  | _, _ => false
  end.

(** The [validate] of [same], [different] and [confirmed].  [same] and
    [different] pass their first parameter to [get], which throws on a
    truthy value that is not a string. *)
Definition sameValidate (h : heap) (v : value) (ps : RuleParams)
  (data : value) (field : string) : Completion (option ValidationError) :=
  let otherField := item 0 ps in
  bind (getField h data otherField) (fun otherValue =>
    if negb (valueStrictEquals v otherValue)
    then Normal (Some {| key := "validation.same";
                         params := [("field", TPrim (PStr field));
                                    ("other", otherField)] |})
    else Normal None).

Definition differentValidate (h : heap) (v : value) (ps : RuleParams)
  (data : value) (field : string) : Completion (option ValidationError) :=
  let otherField := item 0 ps in
  bind (getField h data otherField) (fun otherValue =>
    if valueStrictEquals v otherValue
    then Normal (Some {| key := "validation.different";
                         params := [("field", TPrim (PStr field));
                                    ("other", otherField)] |})
    else Normal None).

Definition confirmedRule : RuleHandler := {|
  name := "confirmed";
  skipIfEmpty := None;
  bailOnFailure := None;
  validate := fun h v _ data field =>
    let confirmationField := field ++ "_confirmation" in
    let confirmationValue := get h data confirmationField in
    if negb (valueStrictEquals v confirmationValue)
    then Some (fieldError "validation.confirmed" field)
    else None
|}.

(** *** The Croatian OIB *)

(** [parseInt(c, 10)] for a decimal digit [c]. *)
Definition digitOf (c : ascii) : nat := nat_of_ascii c - 48.

(** One round of the ISO 7064 MOD 11-10 loop on the digit [d]. *)
Definition oibStep (t d : nat) : nat :=
  let t := (d + t) mod 10 in
  let t := if (t =? 0)%nat then 10%nat else t in
  (t * 2) mod 11.

(** The loop over [value[0]], ..., [value[n - 1]]; the format check
    before it leaves no index without a character. *)
Fixpoint oibLoop (n : nat) (value : string) (t : nat) : nat :=
  match n, value with
  | S n', String c rest => oibLoop n' rest (oibStep t (digitOf c))
  | _, _ => t
  end.

(** [/^\d{11}$/.test(value)]. *)
Definition elevenDigits (value : string) : bool :=
  (String.length value =? 11)%nat && allChars isDigit value.

(** [control === parseInt(value[10], 10)]. *)
Definition oibControl (value : string) : bool :=
  let t := oibLoop 10 value 10 in
  let control := ((11 - t) mod 10)%nat in
  match String.get 10 value with
  | Some c => (control =? digitOf c)%nat
  | None => false
  end.

Definition oibRule : RuleHandler := {|
  name := "oib";
  skipIfEmpty := None;
  bailOnFailure := None;
  validate := fun _ v _ _ field =>
    match v with
    | VPrim (PStr value) =>
        if negb (elevenDigits value)
        then Some (fieldError "validation.oib" field)
        else if negb (oibControl value)
        then Some (fieldError "validation.oib" field)
        else None
    | _ => Some (fieldError "validation.oib" field)
    end
|}.

(* ================================================================== *)
(** ** parser.ts *)

Definition MAX_LENGTH : nat := 1024.

(** [/^[a-z][a-z0-9_]*$/.test(s)]. *)
Definition NAME_PATTERN (s : string) : bool :=
  match s with
  | String c rest =>
      isLower c &&
      allChars (fun d => isLower d || isDigit d || Ascii.eqb d "_") rest
  | EmptyString => false
  end.

(** [name.length]: reading a property of [null] or [undefined] throws;
    strings and arrays have a length, an object has one if it carries the
    property, everything else gives [undefined]. *)
Definition lengthOf (n : tree) : Completion tree :=
  match n with
  | TPrim PUndefined | TPrim PNull => Throw TypeError
  | TPrim (PStr s) => Normal (TPrim (PNum (ofNat (String.length s))))
  | TArr items => Normal (TPrim (PNum (ofNat (List.length items))))
  | TObj entries =>
      Normal (match assoc "length" entries with
              | Some v => v
              | None => TPrim PUndefined
              end)
  | _ => Normal (TPrim PUndefined)
  end.

Definition validateRuleName (n : tree) : Completion unit :=
  bind (lengthOf n) (fun len =>
    if greaterThan (treeToPrimitive len) (PNum (ofNat MAX_LENGTH)) then
      Throw (InvalidRuleNameException n
               "Rule name exceeds maximum length of 1024")
    else if negb (NAME_PATTERN (treeToString n)) then
      Throw (InvalidRuleNameException n
               "Rule name must start with a lowercase letter and contain only lowercase letters, numbers, and underscores")
    else Normal tt).

Definition parseSimpleRule (registry : Registry) (rule : tree)
  : Completion ParsedRule :=
  let named :=
    match rule with
    | TPrim (PStr s) => Normal (TPrim (PStr s), [])
    | TArr items => Normal (item 0 items, tl items)
    | _ => Throw (InvalidRuleNameException
                    (TPrim (PStr (treeToString rule))) "Invalid rule format")
    end in
  bind named (fun '(n, ps) =>
    bind (validateRuleName n) (fun _ =>
      match getRule registry n with
      | None => Throw (UnknownRuleException n)
      | Some handler' =>
          Normal {| ruleName := treeToString n;
                    ruleParams := ps;
                    handler := handler' |}
      end)).

(** [rules.map(f)] on a value that should be an array: anything else has
    no [map] method. *)
Definition mapArray {B} (f : tree -> Completion B) (rules : tree)
  : Completion (list B) :=
  match rules with
  | TArr items => mapM f items
  | _ => Throw TypeError
  end.

Definition parseRule (registry : Registry) (rule : tree)
  : Completion ParsedRuleItem :=
  match rule with
  | TArr items =>
      if isStr "when" (item 0 items) then
        let condition' := item 1 items in
        let thenRules' := item 2 items in
        let elseRules' := item 3 items in
        bind (mapArray (parseSimpleRule registry) thenRules') (fun thens =>
          bind (match elseRules' with
                | TPrim PUndefined | TPrim PNull => Normal None
                | _ => bind (mapArray (parseSimpleRule registry) elseRules')
                            (fun es => Normal (Some es))
                end)
               (fun elses =>
                  Normal (Conditional {| condition := condition';
                                         thenRules := thens;
                                         elseRules := elses |})))
      else bind (parseSimpleRule registry rule) (fun r => Normal (Simple r))
  | _ => bind (parseSimpleRule registry rule) (fun r => Normal (Simple r))
  end.

Definition parseFieldRules (registry : Registry) (rules : tree)
  : Completion (list ParsedRuleItem) :=
  mapArray (parseRule registry) rules.

(** The raw rule specification: the entries of the [Rules] object, in
    enumeration order. *)
Definition Rules := list (string * tree).

Definition ParsedRules := list (string * list ParsedRuleItem).

Fixpoint parseRulesFrom (registry : Registry) (entries : Rules)
  (parsed : ParsedRules) : Completion ParsedRules :=
  match entries with
  | [] => Normal parsed
  | (field, fieldRules) :: rest =>
      bind (parseFieldRules registry fieldRules) (fun items =>
        parseRulesFrom registry rest (mapSet field items parsed))
  end.

Definition parseRules (registry : Registry) (rules : Rules)
  : Completion ParsedRules :=
  parseRulesFrom registry rules [].

Definition hasNullableRule (parsedRules : list ParsedRuleItem) : bool :=
  existsb (fun it =>
             match it with
             | Simple r => ruleName r =? "nullable"
             | Conditional _ => false
             end) parsedRules.

Definition isConditionalRule (it : ParsedRuleItem) : bool :=
  match it with Conditional _ => true | Simple _ => false end.

(* ================================================================== *)
(** ** validator.ts *)

Module Validator.

Record t := {
  rules : Rules;
  parsedRules : ParsedRules
}.

(** [new Validator(rules)]: the rules are parsed in the constructor, so a
    parse error leaves no instance. *)
Definition new (registry : Registry) (rules' : Rules) : Completion t :=
  bind (parseRules registry rules') (fun parsed =>
    Normal {| rules := rules'; parsedRules := parsed |}).

Definition validateSimpleRule (h : heap) (field : string) (v allData : value)
  (rule : ParsedRule) : option ValidationError :=
  let skip :=
    match skipIfEmpty (handler rule) with
    | Some false => false
    | _ => true
    end in
  if skip && isEmpty h v then None
  else validate (handler rule) h v (ruleParams rule) allData field.

(** [if (handler.bailOnFailure)]. *)
Definition bails (rule : ParsedRule) : bool :=
  match bailOnFailure (handler rule) with
  | Some true => true
  | _ => false
  end.

(** The loop over the rules of a branch: errors are collected and the
    loop is left after the error of a bailing rule. *)
Fixpoint applyRules (h : heap) (field : string) (v allData : value)
  (rulesToApply : list ParsedRule) : list ValidationError :=
  match rulesToApply with
  | [] => []
  | simpleRule :: rest =>
      match validateSimpleRule h field v allData simpleRule with
      | Some error =>
          if bails simpleRule then [error]
          else error :: applyRules h field v allData rest
      | None => applyRules h field v allData rest
      end
  end.

Definition validateConditionalRule (host : Host) (h : heap) (field : string)
  (v allData : value) (rule : ParsedConditionalRule)
  : Completion (list ValidationError) :=
  bind (evaluateCondition host h (condition rule) v allData)
    (fun conditionMet =>
       let rulesToApply :=
         if conditionMet then Some (thenRules rule) else elseRules rule in
       match rulesToApply with
       | Some rs => Normal (applyRules h field v allData rs)
       | None => Normal []
       end).

(** The loop of [validateField] over the top-level items. *)
Fixpoint validateItems (host : Host) (h : heap) (field : string)
  (v allData : value) (items : list ParsedRuleItem)
  : Completion (list ValidationError) :=
  match items with
  | [] => Normal []
  | Conditional ruleItem :: rest =>
      bind (validateConditionalRule host h field v allData ruleItem)
        (fun condErrors =>
           bind (validateItems host h field v allData rest)
             (fun more => Normal (condErrors ++ more)%list))
  | Simple ruleItem :: rest =>
      match validateSimpleRule h field v allData ruleItem with
      | Some error =>
          if bails ruleItem then Normal [error]
          else bind (validateItems host h field v allData rest)
                 (fun more => Normal (error :: more))
      | None => validateItems host h field v allData rest
      end
  end.

Definition validateField (host : Host) (h : heap) (field : string)
  (v allData : value) (items : list ParsedRuleItem)
  : Completion (list ValidationError) :=
  let isNullable := hasNullableRule items in
  if isNullable && isEmpty h v then Normal []
  else validateItems host h field v allData items.

Definition Errors := list (string * list ValidationError).

(** One concrete field: its errors are recorded under its path, or, when
    there are none, its value is written into the output tree [out]. *)
Definition validateEntry (host : Host) (data out : value)
  (fieldRules : list ParsedRuleItem) (errs : Errors) (h : heap)
  (field : string) (v : value) : Completion Errors * heap :=
  match validateField host h field v data fieldRules with
  | Throw e => (Throw e, h)
  | Normal fieldErrors =>
      if (0 <? List.length fieldErrors)%nat then
        (Normal (ownSet field fieldErrors errs), h)
      else
        match set h out field v with
        | (Normal _, h') => (Normal errs, h')
        | (Throw e, h') => (Throw e, h')
        end
  end.

Fixpoint validateEntries (host : Host) (data out : value)
  (fieldRules : list ParsedRuleItem) (entries : list (string * value))
  (errs : Errors) (h : heap) : Completion Errors * heap :=
  match entries with
  | [] => (Normal errs, h)
  | (field, v) :: rest =>
      match validateEntry host data out fieldRules errs h field v with
      | (Normal errs', h') =>
          validateEntries host data out fieldRules rest errs' h'
      | (Throw e, h') => (Throw e, h')
      end
  end.

(** The concrete fields a pattern addresses in the current store. *)
Definition addressed (h : heap) (data : value) (fieldPattern : string)
  : list (string * value) :=
  if isWildcardPattern fieldPattern then expandWildcards h fieldPattern data
  else [(fieldPattern, get h data fieldPattern)].

(** The loop of [validate] over the parsed rule map. *)
Fixpoint validatePatterns (host : Host) (data out : value)
  (parsed : ParsedRules) (errs : Errors) (h : heap)
  : Completion Errors * heap :=
  match parsed with
  | [] => (Normal errs, h)
  | (fieldPattern, fieldRules) :: rest =>
      match validateEntries host data out fieldRules
              (addressed h data fieldPattern) errs h with
      | (Normal errs', h') => validatePatterns host data out rest errs' h'
      | (Throw e, h') => (Throw e, h')
      end
  end.

(** [validate(data)]: the result and the store after the call. *)
Definition validate (host : Host) (self : t) (h : heap) (data : value)
  : Completion ValidationResult * heap :=
  let '(out, h0) := alloc (Obj []) h in
  match validatePatterns host data out (parsedRules self) [] h0 with
  | (Throw e, h1) => (Throw e, h1)
  | (Normal errs, h1) =>
      if (List.length errs =? 0)%nat then
        (Normal {| valid := true; errors := errs; validated := out |}, h1)
      else
        let '(empty, h2) := alloc (Obj []) h1 in
        (Normal {| valid := false; errors := errs; validated := empty |}, h2)
  end.

(** [Validator.make(data, rules)]. *)
Definition make (host : Host) (registry : Registry) (h : heap) (data : value)
  (rules' : Rules) : Completion ValidationResult * heap :=
  match new registry rules' with
  | Normal self => validate host self h data
  | Throw e => (Throw e, h)
  end.

End Validator.

(* ================================================================== *)
(** ** Literals as records *)

(** Evaluation of a JSON-like literal into the store.  An object literal
    defines its properties in order; a regular expression has no own
    enumerable property. *)
Fixpoint store (t : tree) (h : heap) : value * heap :=
  match t with
  | TPrim p => (VPrim p, h)
  | TArr items =>
      let '(vs, h1) :=
        (fix each (ts : list tree) (h' : heap) : list (option value) * heap :=
           match ts with
           | [] => ([], h')
           | t' :: rest =>
               let '(v, h1) := store t' h' in
               let '(vs, h2) := each rest h1 in
               (Some v :: vs, h2)
           end) items h in
      alloc (Arr vs []) h1
  | TObj entries =>
      let '(ps, h1) :=
        (fix each (es : list (string * tree)) (ps : list (string * value))
             (h' : heap) : list (string * value) * heap :=
           match es with
           | [] => (ps, h')
           | (k, t') :: rest =>
               let '(v, h1) := store t' h' in
               each rest (ownSet k v ps) h1
           end) entries [] h in
      alloc (Obj ps) h1
  | TRegExp _ _ => alloc (Obj []) h
  end.

(** Reading a stored value back as a literal, to a given depth. *)
Fixpoint load (fuel : nat) (h : heap) (v : value) : tree :=
  match v with
  | VPrim p => TPrim p
  | VRef l =>
      match fuel with
      | O => TPrim PUndefined
      | S fuel' =>
          match lookup h l with
          | Some (Obj props) =>
              TObj (map (fun '(k, x) => (k, load fuel' h x)) props)
          | Some (Arr elems _) =>
              TArr (map (fun e => match e with
                                  | Some x => load fuel' h x
                                  | None => TPrim PUndefined
                                  end) elems)
          | None => TPrim PUndefined
          end
      end
  end.

Abbreviation str s := (TPrim (PStr s)).
Abbreviation num z := (TPrim (PNum (ofZ z))).

(** A host without a regular-expression engine whose leaf rules accept
    every value; the examples below do not reach either. *)
Definition bareHost : Host := {|
  regExpTest := fun _ _ _ => None;
  leafValidate := fun _ _ _ _ _ _ => None
|}.

(* ================================================================== *)
(** * Vocabulary of the properties *)

(** ** Examples and specification-side definitions *)

(** The specification [[required, string, ["min", 5]]] for one field. *)
Definition bailRules : Rules :=
  [("field", TArr [str "required"; str "string"; TArr [str "min"; num 5]])].

(** The specification [[nullable, integer]] for one field. *)
Definition nullableRules : Rules :=
  [("field", TArr [str "nullable"; str "integer"])].

(** What [validate] reports for a record literal under a rule
    specification and the built-in registry: the flag and the error map. *)
Definition verdict (host : Host) (rules : Rules) (data : tree)
  : Completion (bool * Validator.Errors) :=
  let '(d, h) := store data [] in
  match Validator.make host (ruleRegistry host) h d rules with
  | (Normal r, _) => Normal (valid r, errors r)
  | (Throw e, _) => Throw e
  end.

(** The expansion as the specification words it: at a wildcard segment
    the elements of a sequence are taken in ascending index order and the
    entries of a keyed container in their order, each expanded against
    the rest of the pattern under the path extended by the index or key;
    a wildcard over anything else addresses nothing. *)
Fixpoint expansion (h : heap) (parts : list string) (current : value)
  (path : string) : list (string * value) :=
  match parts with
  | [] => [(slice1 path, current)]
  | part :: rest =>
      if part =? "*" then
        match current with
        | VRef l =>
            match lookup h l with
            | Some (Arr elems _) =>
                flat_map (fun '(i, item) =>
                            expansion h rest item
                              (path ++ "." ++ natToString i))
                         (indexed elems)
            | Some (Obj props) =>
                flat_map (fun '(key, v) =>
                            expansion h rest v (path ++ "." ++ key))
                         props
            | None => []
            end
        | VPrim _ => []
        end
      else
        expansion h rest
          (if truthy current && (typeof current =? "object")
           then getProp h current part else undefined)
          (path ++ "." ++ part)
  end.

(** Entering a list of pairs into a map, in order. *)
Definition enter (entries result : list (string * value))
  : list (string * value) :=
  fold_left (fun m '(k, x) => mapSet k x m) entries result.

(** The record [{items: [{name: "a"}, {name: "b"}]}]. *)
Definition itemsRecord : tree :=
  TObj [("items", TArr [TObj [("name", str "a")]; TObj [("name", str "b")]])].

(** The record [{scores: {b: 1, "10": 2, "9": 3}}]. *)
Definition scoresRecord : tree :=
  TObj [("scores", TObj [("b", num 1); ("10", num 2); ("9", num 3)])].

(** [expandWildcards] on a record literal. *)
Definition expandLiteral (pattern : string) (data : tree)
  : list (string * value) :=
  let '(d, h) := store data [] in expandWildcards h pattern d.

(** The outcome of an ordering comparator on two strings: comparison by
    code units. *)
Definition stringOrdering (op s t : string) : bool :=
  if op =? ">" then String.ltb t s
  else if op =? ">=" then negb (String.ltb s t)
  else if op =? "<" then String.ltb s t
  else negb (String.ltb t s).

(** Parsing a rule that is a name, or an array headed by a name. *)
Definition namedRule (rule : tree) (s : string) : Prop :=
  rule = str s \/ exists ps, rule = TArr (str s :: ps).

(** A conditional item: an array headed by ["when"]. *)
Definition whenItem (rule : tree) : Prop :=
  exists rest, rule = TArr (str "when" :: rest).

(** A conditional whose then or else branch holds a conditional item. *)
Definition nestedConditional (rule : tree) : Prop :=
  exists cond thenBranch more nested,
    rule = TArr (str "when" :: cond :: thenBranch :: more)
    /\ whenItem nested
    /\ ((exists items, thenBranch = TArr items /\ In nested items)
        \/ (exists items, item 0 more = TArr items /\ In nested items)).

(** The specification
    [{f: [["when", ["@filled"], ["Bad", ["when", ["@filled"], ["required"]]]]]}]:
    a conditional inside a then branch, behind a malformed name. *)
Definition nestedBehindBadName : Rules :=
  [("f",
    TArr [TArr [str "when"; TArr [str "@filled"];
                TArr [str "Bad";
                      TArr [str "when"; TArr [str "@filled"];
                            TArr [str "required"]]]]])].

(** The specification [{a: ["required"], "a.b.c": ["nullable"]}]. *)
Definition aliasRules : Rules :=
  [("a", TArr [str "required"]); ("a.b.c", TArr [str "nullable"])].

(** The record [{a: {b: 5}}]. *)
Definition aliasRecord : tree := TObj [("a", TObj [("b", num 5)])].

(** The specification
    [{"a.b": ["integer"], a: ["required"], "a.b.c": ["nullable"]}]. *)
Definition twiceRules : Rules :=
  [("a.b", TArr [str "integer"]); ("a", TArr [str "required"]);
   ("a.b.c", TArr [str "nullable"])].

(** Two calls of [validate] on one instance and one record: the second
    call runs in the store that the first call left. *)
Definition validateTwice (host : Host) (self : Validator.t) (h : heap)
  (data : value) : Completion (ValidationResult * ValidationResult) :=
  match Validator.validate host self h data with
  | (Normal r1, h1) =>
      match Validator.validate host self h1 data with
      | (Normal r2, _) => Normal (r1, r2)
      | (Throw e, _) => Throw e
      end
  | (Throw e, _) => Throw e
  end.

(** The specification [{a: ["integer"], "a.b": ["nullable"]}]. *)
Definition overwriteRules : Rules :=
  [("a", TArr [str "integer"]); ("a.b", TArr [str "nullable"])].

(** ** Paths, separation and closed stores *)

(** The segments of a dot path. *)
Definition segments (path : string) : list string := split "." path.

(** [q] is a prefix of [p], or [p] itself. *)
Definition prefixOf (q p : list string) : Prop := exists r, p = (q ++ r)%list.

(** No segment is [length]. *)
Definition noLength (p : list string) : Prop := ~ In "length" p.

(** A path [set] and [get] both walk: not the empty string, and without a
    segment [length], which on an array names no element. *)
Definition goodPath (f : string) : Prop :=
  f <> "" /\ noLength (segments f).

(** Neither path runs through the other. *)
Definition unrelated (f f' : string) : Prop :=
  ~ prefixOf (segments f) (segments f')
  /\ ~ prefixOf (segments f') (segments f).

(** Addressed fields whose paths are walkable and pairwise unrelated. *)
Fixpoint separated (E : list (string * value)) : Prop :=
  match E with
  | [] => True
  | (f, _) :: rest =>
      goodPath f
      /\ (forall f' v', In (f', v') rest -> unrelated f f')
      /\ separated rest
  end.

(** A value, an object, a store without references past [n]. *)
Definition closedValue (n : nat) (v : value) : Prop :=
  match v with VRef l => (l < n)%nat | VPrim _ => True end.

Definition closedSlot (n : nat) (e : option value) : Prop :=
  match e with Some v => closedValue n v | None => True end.

Definition closedObject (n : nat) (o : object) : Prop :=
  match o with
  | Obj props => Forall (fun kv => closedValue n (snd kv)) props
  | Arr elems named =>
      Forall (closedSlot n) elems
      /\ Forall (fun kv => closedValue n (snd kv)) named
  end.

(** Every reference held in the store points into the store. *)
Definition closedHeap (h : heap) : Prop :=
  forall l o, lookup h l = Some o -> closedObject (List.length h) o.

(** The fields a rule map addresses in the record as it is given. *)
Definition addressedBy (hInit : heap) (data : value) (parsed : ParsedRules)
  : list (string * value) :=
  flat_map (fun '(pattern, _) => Validator.addressed hInit data pattern) parsed.

(** The record [{name: "Ann", tags: ["x", "y"]}] in a store: the array at
    0, the record at 1. *)
Definition annStore : heap :=
  [Arr [Some (VPrim (PStr "x")); Some (VPrim (PStr "y"))] [];
   Obj [("name", VPrim (PStr "Ann")); ("tags", VRef 0)]].

(** The instance that [new Validator] builds from
    [{name: ["required"], "tags.*": ["string"]}]. *)
Definition annValidator : Validator.t := {|
  Validator.rules :=
    [("name", TArr [str "required"]); ("tags.*", TArr [str "string"])];
  Validator.parsedRules :=
    [("name", [Simple {| ruleName := "required"; ruleParams := [];
                         handler := requiredRule |}]);
     ("tags.*", [Simple {| ruleName := "string"; ruleParams := [];
                           handler := stringRule |}])]
|}.

(** ** The output tree as a trie of fresh containers

    While [validate] runs over separated paths the output tree is a
    trie: its inner nodes, at the paths in [S], are containers allocated
    by [set]; its leaves, at the paths in [W], hold the values written.
    [hInit] is the store at the start of the call and the root of the
    tree is the first object allocated after it. *)

Record Trie (hInit h : heap) (S : list string -> Prop)
  (W : list string -> value -> Prop) : Prop := {
  trie_frame : forall l o, lookup hInit l = Some o -> lookup h l = Some o;
  trie_root : S [];
  trie_node : forall q, S q ->
      exists l o,
        getLoop h q (VRef (List.length hInit)) = VRef l
        /\ (List.length hInit <= l)%nat
        /\ lookup h l = Some o;
  trie_inj : forall q q', S q -> S q' ->
      getLoop h q (VRef (List.length hInit))
      = getLoop h q' (VRef (List.length hInit)) ->
      q = q';
  trie_leaf : forall p v, W p v ->
      getLoop h p (VRef (List.length hInit)) = v;
  trie_keys : forall q l o s, S q ->
      getLoop h q (VRef (List.length hInit)) = VRef l ->
      lookup h l = Some o -> s <> "length" -> objectHas o s = true ->
      S (q ++ [s])%list \/ exists v, W (q ++ [s])%list v;
  trie_inner : forall q s, S (q ++ [s])%list -> S q;
  trie_parent : forall q s v, W (q ++ [s])%list v -> S q;
  trie_leaf_path : forall v, ~ W [] v;
  trie_S_noLength : forall q, S q -> noLength q;
  trie_W_noLength : forall p v, W p v -> noLength p
}.

(** [h2] is [h] with the object at [lq] replaced by [o'], and possibly
    with new objects. *)
Definition modifiedAt (h h2 : heap) (lq : loc) (o' : object) : Prop :=
  lookup h2 lq = Some o'
  /\ forall l o1, l <> lq -> lookup h l = Some o1 -> lookup h2 l = Some o1.

(** The leaves that a list of written fields puts into the trie. *)
Definition leavesOf (E : list (string * value)) (x : list string) (w : value)
  : Prop :=
  exists f, In (f, w) E /\ x = segments f.

(** Every inner node lies on the way to a leaf. *)
Definition spine (S : list string -> Prop)
  (W : list string -> value -> Prop) : Prop :=
  forall x, S x ->
    x = [] \/ exists p v k r, W p v /\ p = (x ++ k :: r)%list.

(** Tactics for separation of concrete paths. *)
Ltac not_prefix :=
  let r := fresh "r" in
  let Hr := fresh "Hr" in
  intros [r Hr]; vm_compute in Hr; discriminate Hr.

Ltac no_length :=
  let H := fresh "H" in
  vm_compute; intros H;
  repeat (destruct H as [H | H]; [discriminate H |]); exact H.

Ltac all_unrelated :=
  let f := fresh "f" in
  let v := fresh "v" in
  let Hin := fresh "Hin" in
  intros f v Hin; simpl in Hin;
  repeat (destruct Hin as [Hin | Hin];
          [inversion Hin; subst; split; not_prefix |]);
  contradiction.

(** ** Vocabulary of the further properties *)

(** The record [{"a.b": {c: 1}, a: {"b.c": 2}}]: two ways to the path
    [a.b.c]. *)
Definition dottedKeysRecord : tree :=
  TObj [("a.b", TObj [("c", num 1)]); ("a", TObj [("b.c", num 2)])].

(** The segments of a path, each behind its dot. *)
Fixpoint dotted (parts : list string) : string :=
  match parts with
  | [] => EmptyString
  | part :: rest => "." ++ part ++ dotted rest
  end.

(** A container as [set] has it when it first writes the key [s]: the
    empty object, or the empty array that a key of digits calls for. *)
Definition emptyFor (o : object) (s : string) : Prop :=
  o = Obj [] \/ (o = Arr [] [] /\ allDigits s = true).

(** Whether a stored object is an array. *)
Definition isArr (o : object) : bool :=
  match o with Arr _ _ => true | Obj _ => false end.

(** [cs.every(f)] and [cs.some(f)] when [f] can throw: the conditions are
    taken in order, up to the first that decides or throws. *)
Fixpoint everyM (f : tree -> Completion bool) (cs : list tree)
  : Completion bool :=
  match cs with
  | [] => Normal true
  | c :: cs' => bind (f c) (fun b => if b then everyM f cs' else Normal false)
  end.

Fixpoint someM (f : tree -> Completion bool) (cs : list tree)
  : Completion bool :=
  match cs with
  | [] => Normal false
  | c :: cs' => bind (f c) (fun b => if b then Normal true else someM f cs')
  end.

(** The operators that call [includes] on the expected value, and the
    expected values that have the method. *)
Definition membershipOp (op : tree) : bool :=
  isStr "in" op || isStr "not_in" op.

Definition hasIncludes (expected : tree) : bool :=
  match expected with
  | TArr _ | TPrim (PStr _) => true
  | _ => false
  end.

(** The conditions of the shapes that [types.ts] declares, [@matches]
    apart: a compound of such conditions; a self condition; a field
    condition on a path that does not start with [@] and is not [and] or
    [or], whose membership operators come with a list (or a string). *)
Fixpoint plainCondition (c : tree) : bool :=
  match c with
  | TArr (TPrim (PStr s) :: rest) =>
      if (s =? "and") || (s =? "or") then
        (fix all (cs : list tree) : bool :=
           match cs with
           | [] => true
           | c' :: cs' => plainCondition c' && all cs'
           end) rest
      else if startsWith "@" s then negb (s =? "@matches")
      else if membershipOp (item 0 rest) then hasIncludes (item 1 rest)
      else true
  | _ => false
  end.

(** Parsed items all of whose conditions are plain, and rule maps of
    such items. *)
Definition plainItems (items : list ParsedRuleItem) : Prop :=
  Forall (fun it => match it with
                    | Conditional c => plainCondition (condition c) = true
                    | Simple _ => True
                    end) items.

Definition plainRules (parsed : ParsedRules) : Prop :=
  Forall (fun fieldRules => plainItems (snd fieldRules)) parsed.

(** The subjects of the self conditions, the operators of the field
    conditions and the names that [typeof] and [@type] know. *)
Definition selfSubjects : list string :=
  ["@empty"; "@filled"; "@length"; "@value"; "@type"; "@matches"].

Definition fieldOperators : list string :=
  ["filled"; "empty"; "in"; "not_in"; "="; "!="; ">"; ">="; "<"; "<="].

Definition typeNames : list string :=
  ["array"; "undefined"; "object"; "boolean"; "number"; "string"].

Definition known (names : list string) (s : string) : bool :=
  existsb (String.eqb s) names.

(** A raw entry that names the rule [nullable]: the string, or an array
    headed by it. *)
Definition nullableEntry (raw : tree) : bool :=
  match raw with
  | TPrim (PStr s) => s =? "nullable"
  | TArr (TPrim (PStr s) :: _) => s =? "nullable"
  | _ => false
  end.

(** A field of the specification and the entry that [parseRules] makes
    of it. *)
Definition parsedField (registry : Registry) (raw : string * tree)
  (p : string * list ParsedRuleItem) : Prop :=
  fst raw = fst p /\ parseFieldRules registry (snd raw) = Normal (snd p).

(** The four presence rules of [rules/presence.ts]. *)
Definition presenceRule (n : string) : bool :=
  (n =? "required") || (n =? "nullable") || (n =? "filled")
  || (n =? "present").

(** The parsed form of a rule with handler [hd] and parameters [ps]. *)
Definition ruleOf (hd : RuleHandler) (ps : RuleParams) : ParsedRule :=
  {| ruleName := name hd; ruleParams := ps; handler := hd |}.

(** An item that ends the walk of [validateField]: a simple rule that
    bails and reports an error. *)
Definition stops (h : heap) (field : string) (v data : value)
  (it : ParsedRuleItem) : bool :=
  match it with
  | Simple r =>
      Validator.bails r
      && isSome (Validator.validateSimpleRule h field v data r)
  | Conditional _ => false
  end.

(** No string occurs twice. *)
Fixpoint distinct (l : list string) : bool :=
  match l with
  | [] => true
  | x :: rest => negb (existsb (String.eqb x) rest) && distinct rest
  end.

(** The rounds of the loop are injective on the states 1..10 and on the
    digits, and so is the control digit on the states: checked on the
    whole table. *)
Definition oibStates : list nat := seq 1 10.
Definition oibDigits : list nat := seq 0 10.

Definition oibTable : bool :=
  forallb (fun d =>
    forallb (fun t =>
      existsb (Nat.eqb (oibStep t d)) oibStates
      && forallb (fun t' =>
           implb (oibStep t d =? oibStep t' d)%nat (t =? t')%nat) oibStates
      && forallb (fun d' =>
           implb (oibStep t d =? oibStep t d')%nat (d =? d')%nat) oibDigits
      && forallb (fun t' =>
           implb ((11 - t) mod 10 =? (11 - t') mod 10)%nat (t =? t')%nat)
           oibStates)
      oibStates)
    oibDigits.

(** Whether a handler's outcome is an error. *)
Definition reports (c : Completion (option ValidationError))
  : Completion bool :=
  bind c (fun e => Normal (isSome e)).

(** The rules of the branch that a condition's outcome selects. *)
Definition selectedBranch (c : ParsedConditionalRule) (conditionMet : bool)
  : list ParsedRule :=
  if conditionMet then thenRules c
  else match elseRules c with Some es => es | None => [] end.

(** A segment or key without a dot. *)
Definition noDot (s : string) : Prop := includesChar "." s = false.

(** A store in which the keys of every object are distinct, as the
    language keeps them, and free of dots, so that no key reads as a
    path; and in which every array is within the length limit of the
    language, 2^32 - 1. *)
Definition wellKeyed (h : heap) : Prop :=
  forall l o, lookup h l = Some o ->
    match o with
    | Obj props =>
        NoDup (map fst props) /\ Forall (fun kv => noDot (fst kv)) props
    | Arr elems _ => (Z.of_nat (List.length elems) <= 4294967295)%Z
    end.

(** The six comparison operators on two natural numbers. *)
Definition lengthOutcome (op : string) (len n : nat) : bool :=
  if op =? "=" then (len =? n)%nat
  else if op =? "!=" then negb (len =? n)%nat
  else if op =? ">" then (n <? len)%nat
  else if op =? ">=" then (n <=? len)%nat
  else if op =? "<" then (len <? n)%nat
  else if op =? "<=" then (len <=? n)%nat
  else false.

(* ================================================================== *)
(** * Properties *)

(** ** The emptiness predicate *)

Lemma isEmpty_true_inv h v :
  isEmpty h v = true ->
  v = null \/ v = undefined \/
  (exists s, v = VPrim (PStr s) /\ trim s = EmptyString) \/
  (exists l named, v = VRef l /\ lookup h l = Some (Arr [] named)).
Proof.
  destruct v as [p | l]; simpl.
  - destruct p; try discriminate; auto.
    intros H. apply String.eqb_eq in H. right; right; left. eauto.
  - destruct (lookup h l) as [[props | elems named] |] eqn:E; try discriminate.
    destruct elems; try discriminate.
    intros _. right; right; right. eauto.
Qed.

Lemma isEmpty_true_intro h v :
  v = null \/ v = undefined \/
  (exists s, v = VPrim (PStr s) /\ trim s = EmptyString) \/
  (exists l named, v = VRef l /\ lookup h l = Some (Arr [] named)) ->
  isEmpty h v = true.
Proof.
  intros [-> | [-> | [(s & -> & Hs) | (l & named & -> & Hl)]]]; simpl; auto.
  - rewrite Hs. reflexivity.
  - rewrite Hl. reflexivity.
Qed.

(** C4.  [isEmpty] holds exactly for [null], [undefined], strings that
    trim to the empty string (the empty string among them) and arrays of
    length zero; it fails for [0], [false] and the empty object; and it is
    the predicate consulted by the nullable short-circuit, by the
    skip-if-empty policy and by the conditions [@empty], [@filled],
    [empty], [filled]. *)
Theorem isEmpty_canonical :
  (forall h v,
      isEmpty h v = true <->
      (v = null \/ v = undefined \/
       (exists s, v = VPrim (PStr s) /\ trim s = EmptyString) \/
       (exists l named, v = VRef l /\ lookup h l = Some (Arr [] named))))
  /\ (forall h, isEmpty h (VPrim (PStr "")) = true
             /\ isEmpty h (VPrim (PStr "   ")) = true
             /\ isEmpty h (VPrim (PNum (ofZ 0))) = false
             /\ isEmpty h (VPrim (PBool false)) = false)
  /\ (forall h l, lookup h l = Some (Obj []) -> isEmpty h (VRef l) = false)
  /\ (forall host h field v data items,
        hasNullableRule items = true ->
        Validator.validateField host h field v data items =
        if isEmpty h v then Normal []
        else Validator.validateItems host h field v data items)
  /\ (forall h field v data rule,
        skipIfEmpty (handler rule) <> Some false ->
        Validator.validateSimpleRule h field v data rule =
        if isEmpty h v then None
        else validate (handler rule) h v (ruleParams rule) data field)
  /\ (forall host h v data rest,
        evaluateCondition host h (TArr (str "@empty" :: rest)) v data =
        Normal (isEmpty h v)
        /\ evaluateCondition host h (TArr (str "@filled" :: rest)) v data =
           Normal (negb (isEmpty h v)))
  /\ (forall host h v data field rest,
        startsWith "@" field = false ->
        field <> "and" -> field <> "or" ->
        evaluateCondition host h (TArr (str field :: str "empty" :: rest)) v data =
        Normal (isEmpty h (get h data field))
        /\ evaluateCondition host h (TArr (str field :: str "filled" :: rest)) v data =
           Normal (negb (isEmpty h (get h data field)))).
Proof.
  split; [| split; [| split; [| split; [| split; [| split]]]]].
  - intros h v. split; [apply isEmpty_true_inv | apply isEmpty_true_intro].
  - intros h. repeat split; reflexivity.
  - intros h l H. simpl. rewrite H. reflexivity.
  - intros host h field v data items H.
    unfold Validator.validateField. rewrite H. reflexivity.
  - intros h field v data rule H.
    unfold Validator.validateSimpleRule.
    destruct (skipIfEmpty (handler rule)) as [[|] |]; try reflexivity.
    congruence.
  - intros host h v data rest. split; reflexivity.
  - intros host h v data field rest Hat Hand Hor.
    apply String.eqb_neq in Hand, Hor.
    assert (Hd : forall op,
               evaluateCondition host h (TArr (str field :: str op :: rest)) v data
               = evaluateFieldCondition h (str field :: str op :: rest) data).
    { intros op. simpl. rewrite Hand, Hor.
      unfold evaluateSimpleCondition. simpl. rewrite Hat. reflexivity. }
    rewrite !Hd. split; reflexivity.
Qed.

(** The characterisation at concrete values: an array without elements is
    empty, an object without properties is not. *)
Lemma isEmpty_canonical_witness :
  isEmpty [Arr [] []] (VRef 0) = true /\ isEmpty [Obj []] (VRef 0) = false.
Proof.
  destruct isEmpty_canonical as (Hiff & _ & Hobj & _).
  split.
  - apply Hiff. right; right; right. exists 0%nat, []. split; reflexivity.
  - apply Hobj. reflexivity.
Defined.

(** ** Bail-on-failure and the nullable modifier *)

Section Policy.

Variable host : Host.
Variable h : heap.
Variable field : string.
Variable v data : value.

Lemma applyRules_bail pre r rest e :
  Validator.validateSimpleRule h field v data r = Some e ->
  Validator.bails r = true ->
  Validator.applyRules h field v data (pre ++ r :: rest) =
  Validator.applyRules h field v data (pre ++ [r]).
Proof.
  intros He Hb. induction pre as [| a pre IH]; simpl.
  - rewrite He, Hb. reflexivity.
  - rewrite IH. reflexivity.
Qed.

Lemma validateItems_bail pre r rest e :
  Validator.validateSimpleRule h field v data r = Some e ->
  Validator.bails r = true ->
  Validator.validateItems host h field v data (pre ++ Simple r :: rest) =
  Validator.validateItems host h field v data (pre ++ [Simple r]).
Proof.
  intros He Hb. induction pre as [| a pre IH]; simpl.
  - rewrite He, Hb. reflexivity.
  - destruct a as [a | a]; rewrite IH; reflexivity.
Qed.

Lemma validateItems_conditional c rest errs more :
  Validator.validateConditionalRule host h field v data c = Normal errs ->
  Validator.validateItems host h field v data rest = Normal more ->
  Validator.validateItems host h field v data (Conditional c :: rest) =
  Normal (errs ++ more)%list.
Proof. intros Hc Hr. simpl. rewrite Hc. simpl. rewrite Hr. reflexivity. Qed.

Lemma validateConditionalRule_then c :
  evaluateCondition host h (condition c) v data = Normal true ->
  Validator.validateConditionalRule host h field v data c =
  Normal (Validator.applyRules h field v data (thenRules c)).
Proof.
  intros Hc. unfold Validator.validateConditionalRule. rewrite Hc. reflexivity.
Qed.

Lemma validateConditionalRule_else c rs :
  evaluateCondition host h (condition c) v data = Normal false ->
  elseRules c = Some rs ->
  Validator.validateConditionalRule host h field v data c =
  Normal (Validator.applyRules h field v data rs).
Proof.
  intros Hc He. unfold Validator.validateConditionalRule.
  rewrite Hc. simpl. rewrite He. reflexivity.
Qed.

End Policy.

(** C2.  When a rule whose handler bails produces an error, the rest of
    the list being executed has no effect: at top level the remaining
    items are skipped; inside the selected branch of a conditional the
    remaining branch rules are skipped and the field's following
    top-level items still run.  For [[required, string, ["min", 5]]] and
    [{field: ""}] the only error is [validation.required], whatever the
    host's leaf rules are. *)
Theorem bail_on_failure :
  (forall host h field v data pre r rest e,
      Validator.validateSimpleRule h field v data r = Some e ->
      Validator.bails r = true ->
      Validator.validateItems host h field v data (pre ++ Simple r :: rest) =
      Validator.validateItems host h field v data (pre ++ [Simple r])
      /\ Validator.validateItems host h field v data (Simple r :: rest) =
         Normal [e])
  /\ (forall host h field v data c pre r tail rest e more,
        Validator.validateSimpleRule h field v data r = Some e ->
        Validator.bails r = true ->
        (evaluateCondition host h (condition c) v data = Normal true
         /\ thenRules c = (pre ++ r :: tail)%list
         \/ evaluateCondition host h (condition c) v data = Normal false
            /\ elseRules c = Some (pre ++ r :: tail)%list) ->
        Validator.validateItems host h field v data rest = Normal more ->
        Validator.validateItems host h field v data (Conditional c :: rest) =
        Normal (Validator.applyRules h field v data (pre ++ [r]) ++ more)%list)
  /\ (forall host,
        let '(d, h) := store (TObj [("field", str "")]) [] in
        exists r h',
          Validator.make host (ruleRegistry host) h d bailRules = (Normal r, h')
          /\ valid r = false
          /\ errors r =
             [("field", [fieldError "validation.required" "field"])]).
Proof.
  split; [| split].
  - intros host h field v data pre r rest e He Hb. split.
    + eapply validateItems_bail; eauto.
    + simpl. rewrite He, Hb. reflexivity.
  - intros host h field v data c pre r tail rest e more He Hb Hsel Hrest.
    apply validateItems_conditional; auto.
    destruct Hsel as [[Hc Ht] | [Hc Hel]].
    + rewrite (validateConditionalRule_then _ _ _ _ _ _ Hc), Ht.
      f_equal. eapply applyRules_bail; eauto.
    + rewrite (validateConditionalRule_else _ _ _ _ _ _ _ Hc Hel).
      f_equal. eapply applyRules_bail; eauto.
  - intros host. vm_compute. eexists _, _. split; [reflexivity |].
    split; reflexivity.
Qed.

(** The top-level case at [required] on an empty string, followed by the
    handlers [string] and [integer]. *)
Lemma bail_on_failure_witness :
  Validator.validateItems bareHost [] "field" (VPrim (PStr "")) undefined
    [Simple {| ruleName := "required"; ruleParams := [];
               handler := requiredRule |};
     Simple {| ruleName := "string"; ruleParams := [];
               handler := stringRule |};
     Simple {| ruleName := "integer"; ruleParams := [];
               handler := integerRule |}] =
  Normal [fieldError "validation.required" "field"].
Proof.
  apply (proj1 bail_on_failure bareHost [] "field" (VPrim (PStr "")) undefined
           [] _ _ (fieldError "validation.required" "field"));
    reflexivity.
Defined.

(** C3.  A rule list that contains [nullable] yields no error for an
    empty value, whatever else the list holds, and the handler of
    [nullable] never reports an error; for a value that is not empty the
    list is walked as usual.  With [[nullable, integer]]: [null] and
    [undefined] are valid, ["x"] fails with [validation.integer], [5] is
    valid. *)
Theorem nullable_short_circuit :
  (forall host h field v data items,
      hasNullableRule items = true ->
      isEmpty h v = true ->
      Validator.validateField host h field v data items = Normal [])
  /\ (forall h v ps data field, validate nullableRule h v ps data field = None)
  /\ (forall host h field v data items,
        isEmpty h v = false ->
        Validator.validateField host h field v data items =
        Validator.validateItems host h field v data items)
  /\ (forall host,
        verdict host nullableRules (TObj [("field", TPrim PNull)]) =
        Normal (true, [])
        /\ verdict host nullableRules (TObj [("field", TPrim PUndefined)]) =
           Normal (true, [])
        /\ verdict host nullableRules (TObj [("field", str "x")]) =
           Normal (false, [("field", [fieldError "validation.integer" "field"])])
        /\ verdict host nullableRules (TObj [("field", num 5)]) =
           Normal (true, [])).
Proof.
  split; [| split; [| split]].
  - intros host h field v data items Hn He.
    unfold Validator.validateField. rewrite Hn, He. reflexivity.
  - reflexivity.
  - intros host h field v data items He.
    unfold Validator.validateField. rewrite He, andb_false_r. reflexivity.
  - intros host. repeat split; vm_compute; reflexivity.
Qed.

(** An empty array under [[nullable, required]]: [required] alone would
    report an error, the modifier suppresses it. *)
Lemma nullable_short_circuit_witness :
  Validator.validateField bareHost [Arr [] []] "field" (VRef 0) undefined
    [Simple {| ruleName := "nullable"; ruleParams := [];
               handler := nullableRule |};
     Simple {| ruleName := "required"; ruleParams := [];
               handler := requiredRule |}] = Normal [].
Proof.
  apply (proj1 nullable_short_circuit); reflexivity.
Defined.

(** ** Wildcard expansion *)

Lemma enter_app xs ys result :
  enter (xs ++ ys) result = enter ys (enter xs result).
Proof. unfold enter. apply fold_left_app. Qed.

Lemma fold_left_enter {A} (f : A -> list (string * value))
  (g : list (string * value) -> A -> list (string * value)) (xs : list A) :
  (forall x result, In x xs -> g result x = enter (f x) result) ->
  forall result, fold_left g xs result = enter (flat_map f xs) result.
Proof.
  induction xs as [| x xs IH]; intros Hg result; simpl.
  - reflexivity.
  - rewrite enter_app, Hg by (left; reflexivity).
    apply IH. intros y r Hy. apply Hg. right. exact Hy.
Qed.

Lemma expandRecursive_expansion h parts :
  forall current path result,
    expandRecursive h parts current path result =
    enter (expansion h parts current path) result.
Proof.
  induction parts as [| part rest IH]; intros current path result; simpl.
  - reflexivity.
  - destruct (part =? "*").
    + destruct current as [p | l]; [reflexivity |].
      destruct (lookup h l) as [[props | elems named] |]; [| | reflexivity].
      * apply fold_left_enter. intros [key x] r _. apply IH.
      * apply fold_left_enter. intros [i x] r _. apply IH.
    + apply IH.
Qed.

Lemma indexedFrom_dense vs : forall i,
  indexedFrom i (map Some vs) = combine (seq i (List.length vs)) vs.
Proof.
  induction vs as [| x vs IH]; intros i; simpl.
  - reflexivity.
  - rewrite IH. reflexivity.
Qed.

Lemma ownSet_new_plain {A} key (x : A) ps :
  assoc key ps = None -> arrayIndex key = None ->
  ownSet key x ps = (ps ++ [(key, x)])%list.
Proof. intros Ha Hi. unfold ownSet. rewrite Ha, Hi. reflexivity. Qed.

Lemma ownSet_existing {A} key (x : A) ps :
  isSome (assoc key ps) = true -> map fst (ownSet key x ps) = map fst ps.
Proof.
  intros Ha. unfold ownSet. rewrite Ha. clear Ha.
  induction ps as [| [k y] ps IH]; simpl; [reflexivity |].
  destruct (k =? key) eqn:Hk; simpl; [reflexivity | rewrite IH; reflexivity].
Qed.

Lemma insertIndexProp_place {A} i key (x : A) ps :
  exists before after,
    ps = (before ++ after)%list
    /\ insertIndexProp i key x ps = (before ++ (key, x) :: after)%list
    /\ Forall (fun kx => exists j, arrayIndex (fst kx) = Some j /\ (j < i)%nat)
         before
    /\ match after with
       | [] => True
       | (k, _) :: _ => forall j, arrayIndex k = Some j -> (i <= j)%nat
       end.
Proof.
  induction ps as [| [k y] ps IH]; simpl.
  - exists [], []. repeat split. constructor.
  - destruct (arrayIndex k) as [j |] eqn:Hj.
    + destruct (j <? i)%nat eqn:Hlt.
      * destruct IH as (before & after & Hps & Hins & Hb & Ha).
        exists ((k, y) :: before), after. simpl. rewrite Hins.
        split; [f_equal; exact Hps |]. split; [reflexivity |].
        split; [| exact Ha]. constructor; [| exact Hb].
        exists j. simpl. split; [exact Hj |]. apply Nat.ltb_lt. exact Hlt.
      * exists [], ((k, y) :: ps). repeat split; [constructor |].
        intros j' Hj'. rewrite Hj in Hj'. inversion Hj'; subst.
        apply Nat.ltb_ge. exact Hlt.
    + exists [], ((k, y) :: ps). repeat split; [constructor |].
      intros j' Hj'. rewrite Hj in Hj'. discriminate.
Qed.

(** C5 as stated fails for keyed containers: the entries of an object are
    not taken in insertion order when a key is an array index.  For
    [{scores: {b: 1, "10": 2, "9": 3}}] the pattern [scores.*] yields
    [scores.9], [scores.10], [scores.b]. *)
Lemma insertion_order_counterexample :
  expandLiteral "scores.*" scoresRecord =
  [("scores.9", VPrim (PNum (ofZ 3))); ("scores.10", VPrim (PNum (ofZ 2)));
   ("scores.b", VPrim (PNum (ofZ 1)))].
Proof. vm_compute. reflexivity. Qed.

(** C5, amended.  [expandWildcards] is a function of the pattern and the
    record and enters into its result map, in order, the pairs of the
    ordered expansion: wildcard over an array in ascending index order,
    over an object in the order in which the language enumerates its own
    properties, the index or key appended to the path; a pattern without
    wildcard gives the single pair of the pattern and [get].  The order
    of an object's properties is insertion order for keys that are not
    array indices; a new key that is an array index is placed among the
    index keys, in ascending order, before all other keys; a key written
    again keeps its place.  For [items.*.name] over
    [{items: [{name: "a"}, {name: "b"}]}] the result is
    [("items.0.name", "a")] then [("items.1.name", "b")]; over
    [{items: []}] and over a record without [items] it is empty. *)
Theorem expandWildcards_ordered :
  (forall h pattern data,
      expandWildcards h pattern data =
      if isWildcardPattern pattern
      then enter (expansion h (split "." pattern) data EmptyString) []
      else [(pattern, get h data pattern)])
  /\ (forall h rest l vs named path,
        lookup h l = Some (Arr (map Some vs) named) ->
        expansion h ("*" :: rest) (VRef l) path =
        flat_map (fun '(i, item) =>
                    expansion h rest item (path ++ "." ++ natToString i))
                 (combine (seq 0 (List.length vs)) vs))
  /\ (forall h rest l props path,
        lookup h l = Some (Obj props) ->
        expansion h ("*" :: rest) (VRef l) path =
        flat_map (fun '(key, x) => expansion h rest x (path ++ "." ++ key))
                 props)
  /\ (forall h rest p path, expansion h ("*" :: rest) (VPrim p) path = [])
  /\ (forall key (x : value) props,
        assoc key props = None -> arrayIndex key = None ->
        ownSet key x props = (props ++ [(key, x)])%list)
  /\ (forall key (x : value) props i,
        assoc key props = None -> arrayIndex key = Some i ->
        exists before after,
          props = (before ++ after)%list
          /\ ownSet key x props = (before ++ (key, x) :: after)%list
          /\ Forall (fun kx => exists j, arrayIndex (fst kx) = Some j
                                         /\ (j < i)%nat) before
          /\ match after with
             | [] => True
             | (k, _) :: _ => forall j, arrayIndex k = Some j -> (i <= j)%nat
             end)
  /\ (forall key (x : value) props,
        isSome (assoc key props) = true ->
        map fst (ownSet key x props) = map fst props)
  /\ expandLiteral "items.*.name" itemsRecord =
     [("items.0.name", VPrim (PStr "a")); ("items.1.name", VPrim (PStr "b"))]
  /\ expandLiteral "items.*.name" (TObj [("items", TArr [])]) = []
  /\ expandLiteral "items.*.name" (TObj []) = [].
Proof.
  split; [| split; [| split; [| split; [| split; [| split; [| split;
    [| split; [| split]]]]]]]].
  - intros h pattern data. unfold expandWildcards, isWildcardPattern.
    destruct (includesChar "*" pattern); simpl.
    + apply expandRecursive_expansion.
    + reflexivity.
  - intros h rest l vs named path Hl. simpl. rewrite Hl.
    unfold indexed. rewrite indexedFrom_dense. reflexivity.
  - intros h rest l props path Hl. simpl. rewrite Hl. reflexivity.
  - reflexivity.
  - intros key x props. apply ownSet_new_plain.
  - intros key x props i Ha Hi. unfold ownSet. rewrite Ha, Hi. simpl.
    apply insertIndexProp_place.
  - intros key x props. apply ownSet_existing.
  - vm_compute. reflexivity.
  - vm_compute. reflexivity.
  - vm_compute. reflexivity.
Qed.

(** The array case at a stored array of two strings. *)
Lemma expandWildcards_ordered_witness :
  expansion [Arr [Some (VPrim (PStr "x")); Some (VPrim (PStr "y"))] []]
    ["*"] (VRef 0) ".tags" =
  [("tags.0", VPrim (PStr "x")); ("tags.1", VPrim (PStr "y"))].
Proof.
  rewrite (proj1 (proj2 expandWildcards_ordered) _ [] 0%nat
             [VPrim (PStr "x"); VPrim (PStr "y")] [] ".tags");
    reflexivity.
Defined.

(** ** Ordering comparators in field conditions *)

Lemma ordering_dispatch host h cur data field op expected rest :
  startsWith "@" field = false -> field <> "and" -> field <> "or" ->
  evaluateCondition host h (TArr (str field :: str op :: expected :: rest))
    cur data =
  evaluateFieldCondition h (str field :: str op :: expected :: rest) data.
Proof.
  intros Hat Hand Hor. apply String.eqb_neq in Hand, Hor.
  simpl. rewrite Hand, Hor. unfold evaluateSimpleCondition. simpl.
  rewrite Hat. reflexivity.
Qed.

Lemma numLt_NaN_l y : numLt NaN y = None.
Proof. destruct y; reflexivity. Qed.

Lemma numLt_NaN_r x : numLt x NaN = None.
Proof. destruct x; reflexivity. Qed.

Lemma primLt_NaN x y :
  (forall s t, ~ (x = PStr s /\ y = PStr t)) ->
  primToNumber x = NaN \/ primToNumber y = NaN ->
  primLt x y = None.
Proof.
  intros Hns Hnan.
  assert (E : primLt x y = numLt (primToNumber x) (primToNumber y)).
  { destruct x; try reflexivity. destruct y; try reflexivity.
    exfalso. eapply Hns; eauto. }
  rewrite E. destruct Hnan as [-> | ->].
  - apply numLt_NaN_l.
  - apply numLt_NaN_r.
Qed.




(** ** Construction errors *)

Lemma mapM_throws {A B} (f : A -> Completion B) xs x e :
  In x xs -> f x = Throw e -> exists e', mapM f xs = Throw e'.
Proof.
  induction xs as [| y xs IH]; intros Hin Hx; [contradiction |].
  simpl. destruct Hin as [-> | Hin].
  - rewrite Hx. eexists. reflexivity.
  - destruct (f y); simpl; [| eexists; reflexivity].
    destruct (IH Hin Hx) as [e' ->]. eexists. reflexivity.
Qed.

Lemma mapM_first_throw {A B} (f : A -> Completion B) pre x post e :
  (forall y, In y pre -> exists b, f y = Normal b) ->
  f x = Throw e ->
  mapM f (pre ++ x :: post) = Throw e.
Proof.
  induction pre as [| y pre IH]; intros Hpre Hx; simpl.
  - rewrite Hx. reflexivity.
  - destruct (Hpre y (or_introl eq_refl)) as [b ->]. simpl.
    rewrite IH; auto. intros z Hz. apply Hpre. right. exact Hz.
Qed.

Lemma Qcompare_inject_Z a b :
  Qcompare (inject_Z a) (inject_Z b) = Z.compare a b.
Proof. unfold Qcompare. simpl. rewrite !Z.mul_1_r. reflexivity. Qed.

Lemma length_exceeds (n m : nat) :
  greaterThan (PNum (ofNat n)) (PNum (ofNat m)) = (m <? n)%nat.
Proof.
  unfold greaterThan, lessThan, primLt, numLt, ofNat, ofZ. simpl.
  rewrite Qcompare_inject_Z.
  destruct (Z.compare_spec (Z.of_nat m) (Z.of_nat n)) as [H | H | H];
    symmetry.
  - apply Nat.ltb_ge. lia.
  - apply Nat.ltb_lt. lia.
  - apply Nat.ltb_ge. lia.
Qed.

Lemma validateRuleName_string s :
  validateRuleName (str s) =
  if (MAX_LENGTH <? String.length s)%nat then
    Throw (InvalidRuleNameException (str s)
             "Rule name exceeds maximum length of 1024")
  else if negb (NAME_PATTERN s) then
    Throw (InvalidRuleNameException (str s)
             "Rule name must start with a lowercase letter and contain only lowercase letters, numbers, and underscores")
  else Normal tt.
Proof.
  unfold validateRuleName, lengthOf, bind, treeToPrimitive.
  rewrite length_exceeds. reflexivity.
Qed.

Lemma parseSimpleRule_named registry rule s :
  namedRule rule s ->
  parseSimpleRule registry rule =
  bind (validateRuleName (str s)) (fun _ =>
    match getRule registry (str s) with
    | None => Throw (UnknownRuleException (str s))
    | Some handler' =>
        Normal {| ruleName := s;
                  ruleParams := match rule with TArr items => tl items | _ => [] end;
                  handler := handler' |}
    end).
Proof. intros [-> | [ps ->]]; reflexivity. Qed.

Lemma parseRules_throws registry rules field fieldRules e :
  In (field, fieldRules) rules ->
  parseFieldRules registry fieldRules = Throw e ->
  exists e', parseRules registry rules = Throw e'.
Proof.
  unfold parseRules. generalize (@nil (string * list ParsedRuleItem)).
  induction rules as [| [f rs] rules IH]; intros parsed Hin He;
    [contradiction |].
  simpl. destruct Hin as [Heq | Hin].
  - inversion Heq; subst. rewrite He. eexists. reflexivity.
  - destruct (parseFieldRules registry rs); simpl; [| eexists; reflexivity].
    apply IH; assumption.
Qed.

(** A rule specification with an entry that does not parse leaves no
    [Validator]. *)
Lemma new_throws registry rules field items rule e :
  In (field, TArr items) rules ->
  In rule items ->
  parseRule registry rule = Throw e ->
  exists e', Validator.new registry rules = Throw e'.
Proof.
  intros Hf Hr He.
  destruct (mapM_throws (parseRule registry) items rule e Hr He) as [e1 H1].
  destruct (parseRules_throws registry rules field (TArr items) e1 Hf H1)
    as [e2 H2].
  exists e2. unfold Validator.new. rewrite H2. reflexivity.
Qed.




(** ** Conditionals inside conditionals *)

Lemma parseSimpleRule_when registry rule :
  whenItem rule ->
  getRule registry (str "when") = None ->
  parseSimpleRule registry rule = Throw (UnknownRuleException (str "when")).
Proof.
  intros [rest ->] Hreg.
  rewrite (parseSimpleRule_named registry _ "when")
    by (right; eexists; reflexivity).
  rewrite validateRuleName_string. cbn [bind]. simpl negb.
  change (MAX_LENGTH <? String.length "when")%nat with false.
  change (NAME_PATTERN "when") with true. cbn [negb bind].
  rewrite Hreg. reflexivity.
Qed.

Lemma mapArray_branch_throws registry branch nested :
  getRule registry (str "when") = None ->
  whenItem nested ->
  (exists items, branch = TArr items /\ In nested items) ->
  exists e, mapArray (parseSimpleRule registry) branch = Throw e.
Proof.
  intros Hreg Hn (items & -> & Hin). simpl.
  eapply mapM_throws; [exact Hin |].
  apply parseSimpleRule_when; assumption.
Qed.

Lemma parseRule_nested_throws registry rule :
  getRule registry (str "when") = None ->
  nestedConditional rule ->
  exists e, parseRule registry rule = Throw e.
Proof.
  intros Hreg (cond & thenBranch & more & nested & -> & Hn & Hbranch).
  unfold parseRule.
  change (isStr "when" (item 0 (str "when" :: cond :: thenBranch :: more)))
    with true.
  change (item 2 (str "when" :: cond :: thenBranch :: more)) with thenBranch.
  change (item 3 (str "when" :: cond :: thenBranch :: more))
    with (item 0 more).
  cbv iota.
  destruct Hbranch as [Hthen | Helse].
  - destruct (mapArray_branch_throws registry thenBranch nested Hreg Hn Hthen)
      as [e ->].
    eexists. reflexivity.
  - destruct (mapArray (parseSimpleRule registry) thenBranch);
      [| eexists; reflexivity].
    cbn [bind].
    destruct (mapArray_branch_throws registry (item 0 more) nested Hreg Hn Helse)
      as [e He].
    rewrite He. destruct Helse as (items & -> & _).
    eexists. reflexivity.
Qed.

Lemma parseRule_else_nested registry cond thenBranch thens pre nested post more :
  getRule registry (str "when") = None ->
  whenItem nested ->
  mapArray (parseSimpleRule registry) thenBranch = Normal thens ->
  (forall r, In r pre ->
     exists parsed, parseSimpleRule registry r = Normal parsed) ->
  parseRule registry
    (TArr (str "when" :: cond :: thenBranch
             :: TArr (pre ++ nested :: post) :: more)) =
  Throw (UnknownRuleException (str "when")).
Proof.
  intros Hreg Hw Hthen Hpre. unfold parseRule.
  change (isStr "when"
            (item 0 (str "when" :: cond :: thenBranch
                       :: TArr (pre ++ nested :: post) :: more)))
    with true.
  change (item 2 (str "when" :: cond :: thenBranch
                    :: TArr (pre ++ nested :: post) :: more))
    with thenBranch.
  change (item 3 (str "when" :: cond :: thenBranch
                    :: TArr (pre ++ nested :: post) :: more))
    with (TArr (pre ++ nested :: post)).
  cbv iota. rewrite Hthen. cbn [bind]. unfold mapArray.
  rewrite (mapM_first_throw (parseSimpleRule registry) pre nested post
             (UnknownRuleException (str "when")) Hpre
             (parseSimpleRule_when registry nested Hw Hreg)).
  reflexivity.
Qed.

Lemma parseRulesFrom_first_throw registry (pre : Rules) field fieldRules
  post e :
  (forall f rs, In (f, rs) pre ->
     exists items, parseFieldRules registry rs = Normal items) ->
  parseFieldRules registry fieldRules = Throw e ->
  forall parsed,
    parseRulesFrom registry (pre ++ (field, fieldRules) :: post)%list parsed
    = Throw e.
Proof.
  induction pre as [| [f rs] pre IH]; intros Hpre He parsed; simpl.
  - rewrite He. reflexivity.
  - destruct (Hpre f rs (or_introl eq_refl)) as [items ->]. cbn [bind].
    apply IH; [| exact He]. intros f' rs' Hin. eapply Hpre. right. exact Hin.
Qed.

(** The first entry that does not parse decides the exception of the
    constructor. *)
Lemma new_first_throw registry (preFields : Rules) field preItems rule
  postItems postFields e :
  (forall f rs, In (f, rs) preFields ->
     exists items, parseFieldRules registry rs = Normal items) ->
  (forall r, In r preItems -> exists it, parseRule registry r = Normal it) ->
  parseRule registry rule = Throw e ->
  Validator.new registry
    (preFields ++ (field, TArr (preItems ++ rule :: postItems)) :: postFields)%list
  = Throw e.
Proof.
  intros Hfields Hitems Hrule. unfold Validator.new, parseRules.
  rewrite (parseRulesFrom_first_throw registry preFields field
             (TArr (preItems ++ rule :: postItems)) postFields e Hfields).
  - reflexivity.
  - unfold parseFieldRules, mapArray.
    apply mapM_first_throw; assumption.
Qed.

(** C10 as stated fails: construction of a specification with a nested
    conditional can raise another error than [UnknownRuleException],
    namely that of a branch item parsed before the nested one. *)
Lemma nested_conditional_counterexample :
  Validator.new (ruleRegistry bareHost) nestedBehindBadName =
  Throw (InvalidRuleNameException (str "Bad")
           "Rule name must start with a lowercase letter and contain only lowercase letters, numbers, and underscores").
Proof. vm_compute. reflexivity. Qed.

(** C10, amended.  In a registry without a rule named ["when"], as the
    built-in registry is, a conditional item met in a branch is parsed as
    a parameterized rule named ["when"] and raises
    [UnknownRuleException]; so a specification in which a conditional's
    then or else branch holds a conditional item never yields a
    [Validator]: construction throws.  The exception is the
    [UnknownRuleException] for ["when"] when everything parsed before the
    nested item parses: the fields and items before the conditional, the
    branch items before the nested one and, for a nested item in the else
    branch, the then branch; otherwise it is the exception of the first
    entry that does not parse. *)
Theorem nested_conditional_rejected :
  (forall host, getRule (ruleRegistry host) (str "when") = None)
  /\ (forall registry,
        getRule registry (str "when") = None ->
        (forall rule, whenItem rule ->
           parseSimpleRule registry rule =
           Throw (UnknownRuleException (str "when")))
        /\ (forall rules field items rule,
              In (field, TArr items) rules -> In rule items ->
              nestedConditional rule ->
              exists e, Validator.new registry rules = Throw e)
        /\ (forall cond pre nested post more,
              whenItem nested ->
              (forall r, In r pre ->
                 exists parsed, parseSimpleRule registry r = Normal parsed) ->
              parseRule registry
                (TArr (str "when" :: cond
                         :: TArr (pre ++ nested :: post) :: more)) =
              Throw (UnknownRuleException (str "when")))
        /\ (forall cond thenBranch thens pre nested post more,
              whenItem nested ->
              mapArray (parseSimpleRule registry) thenBranch = Normal thens ->
              (forall r, In r pre ->
                 exists parsed, parseSimpleRule registry r = Normal parsed) ->
              parseRule registry
                (TArr (str "when" :: cond :: thenBranch
                         :: TArr (pre ++ nested :: post) :: more)) =
              Throw (UnknownRuleException (str "when")))
        /\ (forall (preFields : Rules) field preItems rule postItems
                   postFields e,
              (forall f rs, In (f, rs) preFields ->
                 exists items, parseFieldRules registry rs = Normal items) ->
              (forall r, In r preItems ->
                 exists it, parseRule registry r = Normal it) ->
              parseRule registry rule = Throw e ->
              Validator.new registry
                (preFields
                   ++ (field, TArr (preItems ++ rule :: postItems))
                   :: postFields)%list
              = Throw e)).
Proof.
  split.
  - intros host. vm_compute. reflexivity.
  - intros registry Hreg. split; [| split; [| split; [| split]]].
    + intros rule Hw. apply parseSimpleRule_when; assumption.
    + intros rules field items rule Hf Hr Hn.
      destruct (parseRule_nested_throws registry rule Hreg Hn) as [e He].
      eapply new_throws; eauto.
    + intros cond pre nested post more Hw Hpre.
      unfold parseRule.
      change (isStr "when"
                (item 0 (str "when" :: cond
                           :: TArr (pre ++ nested :: post) :: more)))
        with true.
      change (item 2 (str "when" :: cond
                        :: TArr (pre ++ nested :: post) :: more))
        with (TArr (pre ++ nested :: post)).
      cbv iota. unfold mapArray at 1.
      rewrite (mapM_first_throw (parseSimpleRule registry) pre nested post
                 (UnknownRuleException (str "when")) Hpre
                 (parseSimpleRule_when registry nested Hw Hreg)).
      reflexivity.
    + intros cond thenBranch thens pre nested post more Hw Hthen Hpre.
      eapply parseRule_else_nested; eauto.
    + intros preFields field preItems rule postItems postFields e.
      apply new_first_throw.
Qed.

(** The specification
    [{name: ["required"],
      vat: ["string", ["when", ["@filled"], ["required", ["when", ["@filled"], ["string"]]]]]}]
    in the built-in registry: everything before the nested conditional
    parses, and construction raises the exception for ["when"]. *)
Lemma nested_conditional_rejected_witness :
  Validator.new (ruleRegistry bareHost)
    [("name", TArr [str "required"]);
     ("vat",
      TArr [str "string";
            TArr [str "when"; TArr [str "@filled"];
                  TArr [str "required";
                        TArr [str "when"; TArr [str "@filled"];
                              TArr [str "string"]]]]])] =
  Throw (UnknownRuleException (str "when")).
Proof.
  destruct nested_conditional_rejected as [Hbuiltin Hall].
  destruct (Hall (ruleRegistry bareHost) (Hbuiltin bareHost))
    as (_ & _ & Hthen & _ & Hfirst).
  apply (Hfirst [("name", TArr [str "required"])] "vat" [str "string"] _ []
           []).
  - intros f rs [Heq | []]. inversion Heq; subst.
    eexists. vm_compute. reflexivity.
  - intros r [<- | []]. eexists. vm_compute. reflexivity.
  - apply (Hthen (TArr [str "@filled"]) [str "required"] _ [] []).
    + eexists. reflexivity.
    + intros r [<- | []]. eexists. vm_compute. reflexivity.
Defined.

(** ** The result of [validate] *)

Lemma ownSet_assoc {A} key (x : A) ps : assoc key (ownSet key x ps) = Some x.
Proof.
  unfold ownSet. destruct (isSome (assoc key ps)) eqn:Hin.
  - induction ps as [| [k y] ps IH]; simpl in *; [discriminate |].
    destruct (k =? key) eqn:Hk; simpl; rewrite Hk; auto.
  - destruct (arrayIndex key) as [i |].
    + induction ps as [| [k y] ps IH]; simpl in *.
      * rewrite String.eqb_refl. reflexivity.
      * destruct (k =? key) eqn:Hk; [discriminate |].
        destruct (arrayIndex k) as [j |].
        -- destruct (j <? i)%nat; simpl.
           ++ rewrite Hk. auto.
           ++ rewrite String.eqb_refl. reflexivity.
        -- simpl. rewrite String.eqb_refl. reflexivity.
    + induction ps as [| [k y] ps IH]; simpl in *.
      * rewrite String.eqb_refl. reflexivity.
      * destruct (k =? key) eqn:Hk; [discriminate | auto].
Qed.

Lemma ownSet_nonempty {A} key (x : A) ps : ownSet key x ps <> [].
Proof.
  intros H. pose proof (ownSet_assoc key x ps) as Ha.
  rewrite H in Ha. discriminate.
Qed.

Section Run.

Variable host : Host.
Variables data out : value.

(** An entry either has errors, which are entered under its path while
    the store stays as it is, or has none, and then [set] writes its
    value into the output tree. *)
Lemma validateEntry_cases fieldRules errs h field v errs' h' :
  Validator.validateEntry host data out fieldRules errs h field v
  = (Normal errs', h') ->
  (exists fieldErrors,
      Validator.validateField host h field v data fieldRules
      = Normal fieldErrors
      /\ fieldErrors <> [] /\ errs' = ownSet field fieldErrors errs /\ h' = h)
  \/ (Validator.validateField host h field v data fieldRules = Normal []
      /\ errs' = errs /\ set h out field v = (Normal tt, h')).
Proof.
  unfold Validator.validateEntry.
  destruct (Validator.validateField host h field v data fieldRules)
    as [fieldErrors | e]; [| discriminate].
  destruct fieldErrors as [| e0 more]; simpl.
  - destruct (set h out field v) as [[[] | e] h1] eqn:Hset; [| discriminate].
    intros H. inversion H; subst. right. auto.
  - intros H. inversion H; subst. left.
    exists (e0 :: more). repeat split. discriminate.
Qed.

Lemma validateEntry_keeps_errors fieldRules errs h field v errs' h' :
  Validator.validateEntry host data out fieldRules errs h field v
  = (Normal errs', h') ->
  errs <> [] -> errs' <> [].
Proof.
  intros H Hne.
  destruct (validateEntry_cases _ _ _ _ _ _ _ H)
    as [(fe & _ & _ & -> & _) | (_ & -> & _)].
  - apply ownSet_nonempty.
  - exact Hne.
Qed.

Lemma validateEntries_keeps_errors fieldRules entries :
  forall errs h errs' h',
    Validator.validateEntries host data out fieldRules entries errs h
    = (Normal errs', h') ->
    errs <> [] -> errs' <> [].
Proof.
  induction entries as [| [field v] entries IH]; intros errs h errs' h'; simpl.
  - intros H. inversion H; subst. auto.
  - destruct (Validator.validateEntry host data out fieldRules errs h field v)
      as [[errs1 | e] h1] eqn:He; [| discriminate].
    intros H Hne. eapply IH; [exact H |].
    eapply validateEntry_keeps_errors; eauto.
Qed.

Lemma validatePatterns_keeps_errors parsed :
  forall errs h errs' h',
    Validator.validatePatterns host data out parsed errs h
    = (Normal errs', h') ->
    errs <> [] -> errs' <> [].
Proof.
  induction parsed as [| [pattern fieldRules] parsed IH];
    intros errs h errs' h'; simpl.
  - intros H. inversion H; subst. auto.
  - destruct (Validator.validateEntries host data out fieldRules
                (Validator.addressed h data pattern) errs h)
      as [[errs1 | e] h1] eqn:He; [| discriminate].
    intros H Hne. eapply IH; [exact H |].
    eapply validateEntries_keeps_errors; eauto.
Qed.

End Run.

(** *** The store under [set] *)

Lemma lookup_lt h l o : lookup h l = Some o -> (l < List.length h)%nat.
Proof.
  unfold lookup. intros H. apply nth_error_Some. congruence.
Qed.

Lemma update_length l o h : List.length (update l o h) = List.length h.
Proof.
  revert l. induction h as [| x h IH]; intros [| l]; simpl; auto.
Qed.

Lemma lookup_update_same l o h :
  (l < List.length h)%nat -> lookup (update l o h) l = Some o.
Proof.
  unfold lookup. revert l.
  induction h as [| x h IH]; intros [| l]; simpl; intros H; try lia; auto.
  apply IH. lia.
Qed.

Lemma lookup_update_other l l' o h :
  l <> l' -> lookup (update l o h) l' = lookup h l'.
Proof.
  unfold lookup. revert l l'.
  induction h as [| x h IH]; intros [| l] [| l'] H; simpl; auto;
    try congruence.
Qed.

Lemma lookup_alloc_old (h : heap) o l :
  (l < List.length h)%nat -> lookup (h ++ [o])%list l = lookup h l.
Proof. unfold lookup. intros H. apply nth_error_app1. exact H. Qed.

Lemma lookup_alloc_new (h : heap) o :
  lookup (h ++ [o])%list (List.length h) = Some o.
Proof.
  unfold lookup. rewrite nth_error_app2 by lia.
  rewrite Nat.sub_diag. reflexivity.
Qed.

Lemma putProp_length h current key v h' :
  putProp h current key v = Normal h' -> List.length h' = List.length h.
Proof.
  unfold putProp. destruct current as [p | l]; [discriminate |].
  destruct (lookup h l) as [[props | elems named] |].
  - intros H. inversion H. apply update_length.
  - destruct (key =? "length").
    + destruct (arrayLength (valueToNumber h v)); [| discriminate].
      intros H. inversion H. apply update_length.
    + intros H; inversion H; apply update_length.
  - intros H. inversion H. reflexivity.
Qed.

Lemma setLoop_length parts : forall h current v c h',
  setLoop h current parts v = (c, h') ->
  (List.length h <= List.length h')%nat.
Proof.
  induction parts as [| part rest IH]; intros h current v c h'.
  - simpl. intros H. inversion H. lia.
  - destruct rest as [| nextPart rest'].
    + simpl. destruct (putProp h current part v) as [h1 | e] eqn:Hp;
        intros H; inversion H; subst; [| lia].
      rewrite (putProp_length _ _ _ _ _ Hp). lia.
    + cbn [setLoop].
      destruct (hasProp h current part) as [present | e];
        [| intros H; inversion H; lia].
      destruct (negb present || negb (typeof (getProp h current part) =? "object")
                || isNull (getProp h current part)).
      * cbn [alloc].
        destruct (putProp (h ++ [freshContainer nextPart])%list current part
                    (VRef (List.length h))) as [h2 | e] eqn:Hp.
        -- intros H. apply IH in H.
           apply putProp_length in Hp. rewrite Hp, length_app in H.
           simpl in H. lia.
        -- intros H. inversion H. rewrite length_app. simpl. lia.
      * apply IH.
Qed.

Lemma set_length h out path v c h' :
  set h out path v = (c, h') -> (List.length h <= List.length h')%nat.
Proof.
  unfold set. destruct (path =? "").
  - intros H. inversion H. lia.
  - apply setLoop_length.
Qed.

Section RunLength.

Variable host : Host.
Variables data out : value.

Lemma validateEntry_length fieldRules errs h field v c h' :
  Validator.validateEntry host data out fieldRules errs h field v = (c, h') ->
  (List.length h <= List.length h')%nat.
Proof.
  unfold Validator.validateEntry.
  destruct (Validator.validateField host h field v data fieldRules)
    as [fieldErrors | e]; [| intros H; inversion H; lia].
  destruct (0 <? List.length fieldErrors)%nat; [intros H; inversion H; lia |].
  destruct (set h out field v) as [[[] | e] h1] eqn:Hset;
    intros H; inversion H; subst; eapply set_length; eauto.
Qed.

Lemma validateEntries_length fieldRules entries : forall errs h c h',
  Validator.validateEntries host data out fieldRules entries errs h = (c, h') ->
  (List.length h <= List.length h')%nat.
Proof.
  induction entries as [| [field v] entries IH]; intros errs h c h'; simpl.
  - intros H. inversion H. lia.
  - destruct (Validator.validateEntry host data out fieldRules errs h field v)
      as [[errs1 | e] h1] eqn:He.
    + intros H. apply IH in H. apply validateEntry_length in He. lia.
    + intros H. inversion H; subst. eapply validateEntry_length; eauto.
Qed.

Lemma validatePatterns_length parsed : forall errs h c h',
  Validator.validatePatterns host data out parsed errs h = (c, h') ->
  (List.length h <= List.length h')%nat.
Proof.
  induction parsed as [| [pattern fieldRules] parsed IH];
    intros errs h c h'; simpl.
  - intros H. inversion H. lia.
  - destruct (Validator.validateEntries host data out fieldRules
                (Validator.addressed h data pattern) errs h)
      as [[errs1 | e] h1] eqn:He.
    + intros H. apply IH in H. apply validateEntries_length in He. lia.
    + intros H. inversion H; subst. eapply validateEntries_length; eauto.
Qed.

End RunLength.

(** The outcome of [validate]: an exception, or a result whose flag says
    that the error map is empty and whose tree is the object allocated at
    the start of the call when the flag is true, and an object without
    properties allocated at the end of the call when it is false. *)
Lemma validate_shape host self h data :
  (exists e h', Validator.validate host self h data = (Throw e, h'))
  \/ (exists r h',
         Validator.validate host self h data = (Normal r, h')
         /\ (valid r = true <-> errors r = [])
         /\ (valid r = true -> validated r = VRef (List.length h))
         /\ (valid r = false ->
             exists l, validated r = VRef l
                       /\ (List.length h < l)%nat
                       /\ lookup h' l = Some (Obj []))).
Proof.
  unfold Validator.validate. cbn [alloc].
  destruct (Validator.validatePatterns host data (VRef (List.length h))
              (Validator.parsedRules self) [] (h ++ [Obj []])%list)
    as [[errs | e] h1] eqn:Hrun.
  - right. destruct errs as [| e0 errs]; simpl.
    + eexists _, _. split; [reflexivity |]. simpl.
      repeat split; auto; discriminate.
    + eexists _, _. split; [reflexivity |]. simpl.
      split; [split; discriminate |]. split; [discriminate |].
      intros _. exists (List.length h1). split; [reflexivity |].
      split; [| apply lookup_alloc_new].
      apply validatePatterns_length in Hrun.
      rewrite length_app in Hrun. simpl in Hrun. lia.
  - left. eauto.
Qed.

(** ** Writes through the output tree into the record *)

(** C9 at a failing input.  The field [a] passes, so the output tree
    receives under [a] the very object of the record; the field [a.b.c]
    is absent and passes too, and [set] then walks through that object,
    replaces the number under [b] by a new object and writes [c] into it.
    After a successful [validate] the record reads
    [{a: {b: {c: undefined}}}]. *)
Theorem validate_writes_into_record :
  forall host,
    let '(d, h) := store aliasRecord [] in
    match Validator.make host (ruleRegistry host) h d aliasRules with
    | (Normal r, h') =>
        valid r = true
        /\ load 16 h d = aliasRecord
        /\ load 16 h' d =
           TObj [("a", TObj [("b", TObj [("c", TPrim PUndefined)])])]
        /\ lookup h' 0 <> lookup h 0
    | (Throw _, _) => False
    end.
Proof.
  intros host. vm_compute. repeat split; try reflexivity. discriminate.
Qed.

(** C8 at a failing input.  One [Validator], one record [{a: {b: 5}}],
    two calls: the first call finds the record valid and, writing [a.b.c]
    through the object shared with the output tree, turns [a.b] into an
    object; the second call, on the same record, reports
    [validation.integer] for [a.b]. *)
Theorem validate_twice_differs :
  forall host,
    let '(d, h) := store aliasRecord [] in
    match Validator.new (ruleRegistry host) twiceRules with
    | Normal self =>
        match validateTwice host self h d with
        | Normal (r1, r2) =>
            valid r1 = true /\ errors r1 = []
            /\ valid r2 = false
            /\ errors r2 = [("a.b", [fieldError "validation.integer" "a.b"])]
        | Throw _ => False
        end
    | Throw _ => False
    end.
Proof.
  intros host. vm_compute. repeat split; reflexivity.
Qed.

(** ** The output tree *)


(** *** Reading and writing one object *)

Lemma digitsValueFrom_nonneg s : forall acc,
  (0 <= acc)%Z -> (0 <= digitsValueFrom acc s)%Z.
Proof.
  induction s as [| c s IH]; intros acc H; cbn [digitsValueFrom];
    [exact H |].
  apply IH. pose proof (Nat2Z.is_nonneg (nat_of_ascii c - 48)). lia.
Qed.

Lemma arrayIndex_canonical key i :
  arrayIndex key = Some i -> key = ZToString (Z.of_nat i).
Proof.
  unfold arrayIndex. destruct (allDigits key); [| discriminate].
  destruct ((ZToString (digitsValue key) =? key)
            && (digitsValue key <? 4294967295)%Z) eqn:H; [| discriminate].
  apply andb_true_iff in H. destruct H as [H _].
  apply String.eqb_eq in H. intros Hi. inversion Hi; subst i.
  rewrite Z2Nat.id; [auto |].
  apply digitsValueFrom_nonneg. lia.
Qed.

Lemma arrayIndex_inj key key' i :
  arrayIndex key = Some i -> arrayIndex key' = Some i -> key = key'.
Proof.
  intros H H'. apply arrayIndex_canonical in H, H'. congruence.
Qed.

Lemma assoc_replaceProp_other {A} key key' (x : A) ps :
  key' <> key -> assoc key' (replaceProp key x ps) = assoc key' ps.
Proof.
  intros Hne. induction ps as [| [k y] ps IH]; simpl; [reflexivity |].
  destruct (k =? key) eqn:Hk; simpl.
  - apply String.eqb_eq in Hk. subst k.
    destruct (key =? key') eqn:Hk'; [| reflexivity].
    apply String.eqb_eq in Hk'. congruence.
  - destruct (k =? key'); auto.
Qed.

Lemma assoc_insertIndexProp_other {A} i key key' (x : A) ps :
  key' <> key -> assoc key' (insertIndexProp i key x ps) = assoc key' ps.
Proof.
  intros Hne.
  assert (Hk : (key =? key') = false) by (apply String.eqb_neq; congruence).
  induction ps as [| [k y] ps IH]; simpl.
  - rewrite Hk. reflexivity.
  - destruct (arrayIndex k) as [j |].
    + destruct (j <? i)%nat; simpl.
      * destruct (k =? key'); auto.
      * rewrite Hk. reflexivity.
    + simpl. rewrite Hk. reflexivity.
Qed.

Lemma assoc_app_other {A} key key' (x : A) ps :
  key' <> key -> assoc key' (ps ++ [(key, x)]) = assoc key' ps.
Proof.
  intros Hne.
  assert (Hk : (key =? key') = false) by (apply String.eqb_neq; congruence).
  induction ps as [| [k y] ps IH]; simpl.
  - rewrite Hk. reflexivity.
  - destruct (k =? key'); auto.
Qed.

Lemma ownSet_assoc_other {A} key key' (x : A) ps :
  key' <> key -> assoc key' (ownSet key x ps) = assoc key' ps.
Proof.
  intros Hne. unfold ownSet. destruct (isSome (assoc key ps)).
  - apply assoc_replaceProp_other. exact Hne.
  - destruct (arrayIndex key).
    + apply assoc_insertIndexProp_other. exact Hne.
    + apply assoc_app_other. exact Hne.
Qed.

Lemma nth_writeElem_same i v : forall elems,
  nth i (writeElem i v elems) None = Some v.
Proof.
  induction i as [| i IH]; intros [| e elems]; simpl; auto.
Qed.

Lemma nth_writeElem_other i j v : forall elems,
  i <> j -> nth j (writeElem i v elems) None = nth j elems None.
Proof.
  revert j. induction i as [| i IH]; intros [| j] [| e elems] H; simpl;
    try congruence; auto.
  - destruct j; reflexivity.
  - rewrite IH by congruence. destruct j; reflexivity.
Qed.

Lemma objectGet_put_same o key v :
  key <> "length" -> objectGet (objectPut o key v) key = v.
Proof.
  intros Hlen. apply String.eqb_neq in Hlen.
  destruct o as [props | elems named]; simpl.
  - rewrite ownSet_assoc. reflexivity.
  - destruct (arrayIndex key) as [i |] eqn:Hi; simpl; rewrite Hlen, Hi.
    + rewrite nth_writeElem_same. reflexivity.
    + rewrite ownSet_assoc. reflexivity.
Qed.

Lemma objectGet_put_other o key key' v :
  key' <> key -> key' <> "length" ->
  objectGet (objectPut o key v) key' = objectGet o key'.
Proof.
  intros Hne Hlen. apply String.eqb_neq in Hlen.
  destruct o as [props | elems named]; simpl.
  - rewrite ownSet_assoc_other by exact Hne. reflexivity.
  - destruct (arrayIndex key) as [i |] eqn:Hi; simpl; rewrite Hlen.
    + destruct (arrayIndex key') as [j |] eqn:Hj; [| reflexivity].
      rewrite nth_writeElem_other; [reflexivity |].
      intros ->. apply Hne. eapply arrayIndex_inj; eauto.
    + destruct (arrayIndex key'); [reflexivity |].
      rewrite ownSet_assoc_other by exact Hne. reflexivity.
Qed.

Lemma objectHas_put_same o key v : objectHas (objectPut o key v) key = true.
Proof.
  destruct o as [props | elems named]; simpl.
  - rewrite ownSet_assoc. reflexivity.
  - destruct (arrayIndex key) as [i |] eqn:Hi; simpl; rewrite Hi.
    + rewrite nth_writeElem_same. apply orb_true_r.
    + rewrite ownSet_assoc. apply orb_true_r.
Qed.

Lemma objectHas_put_other o key key' v :
  key' <> key -> objectHas (objectPut o key v) key' = objectHas o key'.
Proof.
  intros Hne. destruct o as [props | elems named]; simpl.
  - rewrite ownSet_assoc_other by exact Hne. reflexivity.
  - destruct (arrayIndex key) as [i |] eqn:Hi; simpl.
    + destruct (arrayIndex key') as [j |] eqn:Hj; [| reflexivity].
      rewrite nth_writeElem_other; [reflexivity |].
      intros ->. apply Hne. eapply arrayIndex_inj; eauto.
    + destruct (arrayIndex key'); [reflexivity |].
      rewrite ownSet_assoc_other by exact Hne. reflexivity.
Qed.

Lemma objectGet_ref_has o key l :
  objectGet o key = VRef l -> objectHas o key = true.
Proof.
  destruct o as [props | elems named]; simpl.
  - destruct (assoc key props); [reflexivity | discriminate].
  - destruct (key =? "length"); [discriminate |].
    destruct (arrayIndex key).
    + destruct (nth n elems None); [reflexivity | discriminate].
    + destruct (assoc key named); [reflexivity | discriminate].
Qed.

Lemma freshContainer_has nextPart key :
  key <> "length" -> objectHas (freshContainer nextPart) key = false.
Proof.
  intros Hlen. apply String.eqb_neq in Hlen.
  unfold freshContainer. destruct (allDigits nextPart); simpl; [| reflexivity].
  rewrite Hlen. destruct (arrayIndex key) as [[| i] |]; reflexivity.
Qed.

Lemma putProp_object h l o key v :
  lookup h l = Some o -> key <> "length" ->
  putProp h (VRef l) key v = Normal (update l (objectPut o key v) h).
Proof.
  intros Hl Hlen. apply String.eqb_neq in Hlen.
  unfold putProp. rewrite Hl. destruct o; [reflexivity |].
  rewrite Hlen. reflexivity.
Qed.

(** *** Paths through the store *)

Lemma getLoop_prim h parts p : getLoop h parts (VPrim p) =
  match parts with [] => VPrim p | _ => undefined end.
Proof. destruct parts; [reflexivity |]. destruct p; reflexivity. Qed.

Lemma getLoop_ref h part rest l :
  getLoop h (part :: rest) (VRef l) = getLoop h rest (getProp h (VRef l) part).
Proof. reflexivity. Qed.

Lemma getLoop_app h q : forall r current,
  getLoop h (q ++ r) current = getLoop h r (getLoop h q current).
Proof.
  induction q as [| part q IH]; intros r current; [reflexivity |].
  destruct current as [p | l].
  - rewrite <- app_comm_cons, !getLoop_prim. destruct r; reflexivity.
  - rewrite <- app_comm_cons, !getLoop_ref. apply IH.
Qed.

(** Two stores give a path the same value when they agree on every
    property that the walk reads. *)
Lemma getLoop_agree h1 h2 x : forall current,
  (forall x1 k x2 l,
      x = (x1 ++ k :: x2)%list -> getLoop h1 x1 current = VRef l ->
      getProp h2 (VRef l) k = getProp h1 (VRef l) k) ->
  getLoop h2 x current = getLoop h1 x current.
Proof.
  induction x as [| k x IH]; intros current H; [reflexivity |].
  destruct current as [p | l].
  - rewrite !getLoop_prim. reflexivity.
  - rewrite !getLoop_ref.
    rewrite (H [] k x l eq_refl eq_refl).
    apply IH. intros x1 k' x2 l' Hx Hl'.
    apply (H (k :: x1) k' x2 l'); [rewrite Hx; reflexivity |].
    rewrite getLoop_ref. exact Hl'.
Qed.

Lemma split_nonempty sep s : split sep s <> [].
Proof.
  destruct s as [| c s]; simpl; [discriminate |].
  destruct (Ascii.eqb c sep); [discriminate |].
  destruct (split sep s); discriminate.
Qed.

Lemma get_segments h data path :
  path <> "" -> get h data path = getLoop h (segments path) data.
Proof.
  intros H. apply String.eqb_neq in H. unfold get. rewrite H. reflexivity.
Qed.

Lemma set_segments h data path v :
  path <> "" -> set h data path v = setLoop h data (segments path) v.
Proof.
  intros H. apply String.eqb_neq in H. unfold set. rewrite H. reflexivity.
Qed.

Lemma prefixOf_refl p : prefixOf p p.
Proof. exists []. rewrite app_nil_r. reflexivity. Qed.

(** *** The output tree as a trie of fresh containers

    While [validate] runs over paths none of which extends another, the
    output tree is a trie: its inner nodes, at the paths in [S], are
    containers allocated by [set]; its leaves, at the paths in [W], hold
    the values written. *)

Section OutputTree.

Variable hInit : heap.

Local Abbreviation n0 := (List.length hInit).
Local Abbreviation out := (VRef (List.length hInit)).

Lemma trie_S_prefix h S W a b : Trie hInit h S W -> S (a ++ b)%list -> S a.
Proof.
  intros T. induction b as [| s b IH] using rev_ind.
  - rewrite app_nil_r. auto.
  - rewrite app_assoc. intros H. apply IH. eapply trie_inner; eauto.
Qed.

Lemma trie_W_prefix h S W x k x2 v :
  Trie hInit h S W -> W (x ++ k :: x2)%list v -> S x.
Proof.
  intros T H.
  destruct (exists_last (l := k :: x2)) as (y & s & Hy); [discriminate |].
  rewrite Hy, app_assoc in H.
  apply (trie_parent _ _ _ _ T) in H.
  eapply trie_S_prefix; eauto.
Qed.

Section Put.

Variables (h h2 : heap) (S : list string -> Prop)
  (W : list string -> value -> Prop).
Variables (q : list string) (s : string) (lq : loc) (o : object) (val : value).

Hypothesis T : Trie hInit h S W.
Hypothesis Sq : S q.
Hypothesis Hnode : getLoop h q out = VRef lq.
Hypothesis Hobj : lookup h lq = Some o.
Hypothesis Hs : s <> "length".
Hypothesis HnotS : ~ S (q ++ [s])%list.
Hypothesis HnotW : forall v, ~ W (q ++ [s])%list v.
Hypothesis Hmod : modifiedAt h h2 lq (objectPut o s val).

(** A path of the trie does not read the property written. *)
Lemma put_frame x :
  S x \/ (exists v, W x v) -> getLoop h2 x out = getLoop h x out.
Proof.
  intros Hx. apply getLoop_agree. intros x1 k x2 l Hsplit Hl.
  assert (Sx1 : S x1).
  { destruct Hx as [Hx | [v Hx]]; rewrite Hsplit in Hx.
    - eapply trie_S_prefix; eauto.
    - eapply trie_W_prefix; eauto. }
  assert (Hk : k <> "length").
  { assert (Hnl : noLength x).
    { destruct Hx as [Hx | [v Hx]].
      - eapply trie_S_noLength; eauto.
      - eapply trie_W_noLength; eauto. }
    intros ->. apply Hnl. rewrite Hsplit. apply in_or_app. right. left.
    reflexivity. }
  destruct (trie_node _ _ _ _ T x1 Sx1) as (l' & o1 & Hl1 & _ & Ho1).
  rewrite Hl in Hl1. inversion Hl1; subst l'.
  destruct (Nat.eq_dec l lq) as [-> | Hne].
  - assert (x1 = q).
    { apply (trie_inj _ _ _ _ T); auto. rewrite Hl, Hnode. reflexivity. }
    subst x1.
    assert (Hks : k <> s).
    { intros ->. destruct x2 as [| k2 x2].
      - destruct Hx as [Hx | [v Hx]]; rewrite Hsplit in Hx.
        + apply HnotS. exact Hx.
        + eapply HnotW. exact Hx.
      - apply HnotS.
        destruct Hx as [Hx | [v Hx]]; rewrite Hsplit in Hx;
          change (s :: k2 :: x2) with ([s] ++ k2 :: x2)%list in Hx;
          rewrite app_assoc in Hx.
        + eapply trie_S_prefix; eauto.
        + eapply trie_W_prefix; eauto. }
    unfold getProp. destruct Hmod as [H2 _]. rewrite H2, Hobj.
    apply objectGet_put_other; assumption.
  - unfold getProp. destruct Hmod as [_ H2].
    rewrite (H2 l o1 Hne Ho1), Ho1. reflexivity.
Qed.

Lemma put_reads : getLoop h2 (q ++ [s]) out = val.
Proof.
  rewrite getLoop_app, (put_frame q (or_introl Sq)), Hnode.
  simpl. destruct Hmod as [H2 _]. rewrite H2.
  apply objectGet_put_same. exact Hs.
Qed.

Lemma put_lookup l o1 :
  lookup h l = Some o1 -> exists o2, lookup h2 l = Some o2.
Proof.
  intros Hl. destruct Hmod as [H2 H3].
  destruct (Nat.eq_dec l lq) as [-> | Hne]; eauto.
Qed.

Lemma put_trie_frame l o1 : lookup hInit l = Some o1 -> lookup h2 l = Some o1.
Proof.
  intros Hl. destruct Hmod as [_ H3].
  apply H3; [| eapply trie_frame; eauto].
  destruct (trie_node _ _ _ _ T q Sq) as (l' & o' & Hl' & Hge & _).
  rewrite Hnode in Hl'. inversion Hl'; subst l'.
  apply lookup_lt in Hl. lia.
Qed.

Lemma put_keys_old q' l o' k :
  S q' -> getLoop h q' out = VRef l -> lookup h2 l = Some o' ->
  k <> "length" -> objectHas o' k = true ->
  (q' ++ [k] = q ++ [s])%list
  \/ S (q' ++ [k])%list \/ exists v, W (q' ++ [k])%list v.
Proof.
  intros Sq' Hl Ho' Hk Hhas.
  destruct (trie_node _ _ _ _ T q' Sq') as (l1 & o1 & Hl1 & _ & Ho1).
  rewrite Hl in Hl1. inversion Hl1; subst l1.
  destruct (Nat.eq_dec l lq) as [-> | Hne].
  - assert (q' = q).
    { apply (trie_inj _ _ _ _ T); auto. rewrite Hl, Hnode. reflexivity. }
    subst q'. destruct Hmod as [H2 _]. rewrite H2 in Ho'.
    inversion Ho'; subst o'.
    destruct (string_dec k s) as [-> | Hks]; [left; reflexivity |].
    right. rewrite objectHas_put_other in Hhas by exact Hks.
    rewrite Hobj in Ho1. inversion Ho1; subst o1.
    eapply trie_keys; eauto.
  - right. destruct Hmod as [_ H3].
    rewrite (H3 l o1 Hne Ho1) in Ho'. inversion Ho'; subst o'.
    eapply trie_keys; eauto.
Qed.

(** Writing a leaf. *)
Lemma put_leaf :
  Trie hInit h2 S (fun p v => W p v \/ (p = (q ++ [s])%list /\ v = val)).
Proof.
  constructor.
  - apply put_trie_frame.
  - eapply trie_root; eauto.
  - intros q' Sq'.
    destruct (trie_node _ _ _ _ T q' Sq') as (l & o1 & Hl & Hge & Ho1).
    destruct (put_lookup l o1 Ho1) as [o2 Ho2].
    exists l, o2. rewrite put_frame by auto. auto.
  - intros q1 q2 S1 S2. rewrite !put_frame by auto.
    apply (trie_inj _ _ _ _ T); auto.
  - intros p v [Hw | [-> ->]].
    + rewrite put_frame by eauto. eapply trie_leaf; eauto.
    + apply put_reads.
  - intros q' l o' k Sq' Hl Ho' Hk Hhas.
    rewrite put_frame in Hl by auto.
    destruct (put_keys_old q' l o' k Sq' Hl Ho' Hk Hhas)
      as [Heq | [HS | [v HW]]]; eauto.
  - eapply trie_inner; eauto.
  - intros q' k v [Hw | [Heq _]].
    + eapply trie_parent; eauto.
    + apply app_inj_tail in Heq. destruct Heq as [-> _]. exact Sq.
  - intros v [Hw | [Heq _]].
    + eapply trie_leaf_path; eauto.
    + destruct q; discriminate.
  - eapply trie_S_noLength; eauto.
  - intros p v [Hw | [-> _]].
    + eapply trie_W_noLength; eauto.
    + intros Hin. apply in_app_or in Hin. destruct Hin as [Hin | [Hin | []]].
      * eapply trie_S_noLength; eauto.
      * congruence.
Qed.

(** Linking a new, empty container. *)
Lemma put_node m c :
  val = VRef m -> lookup h m = None -> lookup h2 m = Some c ->
  (n0 <= m)%nat ->
  (forall k, k <> "length" -> objectHas c k = false) ->
  Trie hInit h2 (fun x => S x \/ x = (q ++ [s])%list) W.
Proof.
  intros Hval Hfresh Hm Hge Hempty.
  assert (Hnew : getLoop h2 (q ++ [s]) out = VRef m)
    by (rewrite put_reads; exact Hval).
  assert (Hold : forall x, S x -> getLoop h2 x out <> VRef m).
  { intros x Sx. rewrite put_frame by auto.
    destruct (trie_node _ _ _ _ T x Sx) as (l & o1 & Hl & _ & Ho1).
    rewrite Hl. intros Heq. inversion Heq; subst l. congruence. }
  constructor.
  - apply put_trie_frame.
  - left. eapply trie_root; eauto.
  - intros q' [Sq' | ->].
    + destruct (trie_node _ _ _ _ T q' Sq') as (l & o1 & Hl & Hge' & Ho1).
      destruct (put_lookup l o1 Ho1) as [o2 Ho2].
      exists l, o2. rewrite put_frame by auto. auto.
    + exists m, c. auto.
  - intros q1 q2 [S1 | ->] [S2 | ->]; intros Heq.
    + rewrite !put_frame in Heq by auto. apply (trie_inj _ _ _ _ T); auto.
    + rewrite Hnew in Heq. exfalso. eapply Hold; eauto.
    + rewrite Hnew in Heq. exfalso. eapply Hold; eauto.
    + reflexivity.
  - intros p v Hw. rewrite put_frame by eauto. eapply trie_leaf; eauto.
  - intros q' l o' k [Sq' | ->] Hl Ho' Hk Hhas.
    + rewrite put_frame in Hl by auto.
      destruct (put_keys_old q' l o' k Sq' Hl Ho' Hk Hhas)
        as [Heq | [HS | [v HW]]]; eauto.
    + rewrite Hnew in Hl. inversion Hl; subst l.
      rewrite Hm in Ho'. inversion Ho'; subst o'.
      rewrite Hempty in Hhas by exact Hk. discriminate.
  - intros q' k [HS | Heq].
    + left. eapply trie_inner; eauto.
    + apply app_inj_tail in Heq. destruct Heq as [-> _]. left. exact Sq.
  - intros q' k v Hw. left. eapply trie_parent; eauto.
  - eapply trie_leaf_path; eauto.
  - intros x [Sx | ->].
    + eapply trie_S_noLength; eauto.
    + intros Hin. apply in_app_or in Hin. destruct Hin as [Hin | [Hin | []]].
      * eapply trie_S_noLength; eauto.
      * congruence.
  - eapply trie_W_noLength; eauto.
Qed.

End Put.

End OutputTree.

Lemma modifiedAt_update h lq o' :
  (lq < List.length h)%nat -> modifiedAt h (update lq o' h) lq o'.
Proof.
  intros Hlt. split.
  - apply lookup_update_same. exact Hlt.
  - intros l o1 Hne Hl. rewrite lookup_update_other by congruence. exact Hl.
Qed.

Lemma modifiedAt_alloc_update (h : heap) c lq o' :
  (lq < List.length h)%nat ->
  modifiedAt h (update lq o' (h ++ [c])%list) lq o'.
Proof.
  intros Hlt. split.
  - apply lookup_update_same. rewrite length_app. simpl. lia.
  - intros l o1 Hne Hl. rewrite lookup_update_other by congruence.
    rewrite lookup_alloc_old; [exact Hl |]. eapply lookup_lt; eauto.
Qed.

(** [set] along a path that no leaf of the trie precedes and that is not
    an inner node: the walk follows the inner nodes, creates the missing
    ones and writes the leaf. *)
Lemma setLoop_trie hInit val rest :
  forall h (S : list string -> Prop) (W : list string -> value -> Prop) q lq,
    Trie hInit h S W -> S q ->
    getLoop h q (VRef (List.length hInit)) = VRef lq ->
    rest <> [] -> noLength rest ->
    (forall x v, W x v -> ~ prefixOf x (q ++ rest)) ->
    ~ S (q ++ rest)%list ->
    exists h' (S' : list string -> Prop),
      setLoop h (VRef lq) rest val = (Normal tt, h')
      /\ Trie hInit h' S'
           (fun p v => W p v \/ (p = (q ++ rest)%list /\ v = val))
      /\ (forall x, S x -> S' x)
      /\ (forall x, S' x ->
            S x \/ exists k r, (q ++ rest = x ++ k :: r)%list).
Proof.
  induction rest as [| s rest IH]; intros h S W q lq T Sq Hnode Hne Hnl HW HS;
    [congruence |].
  assert (Hs : s <> "length").
  { intros ->. apply Hnl. left. reflexivity. }
  destruct (trie_node _ _ _ _ T q Sq) as (l & o & Hl & Hge & Hobj).
  rewrite Hnode in Hl. inversion Hl; subst l. clear Hl.
  assert (Hlt : (lq < List.length h)%nat) by (eapply lookup_lt; eauto).
  destruct rest as [| s' rest].
  - (* the final assignment *)
    cbn [setLoop]. rewrite (putProp_object _ _ _ _ _ Hobj Hs).
    exists (update lq (objectPut o s val) h), S.
    split; [reflexivity |]. split; [| split; [auto | auto]].
    eapply put_leaf; eauto.
    + intros v Hv. apply (HW _ _ Hv). apply prefixOf_refl.
    + apply modifiedAt_update. exact Hlt.
  - (* an inner segment *)
    assert (Htarget : ((q ++ [s]) ++ s' :: rest = q ++ s :: s' :: rest)%list)
      by (rewrite <- app_assoc; reflexivity).
    assert (Hnl' : noLength (s' :: rest)).
    { intros Hin. apply Hnl. right. exact Hin. }
    cbn [setLoop]. unfold hasProp. rewrite Hobj.
    assert (Hchild : getProp h (VRef lq) s = objectGet o s)
      by (unfold getProp; rewrite Hobj; reflexivity).
    rewrite Hchild.
    destruct (objectHas o s) eqn:Hhas.
    + (* the segment leads to an inner node *)
      destruct (trie_keys _ _ _ _ T q lq o s Sq Hnode Hobj Hs Hhas)
        as [Sqs | [v Hv]].
      2:{ exfalso. apply (HW _ _ Hv). exists (s' :: rest).
          symmetry. exact Htarget. }
      destruct (trie_node _ _ _ _ T _ Sqs) as (l1 & o1 & Hl1 & Hge1 & Hobj1).
      assert (Hg : objectGet o s = VRef l1).
      { rewrite getLoop_app, Hnode in Hl1. simpl in Hl1.
        rewrite Hobj in Hl1. exact Hl1. }
      rewrite Hg. cbn [negb typeof isNull orb String.eqb Ascii.eqb Bool.eqb].
      destruct (IH h S W (q ++ [s])%list l1 T Sqs Hl1 ltac:(discriminate) Hnl')
        as (h' & S' & Hset & T' & Hsub & Hsup).
      * intros x v Hv. rewrite Htarget. eapply HW; eauto.
      * rewrite Htarget. exact HS.
      * exists h', S'. split; [exact Hset |].
        rewrite Htarget in T', Hsup. auto.
    + (* the segment is missing: a container is created *)
      cbn [negb orb alloc].
      set (c := freshContainer s').
      set (m := List.length h).
      set (h2 := update lq (objectPut o s (VRef m)) (h ++ [c])%list).
      assert (Hput : putProp (h ++ [c])%list (VRef lq) s (VRef m) = Normal h2).
      { apply putProp_object; [| exact Hs].
        rewrite lookup_alloc_old by exact Hlt. exact Hobj. }
      rewrite Hput.
      assert (HnotS : ~ S (q ++ [s])%list).
      { intros Sqs.
        destruct (trie_node _ _ _ _ T _ Sqs) as (l1 & o1 & Hl1 & _ & _).
        rewrite getLoop_app, Hnode in Hl1. simpl in Hl1.
        rewrite Hobj in Hl1. apply objectGet_ref_has in Hl1. congruence. }
      assert (HnotW : forall v, ~ W (q ++ [s])%list v).
      { intros v Hv. apply (HW _ _ Hv). exists (s' :: rest).
        symmetry. exact Htarget. }
      assert (Hmod : modifiedAt h h2 lq (objectPut o s (VRef m)))
        by (apply modifiedAt_alloc_update; exact Hlt).
      assert (Hm2 : lookup h2 m = Some c).
      { unfold h2. rewrite lookup_update_other by (unfold m; lia).
        apply lookup_alloc_new. }
      assert (T2 : Trie hInit h2 (fun x => S x \/ x = (q ++ [s])%list) W).
      { eapply put_node with (m := m) (c := c); eauto.
        - unfold lookup. apply nth_error_None. unfold m. lia.
        - unfold m. lia.
        - intros k Hk. apply freshContainer_has. exact Hk. }
      assert (Hreads : getLoop h2 (q ++ [s]) (VRef (List.length hInit))
                       = VRef m).
      { exact (put_reads hInit h h2 S W q s lq o (VRef m)
                 T Sq Hnode Hobj Hs HnotS HnotW Hmod). }
      assert (Hg : getProp h2 (VRef lq) s = VRef m).
      { unfold getProp. destruct Hmod as [-> _].
        apply objectGet_put_same. exact Hs. }
      rewrite Hg.
      destruct (IH h2 (fun x => S x \/ x = (q ++ [s])%list) W
                  (q ++ [s])%list m T2 (or_intror eq_refl) Hreads
                  ltac:(discriminate) Hnl')
        as (h' & S' & Hset & T' & Hsub & Hsup).
      * intros x v Hv. rewrite Htarget. eapply HW; eauto.
      * rewrite Htarget. intros [HS' | Heq]; [exact (HS HS') |].
        apply (f_equal (@List.length string)) in Heq.
        rewrite !length_app in Heq. simpl in Heq. lia.
      * exists h', S'. split; [exact Hset |].
        rewrite Htarget in T', Hsup. split; [exact T' |]. split.
        -- intros x Sx. apply Hsub. left. exact Sx.
        -- intros x Sx. destruct (Hsup x Sx) as [[HSx | ->] | Hpre]; auto.
           right. exists s', rest. symmetry. exact Htarget.
Qed.

(** *** Reading the record while the output tree grows *)

Lemma assoc_closed n key props :
  Forall (fun kv : string * value => closedValue n (snd kv)) props ->
  closedValue n (orUndefined (assoc key props)).
Proof.
  induction 1 as [| [k v] props Hv _ IH]; simpl; [exact I |].
  destruct (k =? key); [exact Hv | exact IH].
Qed.

Lemma nth_closed n i elems :
  Forall (closedSlot n) elems -> closedValue n (orUndefined (nth i elems None)).
Proof.
  intros H. revert i. induction H as [| e elems He _ IH]; intros [| i]; simpl;
    try exact I.
  - destruct e; [exact He | exact I].
  - apply IH.
Qed.

Lemma objectGet_closed n o key :
  closedObject n o -> closedValue n (objectGet o key).
Proof.
  destruct o as [props | elems named]; simpl.
  - apply assoc_closed.
  - intros [He Hn]. destruct (key =? "length"); [exact I |].
    destruct (arrayIndex key); [apply nth_closed | apply assoc_closed]; auto.
Qed.

Section Agree.

Variables hInit h : heap.

Hypothesis Hclosed : closedHeap hInit.
Hypothesis Hframe : forall l o, lookup hInit l = Some o -> lookup h l = Some o.

Let n0 := List.length hInit.

Lemma closed_lookup l :
  (l < n0)%nat -> exists o, lookup hInit l = Some o /\ lookup h l = Some o
                            /\ closedObject n0 o.
Proof.
  intros Hl. unfold lookup at 1.
  destruct (nth_error hInit l) as [o |] eqn:E.
  - exists o. repeat split; auto. apply (Hclosed l o E).
  - apply nth_error_None in E. unfold n0 in Hl. lia.
Qed.

Lemma getProp_agree current key :
  closedValue n0 current ->
  getProp h current key = getProp hInit current key
  /\ closedValue n0 (getProp hInit current key).
Proof.
  destruct current as [p | l]; simpl; [auto |].
  intros Hl. destruct (closed_lookup l Hl) as (o & -> & -> & Ho).
  split; [reflexivity | apply objectGet_closed; exact Ho].
Qed.

Lemma getLoop_closed_agree parts : forall current,
  closedValue n0 current ->
  getLoop h parts current = getLoop hInit parts current
  /\ closedValue n0 (getLoop hInit parts current).
Proof.
  induction parts as [| part parts IH]; intros current Hc; [auto |].
  destruct current as [p | l].
  - rewrite !getLoop_prim. split; [reflexivity | exact I].
  - rewrite !getLoop_ref.
    destruct (getProp_agree (VRef l) part Hc) as [-> Hc'].
    apply IH. exact Hc'.
Qed.

Lemma get_closed_agree data path :
  closedValue n0 data ->
  get h data path = get hInit data path
  /\ closedValue n0 (get hInit data path).
Proof.
  intros Hc. unfold get. destruct (path =? ""); [split; [reflexivity | exact I] |].
  apply getLoop_closed_agree. exact Hc.
Qed.

Lemma fold_left_agree {A B} (f g : A -> B -> A) (P : B -> Prop) xs :
  Forall P xs ->
  (forall a x, P x -> f a x = g a x) ->
  forall a, fold_left f xs a = fold_left g xs a.
Proof.
  induction 1 as [| x xs Hx _ IH]; intros Hfg a; simpl; [reflexivity |].
  rewrite Hfg by exact Hx. apply IH. exact Hfg.
Qed.

Lemma indexedFrom_closed elems : forall i,
  Forall (closedSlot n0) elems ->
  Forall (fun iv : nat * value => closedValue n0 (snd iv)) (indexedFrom i elems).
Proof.
  induction elems as [| e elems IH]; intros i H; simpl; [constructor |].
  inversion H; subst. destruct e as [v |]; [constructor |]; auto.
Qed.

Lemma expandRecursive_agree parts : forall current path result,
  closedValue n0 current ->
  expandRecursive h parts current path result =
  expandRecursive hInit parts current path result.
Proof.
  induction parts as [| part parts IH]; intros current path result Hc;
    [reflexivity |].
  cbn [expandRecursive]. destruct (part =? "*").
  - destruct current as [p | l]; [reflexivity |].
    destruct (closed_lookup l Hc) as (o & -> & -> & Ho).
    destruct o as [props | elems named].
    + apply fold_left_agree
        with (P := fun kv : string * value => closedValue n0 (snd kv));
        [exact Ho |].
      intros res [key x] Hx. apply IH. exact Hx.
    + apply fold_left_agree
        with (P := fun iv : nat * value => closedValue n0 (snd iv)).
      * apply indexedFrom_closed. apply Ho.
      * intros res [i x] Hx. apply IH. exact Hx.
  - destruct (truthy current && (typeof current =? "object")).
    + destruct (getProp_agree current part Hc) as [-> Hc'].
      apply IH. exact Hc'.
    + apply IH. exact I.
Qed.

Lemma addressed_agree data pattern :
  closedValue n0 data ->
  Validator.addressed h data pattern = Validator.addressed hInit data pattern.
Proof.
  intros Hc. unfold Validator.addressed, expandWildcards.
  destruct (isWildcardPattern pattern) eqn:Hw.
  - unfold isWildcardPattern in Hw. rewrite Hw. simpl.
    apply expandRecursive_agree. exact Hc.
  - destruct (get_closed_agree data pattern Hc) as [-> _]. reflexivity.
Qed.

End Agree.

(** *** Separated paths *)

Lemma separated_app E1 : forall E2,
  separated (E1 ++ E2) ->
  separated E1 /\ separated E2
  /\ (forall f v f' v', In (f, v) E1 -> In (f', v') E2 -> unrelated f f').
Proof.
  induction E1 as [| [f v] E1 IH]; intros E2; simpl.
  - intros H. split; [exact I |]. split; [exact H |].
    intros f v f' v' [].
  - intros (Hg & Hu & Hs). destruct (IH E2 Hs) as (H1 & H2 & H12).
    split; [| split; [exact H2 |]].
    + split; [exact Hg |]. split; [| exact H1].
      intros f' v' Hin. apply (Hu f' v'). apply in_or_app. auto.
    + intros f1 v1 f' v' [Heq | Hin] Hin'.
      * inversion Heq; subst. apply (Hu f' v'). apply in_or_app. auto.
      * eapply H12; eauto.
Qed.

Lemma trie_ext hInit h (S S2 : list string -> Prop)
  (W W2 : list string -> value -> Prop) :
  Trie hInit h S W ->
  (forall x, S x <-> S2 x) -> (forall x v, W x v <-> W2 x v) ->
  Trie hInit h S2 W2.
Proof.
  intros T HS HW. constructor.
  - eapply trie_frame; eauto.
  - apply HS. eapply trie_root; eauto.
  - intros q Hq. apply HS in Hq. eapply trie_node; eauto.
  - intros q q' Hq Hq'. apply HS in Hq, Hq'. eapply trie_inj; eauto.
  - intros p v Hp. apply HW in Hp. eapply trie_leaf; eauto.
  - intros q l o s Hq Hl Ho Hs Hhas. apply HS in Hq.
    destruct (trie_keys _ _ _ _ T q l o s Hq Hl Ho Hs Hhas) as [H | [v H]].
    + left. apply HS. exact H.
    + right. exists v. apply HW. exact H.
  - intros q s Hq. apply HS in Hq. apply HS. eapply trie_inner; eauto.
  - intros q s v Hq. apply HW in Hq. apply HS. eapply trie_parent; eauto.
  - intros v Hv. apply HW in Hv. eapply trie_leaf_path; eauto.
  - intros q Hq. apply HS in Hq. eapply trie_S_noLength; eauto.
  - intros p v Hp. apply HW in Hp. eapply trie_W_noLength; eauto.
Qed.

Section Loops.

Variable host : Host.
Variable hInit : heap.
Variable data : value.

Let out := VRef (List.length hInit).

(** One passing field, written into the trie. *)
Lemma validateEntry_trie fieldRules h S done field v h' :
  Trie hInit h S (leavesOf done) -> spine S (leavesOf done) ->
  Validator.validateEntry host data out fieldRules [] h field v
  = (Normal [], h') ->
  goodPath field ->
  (forall f' v', In (f', v') done -> unrelated f' field) ->
  exists S',
    Trie hInit h' S' (leavesOf (done ++ [(field, v)]))
    /\ spine S' (leavesOf (done ++ [(field, v)])).
Proof.
  intros T Hsp Hrun [Hne Hnl] Hun.
  destruct (validateEntry_cases _ _ _ _ _ _ _ _ _ _ Hrun)
    as [(fe & _ & _ & Hown & _) | (_ & _ & Hset)].
  { exfalso. symmetry in Hown. eapply ownSet_nonempty; eauto. }
  rewrite set_segments in Hset by exact Hne.
  destruct (setLoop_trie hInit v (segments field) h S (leavesOf done) []
              (List.length hInit) T (trie_root _ _ _ _ T) eq_refl
              (split_nonempty _ _) Hnl)
    as (h2 & S' & Hset2 & T2 & Hsub & Hsup).
  - intros x w (f' & Hin & ->). simpl. apply (Hun f' w Hin).
  - simpl. intros HS. destruct (Hsp _ HS) as [Hnil | (p & w & k & r & Hw & Hp)].
    + eapply split_nonempty; eauto.
    + destruct Hw as (f' & Hin & ->).
      apply (Hun f' w Hin). exists (k :: r). exact Hp.
  - fold out in Hset2. rewrite Hset in Hset2. inversion Hset2; subst h2.
    simpl in T2, Hsup.
    assert (Hleaves : forall x w,
               leavesOf done x w \/ (x = segments field /\ w = v)
               <-> leavesOf (done ++ [(field, v)]) x w).
    { intros x w. split.
      - intros [(f' & Hin & ->) | [-> ->]].
        + exists f'. split; [apply in_or_app; auto | reflexivity].
        + exists field. split; [apply in_or_app; simpl; auto | reflexivity].
      - intros (f' & Hin & ->). apply in_app_or in Hin.
        destruct Hin as [Hin | [Heq | []]].
        + left. exists f'. auto.
        + inversion Heq; subst. auto. }
    exists S'. split.
    + eapply trie_ext; [exact T2 | reflexivity | exact Hleaves].
    + intros x Sx. destruct (Hsup x Sx) as [HS | (k & r & Hp)].
      * destruct (Hsp x HS) as [-> | (p & w & k & r & Hw & Hp)]; [auto |].
        right. exists p, w, k, r. split; [| exact Hp].
        apply Hleaves. left. exact Hw.
      * right. exists (segments field), v, k, r. split; [| exact Hp].
        apply Hleaves. right. auto.
Qed.

Lemma validateEntries_trie fieldRules entries : forall h S done h',
  Trie hInit h S (leavesOf done) -> spine S (leavesOf done) ->
  Validator.validateEntries host data out fieldRules entries [] h
  = (Normal [], h') ->
  separated entries ->
  (forall f v f' v', In (f, v) done -> In (f', v') entries -> unrelated f f') ->
  exists S',
    Trie hInit h' S' (leavesOf (done ++ entries))
    /\ spine S' (leavesOf (done ++ entries)).
Proof.
  induction entries as [| [field v] entries IH];
    intros h S done h' T Hsp Hrun Hsep Hcross.
  - simpl in Hrun. inversion Hrun; subst. rewrite app_nil_r. eauto.
  - simpl in Hrun.
    destruct (Validator.validateEntry host data out fieldRules [] h field v)
      as [[errs1 | e] h1] eqn:He; [| discriminate].
    assert (errs1 = []).
    { destruct errs1 as [| x errs1]; [reflexivity |]. exfalso.
      eapply (validateEntries_keeps_errors host data out fieldRules entries
                (x :: errs1) h1 [] h'); [exact Hrun | discriminate | reflexivity]. }
    subst errs1. destruct Hsep as (Hg & Hu & Hs).
    destruct (validateEntry_trie fieldRules h S done field v h1 T Hsp He Hg)
      as (S1 & T1 & Hsp1).
    { intros f' v' Hin. eapply Hcross; [exact Hin | left; reflexivity]. }
    destruct (IH h1 S1 (done ++ [(field, v)])%list h' T1 Hsp1 Hrun Hs)
      as (S' & T' & Hsp').
    { intros f1 v1 f' v' Hin Hin'. apply in_app_or in Hin.
      destruct Hin as [Hin | [Heq | []]].
      - eapply Hcross; [exact Hin | right; exact Hin'].
      - inversion Heq; subst. eapply Hu; eauto. }
    rewrite <- app_assoc in T', Hsp'. simpl in T', Hsp'. eauto.
Qed.

Hypothesis Hclosed : closedHeap hInit.
Hypothesis Hdata : closedValue (List.length hInit) data.

Lemma validatePatterns_trie parsed : forall h S done h',
  Trie hInit h S (leavesOf done) -> spine S (leavesOf done) ->
  Validator.validatePatterns host data out parsed [] h = (Normal [], h') ->
  separated (addressedBy hInit data parsed) ->
  (forall f v f' v',
      In (f, v) done -> In (f', v') (addressedBy hInit data parsed) -> unrelated f f') ->
  exists S',
    Trie hInit h' S' (leavesOf (done ++ addressedBy hInit data parsed))
    /\ spine S' (leavesOf (done ++ addressedBy hInit data parsed)).
Proof.
  induction parsed as [| [pattern fieldRules] parsed IH];
    intros h S done h' T Hsp Hrun Hsep Hcross.
  - simpl in Hrun. inversion Hrun; subst. unfold addressedBy. simpl.
    rewrite app_nil_r. eauto.
  - simpl in Hrun.
    rewrite (addressed_agree hInit h Hclosed (trie_frame _ _ _ _ T)
               data pattern Hdata) in Hrun.
    destruct (Validator.validateEntries host data out fieldRules
                (Validator.addressed hInit data pattern) [] h)
      as [[errs1 | e] h1] eqn:He; [| discriminate].
    assert (errs1 = []).
    { destruct errs1 as [| x errs1]; [reflexivity |]. exfalso.
      eapply (validatePatterns_keeps_errors host data out parsed
                (x :: errs1) h1 [] h'); [exact Hrun | discriminate | reflexivity]. }
    subst errs1.
    change (addressedBy hInit data ((pattern, fieldRules) :: parsed))
      with (Validator.addressed hInit data pattern ++ addressedBy hInit data parsed)%list
      in *.
    destruct (separated_app _ _ Hsep) as (Hs1 & Hs2 & H12).
    destruct (validateEntries_trie fieldRules _ h S done h1 T Hsp He Hs1)
      as (S1 & T1 & Hsp1).
    { intros f v f' v' Hin Hin'. eapply Hcross; [exact Hin |].
      apply in_or_app. left. exact Hin'. }
    destruct (IH h1 S1 (done ++ Validator.addressed hInit data pattern)%list
                h' T1 Hsp1 Hrun Hs2)
      as (S' & T' & Hsp').
    { intros f v f' v' Hin Hin'. apply in_app_or in Hin.
      destruct Hin as [Hin | Hin].
      - eapply Hcross; [exact Hin |]. apply in_or_app. right. exact Hin'.
      - eapply H12; eauto. }
    rewrite <- app_assoc in T', Hsp'. eauto.
Qed.

End Loops.

Lemma separated_In E : forall f v,
  separated E -> In (f, v) E -> goodPath f.
Proof.
  induction E as [| [f0 v0] E IH]; intros f v Hs Hin; [contradiction |].
  destruct Hs as (Hg & _ & Hs). destruct Hin as [Heq | Hin].
  - inversion Heq; subst. exact Hg.
  - eapply IH; eauto.
Qed.

(** The trie at the start of [validate]: the new root and nothing else. *)
Lemma trie_initial (hInit : heap) :
  Trie hInit (hInit ++ [Obj []])%list (fun x => x = []) (leavesOf [])
  /\ spine (fun x => x = []) (leavesOf []).
Proof.
  split; [| intros x Hx; left; exact Hx].
  constructor.
  - intros l o Hl. rewrite lookup_alloc_old; [exact Hl |].
    eapply lookup_lt; eauto.
  - reflexivity.
  - intros q ->. exists (List.length hInit), (Obj []).
    split; [reflexivity |]. split; [lia | apply lookup_alloc_new].
  - intros q q' -> ->. reflexivity.
  - intros p v (f & [] & _).
  - intros q l o s -> Hl Ho _ Hhas. simpl in Hl. inversion Hl; subst l.
    rewrite lookup_alloc_new in Ho. inversion Ho; subst o. discriminate.
  - intros q s H. destruct q; discriminate.
  - intros q s v (f & [] & _).
  - intros v (f & [] & _).
  - intros q -> [].
  - intros p v (f & [] & _).
Qed.

(** On success, with separated paths and a closed store, every addressed
    field is read back from the output tree at its path and the record is
    left as it was. *)
Lemma validate_separated host self h data r h' :
  closedHeap h -> closedValue (List.length h) data ->
  Validator.validate host self h data = (Normal r, h') ->
  valid r = true ->
  separated (addressedBy h data (Validator.parsedRules self)) ->
  (forall field v,
      In (field, v) (addressedBy h data (Validator.parsedRules self)) ->
      get h' (validated r) field = v)
  /\ (forall l o, lookup h l = Some o -> lookup h' l = Some o).
Proof.
  intros Hclosed Hdata Hrun Hvalid Hsep.
  unfold Validator.validate in Hrun. cbn [alloc] in Hrun.
  destruct (Validator.validatePatterns host data (VRef (List.length h))
              (Validator.parsedRules self) [] (h ++ [Obj []])%list)
    as [[errs | e] h1] eqn:Hloop; [| discriminate].
  destruct errs as [| e0 errs]; simpl in Hrun.
  2:{ inversion Hrun; subst. discriminate. }
  inversion Hrun; subst r h1. clear Hrun. simpl.
  destruct (trie_initial h) as [T0 Hsp0].
  destruct (validatePatterns_trie host h data Hclosed Hdata
              (Validator.parsedRules self) _ _ [] h' T0 Hsp0 Hloop Hsep)
    as (S' & T' & _).
  { intros f v f' v' []. }
  simpl in T'. split.
  - intros field v Hin.
    destruct (separated_In _ _ _ Hsep Hin) as [Hne _].
    rewrite get_segments by exact Hne.
    apply (trie_leaf _ _ _ _ T'). exists field. auto.
  - apply (trie_frame _ _ _ _ T').
Qed.


Lemma annStore_literal :
  store (TObj [("name", str "Ann"); ("tags", TArr [str "x"; str "y"])]) []
  = (VRef 1, annStore).
Proof. reflexivity. Qed.

Lemma annValidator_new :
  Validator.new (ruleRegistry bareHost) (Validator.rules annValidator)
  = Normal annValidator.
Proof. reflexivity. Qed.

Lemma annStore_closed : closedHeap annStore.
Proof.
  intros [| [| l]] o H; simpl in H; inversion H; subst; simpl.
  - split; repeat constructor.
  - repeat constructor.
  - destruct l; discriminate.
Qed.

Lemma annStore_separated :
  separated (addressedBy annStore (VRef 1) (Validator.parsedRules annValidator)).
Proof.
  replace (addressedBy annStore (VRef 1) (Validator.parsedRules annValidator))
    with [("name", VPrim (PStr "Ann")); ("tags.0", VPrim (PStr "x"));
          ("tags.1", VPrim (PStr "y"))]
    by (vm_compute; reflexivity).
  cbn [separated]. unfold goodPath.
  split; [split; [discriminate | no_length] |].
  split; [all_unrelated |].
  split; [split; [discriminate | no_length] |].
  split; [all_unrelated |].
  split; [split; [discriminate | no_length] |].
  split; [all_unrelated | exact I].
Qed.


(* ================================================================== *)
(** * Further properties of the engine *)

(** ** Paths: [get] and [set] *)

Lemma append_assoc (a b c : string) : (a ++ b) ++ c = a ++ (b ++ c).
Proof. induction a as [| x a IH]; simpl; [reflexivity | rewrite IH; reflexivity]. Qed.

Lemma append_nil_r (a : string) : a ++ "" = a.
Proof. induction a as [| x a IH]; simpl; [reflexivity | rewrite IH; reflexivity]. Qed.

Lemma split_app sep p q :
  split sep (p ++ String sep q) = (split sep p ++ split sep q)%list.
Proof.
  induction p as [| c p IH]; simpl.
  - rewrite Ascii.eqb_refl. reflexivity.
  - destruct (Ascii.eqb c sep).
    + rewrite IH. reflexivity.
    + rewrite IH. destruct (split sep p) as [| x xs] eqn:Hs.
      * exfalso. eapply split_nonempty. exact Hs.
      * reflexivity.
Qed.

Lemma dotted_split s : dotted (split "." s) = "." ++ s.
Proof.
  induction s as [| c s IH]; [reflexivity |].
  cbn [split]. destruct (Ascii.eqb c ".") eqn:Hc.
  - apply Ascii.eqb_eq in Hc. subst c. cbn [dotted]. rewrite IH. reflexivity.
  - destruct (split "." s) as [| x xs] eqn:Hs.
    + exfalso. eapply split_nonempty. exact Hs.
    + cbn [dotted] in *. simpl in *. inversion IH. reflexivity.
Qed.

(** X1.  Below a primitive there is nothing to read: when a path leads to a
    primitive value (a string or a number among them), every longer path under
    it reads [undefined]; [get] does not index into strings. *)
Theorem get_below_primitive h data p q x :
  p <> "" -> get h data p = VPrim x ->
  get h data (p ++ "." ++ q) = undefined.
Proof.
  intros Hp Hx.
  assert (Hpq : p ++ "." ++ q <> "").
  { destruct p; [congruence | discriminate]. }
  rewrite get_segments in Hx by exact Hp.
  rewrite get_segments by exact Hpq.
  unfold segments in *. change ("." ++ q) with (String "." q).
  rewrite split_app, getLoop_app, Hx, getLoop_prim.
  destruct (split "." q) eqn:Hs; [| reflexivity].
  exfalso. eapply split_nonempty. exact Hs.
Qed.

(** The length of a string is not reached by a path. *)
Lemma get_below_primitive_witness :
  get [Obj [("a", VPrim (PStr "abc"))]] (VRef 0) "a.length" = undefined.
Proof.
  apply (get_below_primitive _ _ "a" "length" (PStr "abc")).
  - discriminate.
  - reflexivity.
Defined.

Lemma allDigits_not_length s : allDigits s = true -> s <> "length".
Proof. intros H ->. discriminate H. Qed.

Lemma emptyFor_has o s : emptyFor o s -> objectHas o s = false.
Proof.
  intros [-> | [-> Hd]]; [reflexivity |].
  apply allDigits_not_length in Hd. apply String.eqb_neq in Hd.
  simpl. rewrite Hd. destruct (arrayIndex s) as [[| i] |]; reflexivity.
Qed.

Lemma emptyFor_put o s h l v :
  emptyFor o s -> lookup h l = Some o ->
  putProp h (VRef l) s v = Normal (update l (objectPut o s v) h).
Proof.
  intros [-> | [-> Hd]] Hl.
  - unfold putProp. rewrite Hl. reflexivity.
  - apply putProp_object; [exact Hl | apply allDigits_not_length; exact Hd].
Qed.

Lemma emptyFor_get o s v : emptyFor o s -> objectGet (objectPut o s v) s = v.
Proof.
  intros [-> | [-> Hd]].
  - simpl. rewrite ownSet_assoc. reflexivity.
  - apply objectGet_put_same. apply allDigits_not_length. exact Hd.
Qed.

Lemma freshContainer_emptyFor next : emptyFor (freshContainer next) next.
Proof.
  unfold emptyFor, freshContainer.
  destruct (allDigits next); [right; split; reflexivity | left; reflexivity].
Qed.

Lemma isArr_put o s v : isArr (objectPut o s v) = isArr o.
Proof.
  destruct o as [props | elems named]; simpl; [reflexivity |].
  destruct (arrayIndex s); reflexivity.
Qed.

Lemma isArr_fresh next : isArr (freshContainer next) = allDigits next.
Proof. unfold freshContainer. destruct (allDigits next); reflexivity. Qed.

Lemma setLoop_fresh parts : forall h l o v,
  parts <> [] -> lookup h l = Some o -> emptyFor o (hd "" parts) ->
  exists h' o',
    setLoop h (VRef l) parts v = (Normal tt, h')
    /\ getLoop h' parts (VRef l) = v
    /\ (forall l', l' <> l -> (l' < List.length h)%nat ->
        lookup h' l' = lookup h l')
    /\ lookup h' l = Some o' /\ isArr o' = isArr o
    /\ (forall q s next r,
          parts = (q ++ s :: next :: r)%list ->
          exists l',
            getLoop h' (q ++ [s]) (VRef l) = VRef l'
            /\ isArray h' (VRef l') = allDigits next).
Proof.
  induction parts as [| part rest IH]; intros h l o v Hne Hl He;
    [congruence |].
  pose proof (lookup_lt _ _ _ Hl) as Hlt.
  destruct rest as [| next rest].
  - exists (update l (objectPut o part v) h), (objectPut o part v).
    cbn [setLoop hd] in *. rewrite (emptyFor_put _ _ _ _ _ He Hl).
    split; [reflexivity |].
    assert (Hl' : lookup (update l (objectPut o part v) h) l
                  = Some (objectPut o part v))
      by (apply lookup_update_same; exact Hlt).
    split; [| split; [| split; [exact Hl' | split; [apply isArr_put |]]]].
    + rewrite getLoop_ref. unfold getProp. rewrite Hl'. simpl.
      apply emptyFor_get. exact He.
    + intros l' Hne' _. apply lookup_update_other. congruence.
    + intros q s nx r Hq. exfalso.
      destruct q as [| x [| y q]]; discriminate Hq.
  - cbn [hd] in He. cbn [setLoop].
    unfold hasProp. rewrite Hl, (emptyFor_has _ _ He). cbn [negb orb alloc].
    set (l0 := List.length h).
    set (h1 := (h ++ [freshContainer next])%list).
    assert (Hl1 : lookup h1 l = Some o).
    { unfold h1. rewrite lookup_alloc_old by exact Hlt. exact Hl. }
    rewrite (emptyFor_put _ _ _ _ (VRef l0) He Hl1).
    set (o1 := objectPut o part (VRef l0)).
    set (h2 := update l o1 h1).
    assert (Hlen1 : List.length h1 = S l0).
    { unfold h1. rewrite length_app. simpl. unfold l0. lia. }
    assert (Hl2 : lookup h2 l = Some o1).
    { apply lookup_update_same. rewrite Hlen1. unfold l0. lia. }
    assert (Hne0 : l <> l0) by (unfold l0; lia).
    assert (Hl0 : lookup h2 l0 = Some (freshContainer next)).
    { unfold h2. rewrite lookup_update_other by exact Hne0.
      apply lookup_alloc_new. }
    assert (Hg : getProp h2 (VRef l) part = VRef l0).
    { unfold getProp. rewrite Hl2. apply emptyFor_get. exact He. }
    rewrite Hg.
    destruct (IH h2 l0 (freshContainer next) v ltac:(discriminate) Hl0
                (freshContainer_emptyFor next))
      as (h' & o' & Hset & Hget & Hframe & Hroot & Hkind & Hkinds).
    assert (Hlen2 : List.length h2 = S l0).
    { unfold h2. rewrite update_length. exact Hlen1. }
    assert (Hl' : lookup h' l = Some o1).
    { rewrite Hframe; [exact Hl2 | exact Hne0 | rewrite Hlen2; unfold l0; lia]. }
    assert (Hg' : getProp h' (VRef l) part = VRef l0).
    { unfold getProp. rewrite Hl'. apply emptyFor_get. exact He. }
    exists h', o1. split; [exact Hset |].
    split; [| split; [| split; [exact Hl' | split; [apply isArr_put |]]]].
    + rewrite getLoop_ref, Hg'. exact Hget.
    + intros l' Hne' Hlt'. rewrite Hframe.
      * unfold h2. rewrite lookup_update_other by congruence.
        unfold h1. apply lookup_alloc_old. exact Hlt'.
      * unfold l0. lia.
      * rewrite Hlen2. unfold l0. lia.
    + intros q s nx r Hq. destruct q as [| x q].
      * simpl in Hq. inversion Hq; subst. exists l0.
        split; [cbn [app]; rewrite getLoop_ref; exact Hg' |].
        unfold isArray. rewrite Hroot.
        rewrite <- isArr_fresh, <- Hkind. destruct o'; reflexivity.
      * simpl in Hq. inversion Hq as [[Hx Hq']]. subst x.
        destruct (Hkinds q s nx r Hq') as (l' & Hgl & Harr).
        exists l'. split; [| exact Harr].
        rewrite <- app_comm_cons, getLoop_ref, Hg'. exact Hgl.
Qed.





(** ** Wildcard patterns *)

Lemma getLoop_undefined h parts : getLoop h parts undefined = undefined.
Proof. rewrite getLoop_prim. destruct parts; reflexivity. Qed.

Lemma expandRecursive_literal h parts : forall current path result,
  ~ In "*" parts ->
  expandRecursive h parts current path result =
  mapSet (slice1 (path ++ dotted parts)) (getLoop h parts current) result.
Proof.
  induction parts as [| part rest IH]; intros current path result Hstar.
  - simpl. rewrite append_nil_r. reflexivity.
  - cbn [expandRecursive].
    destruct (part =? "*") eqn:Hp.
    + apply String.eqb_eq in Hp. exfalso. apply Hstar. left. auto.
    + rewrite IH by (intros H; apply Hstar; right; exact H).
      cbn [dotted]. rewrite !append_assoc. f_equal.
      destruct current as [p | l].
      * rewrite getLoop_prim.
        destruct p; simpl; try apply getLoop_undefined.
        all: try (destruct n as [| | q0]); try (destruct b);
          simpl; try apply getLoop_undefined.
        all: try (destruct (Qeq_bool _ _)); simpl; try apply getLoop_undefined.
        destruct (s =? ""); simpl; apply getLoop_undefined.
      * reflexivity.
Qed.

Lemma includesChar_nonempty c s : includesChar c s = true -> s <> "".
Proof. destruct s; [discriminate | discriminate]. Qed.

(** X4.  A star that is not a whole segment is no wildcard: a pattern none of
    whose segments is [*] (one without a star, or with a star inside a segment
    as in [a*b]) addresses the one field of that name, with the value that
    [get] reads there. *)
Theorem expandWildcards_literal h pattern data :
  ~ In "*" (segments pattern) ->
  expandWildcards h pattern data = [(pattern, get h data pattern)].
Proof.
  intros Hstar. unfold expandWildcards.
  destruct (includesChar "*" pattern) eqn:Hinc; simpl.
  - rewrite expandRecursive_literal by exact Hstar.
    rewrite dotted_split. simpl.
    rewrite get_segments by (eapply includesChar_nonempty; eauto).
    reflexivity.
  - reflexivity.
Qed.

(** The pattern [a*b] over [{"a*b": true}]. *)
Lemma expandWildcards_literal_witness :
  expandWildcards [Obj [("a*b", VPrim (PBool true))]] "a*b" (VRef 0) =
  [("a*b", VPrim (PBool true))].
Proof.
  apply (expandWildcards_literal [Obj [("a*b", VPrim (PBool true))]] "a*b").
  vm_compute. intros [H | []]. discriminate.
Defined.

Lemma assoc_None_notin {A} k (m : list (string * A)) :
  assoc k m = None -> ~ In k (map fst m).
Proof.
  induction m as [| [k' x] m IH]; simpl; [tauto |].
  destruct (k' =? k) eqn:Hk; [discriminate |].
  apply String.eqb_neq in Hk. intros Ha [H | H]; [congruence |].
  apply IH; assumption.
Qed.

Lemma replaceProp_keys {A} k (x : A) m :
  map fst (replaceProp k x m) = map fst m.
Proof.
  induction m as [| [k' y] m IH]; simpl; [reflexivity |].
  destruct (k' =? k); simpl; [reflexivity | rewrite IH; reflexivity].
Qed.

Lemma mapSet_NoDup {A} k (x : A) m :
  NoDup (map fst m) -> NoDup (map fst (mapSet k x m)).
Proof.
  intros H. unfold mapSet. destruct (assoc k m) eqn:Ha; simpl.
  - rewrite replaceProp_keys. exact H.
  - rewrite map_app. simpl.
    apply NoDup_app; [exact H | constructor; [tauto | constructor] |].
    intros y Hy [Hk | []]. subst y. eapply assoc_None_notin; eauto.
Qed.

Lemma fold_left_NoDup {A B} (g : list (string * B) -> A -> list (string * B)) xs :
  (forall m x, NoDup (map fst m) -> NoDup (map fst (g m x))) ->
  forall m, NoDup (map fst m) -> NoDup (map fst (fold_left g xs m)).
Proof.
  intros Hg. induction xs as [| x xs IH]; intros m Hm; simpl; auto.
Qed.

Lemma expandRecursive_NoDup h parts : forall current path result,
  NoDup (map fst result) ->
  NoDup (map fst (expandRecursive h parts current path result)).
Proof.
  induction parts as [| part rest IH]; intros current path result H.
  - simpl. apply mapSet_NoDup. exact H.
  - cbn [expandRecursive]. destruct (part =? "*").
    + destruct current as [p | l]; [exact H |].
      destruct (lookup h l) as [[props | elems named] |]; [| | exact H].
      * apply fold_left_NoDup; [| exact H]. intros m [k x] Hm. apply IH. exact Hm.
      * apply fold_left_NoDup; [| exact H]. intros m [i x] Hm. apply IH. exact Hm.
    + apply IH. exact H.
Qed.

(** X5.  The expansion lists no concrete path twice.  When keys that hold dots
    make two ways lead to one path, the first place and the later value are
    kept: over [{"a.b": {c: 1}, a: {"b.c": 2}}] the pattern [*.*] yields the
    one pair of [a.b.c] and [2]. *)
Theorem expandWildcards_distinct :
  (forall h pattern data,
      NoDup (map fst (expandWildcards h pattern data)))
  /\ expandLiteral "*.*" dottedKeysRecord =
     [("a.b.c", VPrim (PNum (ofZ 2)))].
Proof.
  split.
  - intros h pattern data.
    unfold expandWildcards. destruct (includesChar "*" pattern); simpl.
    + apply expandRecursive_NoDup. constructor.
    + constructor; [tauto | constructor].
  - vm_compute. reflexivity.
Qed.

Lemma indexOfChar_none c s :
  includesChar c s = false -> indexOfChar c s = None.
Proof.
  induction s as [| d s IH]; simpl; [reflexivity |].
  rewrite Ascii.eqb_sym. destruct (Ascii.eqb d c); simpl; [discriminate |].
  intros H. rewrite IH by exact H. reflexivity.
Qed.

Lemma indexOfChar_app c base rest :
  includesChar c base = false ->
  indexOfChar c (base ++ String c rest) = Some (String.length base).
Proof.
  induction base as [| d base IH]; simpl.
  - rewrite Ascii.eqb_refl. reflexivity.
  - rewrite Ascii.eqb_sym. destruct (Ascii.eqb d c); simpl; [discriminate |].
    intros H. rewrite IH by exact H. reflexivity.
Qed.

Lemma includesChar_app c a b :
  includesChar c (a ++ b) = includesChar c a || includesChar c b.
Proof.
  induction a as [| d a IH]; simpl; [reflexivity |].
  rewrite IH. apply orb_assoc.
Qed.

Lemma length_append a b :
  String.length (a ++ b) = (String.length a + String.length b)%nat.
Proof. induction a as [| d a IH]; simpl; [reflexivity | rewrite IH; reflexivity]. Qed.

Lemma substring_0_app a b : String.substring 0 (String.length a) (a ++ b) = a.
Proof.
  induction a as [| d a IH]; simpl.
  - destruct b; reflexivity.
  - rewrite IH. reflexivity.
Qed.

Lemma substring_before c s : forall n m,
  indexOfChar c s = Some n -> (m <= n)%nat ->
  includesChar c (String.substring 0 m s) = false.
Proof.
  induction s as [| d s IH]; intros n m Hi Hm; simpl in *; [discriminate |].
  destruct m as [| m]; [reflexivity |].
  destruct (Ascii.eqb d c) eqn:Hd.
  - inversion Hi; subst. lia.
  - simpl. rewrite Ascii.eqb_sym, Hd. simpl.
    destruct (indexOfChar c s) as [k |]; [| discriminate].
    inversion Hi; subst. apply (IH k); [reflexivity | lia].
Qed.

(** X6.  [getWildcardBasePath]: a pattern without a star is its own base path;
    otherwise the base path is what stands before the first star, less the one
    character in front of the star (the dot of [items.*.name], whose base path
    is [items]); a pattern that starts with a star has the empty base path;
    and no base path holds a star. *)
Theorem getWildcardBasePath_prefix :
  (forall p, isWildcardPattern p = false -> getWildcardBasePath p = p)
  /\ (forall base d rest,
        isWildcardPattern base = false -> d <> "*"%char ->
        getWildcardBasePath (base ++ String d (String "*" rest)) = base)
  /\ (forall rest, getWildcardBasePath (String "*" rest) = "")
  /\ (forall p, isWildcardPattern (getWildcardBasePath p) = false).
Proof.
  unfold isWildcardPattern. split; [| split; [| split]].
  - intros p H. unfold getWildcardBasePath.
    rewrite indexOfChar_none by exact H. reflexivity.
  - intros base d rest H Hd. unfold getWildcardBasePath.
    assert (Hbd : includesChar "*" (base ++ String d "") = false).
    { rewrite includesChar_app, H. cbn [includesChar orb].
      destruct (Ascii.eqb "*" d) eqn:E; [| reflexivity].
      apply Ascii.eqb_eq in E. congruence. }
    replace (base ++ String d (String "*" rest))
      with ((base ++ String d "") ++ String "*" rest)
      by (rewrite append_assoc; reflexivity).
    rewrite indexOfChar_app by exact Hbd.
    rewrite length_append. cbn [String.length].
    replace (String.length base + 1)%nat with (S (String.length base)) by lia.
    cbn [Nat.sub]. rewrite Nat.sub_0_r, append_assoc.
    apply substring_0_app.
  - reflexivity.
  - intros p. unfold getWildcardBasePath.
    destruct (indexOfChar "*" p) as [[| n] |] eqn:Hi.
    + reflexivity.
    + apply (substring_before _ _ (S n)); [exact Hi | lia].
    + clear - Hi.
      induction p as [| d p IH]; cbn [includesChar indexOfChar] in *;
        [reflexivity |].
      rewrite Ascii.eqb_sym. destruct (Ascii.eqb d "*"); [discriminate |].
      cbn [orb]. apply IH.
      destruct (indexOfChar "*" p); [discriminate | reflexivity].
Qed.

(** The base path of [items.*.name]. *)
Lemma getWildcardBasePath_prefix_witness :
  getWildcardBasePath "items.*.name" = "items".
Proof.
  apply (proj1 (proj2 getWildcardBasePath_prefix) "items" "."%char ".name").
  - reflexivity.
  - discriminate.
Defined.

(** *** Index strings *)

Lemma of_lu_N d :
  DecimalPos.Unsigned.of_lu d = N.of_nat (DecimalNat.Unsigned.of_lu d).
Proof.
  induction d; cbn [DecimalPos.Unsigned.of_lu DecimalNat.Unsigned.of_lu];
    try rewrite IHd; lia.
Qed.

Lemma to_uint_N n : N.to_uint (N.of_nat n) = Nat.to_uint n.
Proof.
  assert (Hv : N.of_uint (Nat.to_uint n) = N.of_nat n).
  { unfold N.of_uint. rewrite DecimalPos.Unsigned.of_uint_alt, of_lu_N.
    rewrite <- DecimalNat.Unsigned.of_uint_alt, DecimalNat.Unsigned.of_to.
    reflexivity. }
  rewrite <- Hv, DecimalN.Unsigned.to_of.
  rewrite <- (DecimalNat.Unsigned.of_to n) at 2.
  rewrite DecimalNat.Unsigned.to_of. reflexivity.
Qed.

Lemma ZToString_of_nat n : ZToString (Z.of_nat n) = natToString n.
Proof.
  unfold ZToString, natToString.
  assert (H : Z.to_N (Z.of_nat n) = N.of_nat n) by lia.
  destruct (Z.of_nat n) eqn:Hz; try lia; rewrite H, to_uint_N; reflexivity.
Qed.

Lemma to_uint_nonnil n : Nat.to_uint n <> Decimal.Nil.
Proof.
  intros H. pose proof (DecimalNat.Unsigned.to_of (Nat.to_uint n)) as Hn.
  rewrite DecimalNat.Unsigned.of_to, H in Hn. discriminate Hn.
Qed.

Lemma natToString_digits n :
  natToString n = NilEmpty.string_of_uint (Nat.to_uint n).
Proof.
  unfold natToString. pose proof (to_uint_nonnil n).
  destruct (Nat.to_uint n); [congruence | reflexivity ..].
Qed.

Lemma string_of_uint_digits d :
  allChars isDigit (NilEmpty.string_of_uint d) = true.
Proof. induction d; simpl; auto. Qed.

Lemma digitsValueFrom_uint d : forall acc,
  (0 <= acc)%Z ->
  digitsValueFrom acc (NilEmpty.string_of_uint d) =
  Z.of_nat (Nat.of_uint_acc d (Z.to_nat acc)).
Proof.
  induction d; intros acc Hacc;
    cbn [NilEmpty.string_of_uint digitsValueFrom Nat.of_uint_acc];
    [lia | ..];
    match goal with
    | |- context [nat_of_ascii ?c] =>
        let x := eval vm_compute in (nat_of_ascii c - 48)%nat in
        change (nat_of_ascii c - 48)%nat with x
    end;
    rewrite IHd by lia; f_equal; f_equal; rewrite Nat.tail_mul_spec; lia.
Qed.

Lemma allDigits_natToString n : allDigits (natToString n) = true.
Proof.
  rewrite natToString_digits. pose proof (to_uint_nonnil n) as Hn.
  pose proof (string_of_uint_digits (Nat.to_uint n)) as Hd.
  destruct (Nat.to_uint n); [congruence | exact Hd ..].
Qed.

Lemma arrayIndex_natToString n :
  (Z.of_nat n < 4294967295)%Z -> arrayIndex (natToString n) = Some n.
Proof.
  intros Hn. unfold arrayIndex. rewrite allDigits_natToString.
  assert (Hv : digitsValue (natToString n) = Z.of_nat n).
  { unfold digitsValue. rewrite natToString_digits.
    rewrite digitsValueFrom_uint by lia. change (Z.to_nat 0) with O.
    fold (Nat.of_uint (Nat.to_uint n)).
    rewrite DecimalNat.Unsigned.of_to. reflexivity. }
  rewrite Hv, ZToString_of_nat, String.eqb_refl.
  assert (Hlt : (Z.of_nat n <? 4294967295)%Z = true)
    by (apply Z.ltb_lt; exact Hn).
  rewrite Hlt, Nat2Z.id. reflexivity.
Qed.

Lemma digits_noDot s : allChars isDigit s = true -> noDot s.
Proof.
  unfold noDot. induction s as [| c s IH]; cbn [includesChar allChars];
    [reflexivity |].
  intros H. apply andb_true_iff in H. destruct H as [Hc Hs].
  rewrite (IH Hs), orb_false_r.
  destruct (Ascii.eqb "." c) eqn:E; [| reflexivity].
  apply Ascii.eqb_eq in E. subst c. discriminate Hc.
Qed.

Lemma natToString_noDot n : noDot (natToString n).
Proof.
  apply digits_noDot. rewrite natToString_digits. apply string_of_uint_digits.
Qed.

(** *** Paths of the expansion *)

Lemma dotted_app a b : dotted (a ++ b)%list = dotted a ++ dotted b.
Proof.
  induction a as [| s a IH]; [reflexivity |].
  cbn [app dotted]. rewrite IH, !append_assoc. reflexivity.
Qed.

Lemma dotted_snoc pre s : dotted pre ++ "." ++ s = dotted (pre ++ [s])%list.
Proof.
  rewrite dotted_app. cbn [dotted]. rewrite append_nil_r. reflexivity.
Qed.

Lemma split_noDot s : noDot s -> split "." s = [s].
Proof.
  unfold noDot. induction s as [| c s IH]; cbn [split includesChar];
    [reflexivity |].
  rewrite Ascii.eqb_sym. destruct (Ascii.eqb c "."); [discriminate |].
  cbn [orb]. intros H. rewrite (IH H). reflexivity.
Qed.

Lemma split_parts_noDot s : Forall noDot (split "." s).
Proof.
  induction s as [| c s IH]; cbn [split].
  - constructor; [reflexivity | constructor].
  - destruct (Ascii.eqb c ".") eqn:Hc.
    + constructor; [reflexivity | exact IH].
    + destruct (split "." s) as [| p ps]; [constructor; [| constructor] |].
      * unfold noDot. cbn [includesChar]. rewrite Ascii.eqb_sym, Hc.
        reflexivity.
      * inversion IH; subst. constructor; [| assumption].
        unfold noDot in *. cbn [includesChar]. rewrite Ascii.eqb_sym, Hc.
        assumption.
Qed.

Lemma split_dotted q :
  Forall noDot q -> q <> [] -> split "." (slice1 (dotted q)) = q.
Proof.
  induction q as [| s q IH]; intros Hq Hne; [congruence |].
  inversion Hq as [| ? ? Hs Hq']; subst.
  destruct q as [| s' r].
  - cbn [dotted slice1 append]. rewrite append_nil_r.
    apply split_noDot. exact Hs.
  - change (slice1 (dotted (s :: s' :: r)))
      with (s ++ String "." (slice1 (dotted (s' :: r)))).
    rewrite split_app, IH by (assumption || discriminate).
    rewrite (split_noDot s Hs). reflexivity.
Qed.

Lemma getLoop_one h part current :
  getLoop h [part] current =
  if truthy current && (typeof current =? "object")
  then getProp h current part else undefined.
Proof.
  destruct current as [p | l]; [| reflexivity].
  destruct p as [| | b | n | s]; try reflexivity.
  - destruct b; reflexivity.
  - cbn [truthy typeof primTypeof]. rewrite andb_false_r. reflexivity.
  - cbn [truthy typeof primTypeof]. rewrite andb_false_r. reflexivity.
Qed.

Lemma getLoop_snoc h pre part data :
  getLoop h (pre ++ [part])%list data = getLoop h [part] (getLoop h pre data).
Proof. apply getLoop_app. Qed.

Lemma indexedFrom_In elems : forall j i x,
  In (i, x) (indexedFrom j elems) ->
  (j <= i < j + List.length elems)%nat /\ nth (i - j) elems None = Some x.
Proof.
  induction elems as [| e elems IH]; intros j i x Hin; [contradiction |].
  cbn [indexedFrom] in Hin. cbn [List.length].
  assert (Hrest : In (i, x) (indexedFrom (S j) elems) ->
                  (j <= i < j + S (List.length elems))%nat
                  /\ nth (i - j) (e :: elems) None = Some x).
  { intros H. apply IH in H. destruct H as [Hr Hn]. split; [lia |].
    replace (i - j)%nat with (S (i - S j)) by lia. exact Hn. }
  destruct e as [v |]; [| auto].
  destruct Hin as [Heq | Hin]; [| auto].
  inversion Heq; subst. split; [lia |]. rewrite Nat.sub_diag. reflexivity.
Qed.

Lemma NoDup_assoc {A} k (x : A) m :
  NoDup (map fst m) -> In (k, x) m -> assoc k m = Some x.
Proof.
  induction m as [| [k' y] m IH]; intros Hnd Hin; [contradiction |].
  inversion Hnd as [| ? ? Hnot Hnd']; subst. cbn [assoc].
  destruct Hin as [Heq | Hin].
  - inversion Heq; subst. rewrite String.eqb_refl. reflexivity.
  - destruct (k' =? k) eqn:Hk; [| apply IH; assumption].
    apply String.eqb_eq in Hk. subst k'. exfalso. apply Hnot.
    apply in_map_iff. exists (k, x). auto.
Qed.

Lemma mapSet_In {A} k (x : A) k' x' m :
  In (k, x) (mapSet k' x' m) -> (k, x) = (k', x') \/ In (k, x) m.
Proof.
  unfold mapSet. destruct (isSome (assoc k' m)).
  - induction m as [| [k0 y] m IH]; cbn [replaceProp]; [tauto |].
    destruct (k0 =? k') eqn:Hk.
    + apply String.eqb_eq in Hk. subst k0.
      intros [H | H]; [left; exact (eq_sym H) | right; right; exact H].
    + intros [H | H]; [right; left; exact H |].
      destruct (IH H) as [H' | H']; [left; exact H' | right; right; exact H'].
  - intros H. apply in_app_or in H. destruct H as [H | [H | []]];
      [right; exact H | left; exact (eq_sym H)].
Qed.

Lemma enter_In E : forall m k x,
  In (k, x) (enter E m) -> In (k, x) E \/ In (k, x) m.
Proof.
  unfold enter. induction E as [| [k' x'] E IH]; intros m k x H;
    [right; exact H |].
  cbn [fold_left] in H. apply IH in H. destruct H as [H | H].
  - left. right. exact H.
  - apply mapSet_In in H. destruct H as [H | H];
      [left; left; exact (eq_sym H) | right; exact H].
Qed.

Section Reads.

Variable h : heap.
Variable data : value.
Hypothesis Hkeys : wellKeyed h.

Lemma expansion_reads parts : forall pre current k x,
  Forall noDot parts -> Forall noDot pre ->
  getLoop h pre data = current ->
  In (k, x) (expansion h parts current (dotted pre)) ->
  exists q,
    Forall noDot q /\ k = slice1 (dotted q) /\ getLoop h q data = x
    /\ ((pre ++ parts)%list <> [] -> q <> []).
Proof.
  induction parts as [| part rest IH];
    intros pre current k x Hparts Hpre Hcur Hin.
  - cbn [expansion] in Hin. destruct Hin as [Heq | []].
    inversion Heq; subst. exists pre. rewrite app_nil_r. auto.
  - apply Forall_cons_iff in Hparts. destruct Hparts as [Hpart Hrest].
    assert (Hne : forall (q : list string) s,
               (((pre ++ [s]) ++ rest)%list <> [] -> q <> []) ->
               (pre ++ part :: rest)%list <> [] -> q <> []).
    { intros q s H _. apply H. destruct pre; discriminate. }
    assert (Hsnoc : forall s, noDot s -> Forall noDot (pre ++ [s])%list).
    { intros s Hs. apply Forall_app. split; [exact Hpre |].
      constructor; [exact Hs | constructor]. }
    cbn [expansion] in Hin. destruct (part =? "*").
    + destruct current as [p | l]; [contradiction |].
      destruct (lookup h l) as [[props | elems named] |] eqn:Hl;
        [| | contradiction].
      * apply in_flat_map in Hin. destruct Hin as ([key x'] & Hk & Hin).
        pose proof (Hkeys l _ Hl) as [Hnd Hdots].
        rewrite Forall_forall in Hdots.
        rewrite dotted_snoc in Hin.
        destruct (IH (pre ++ [key])%list x' k x Hrest
                    (Hsnoc key (Hdots _ Hk)))
          as (q & Hq & Hkq & Hx & Hq'); [| exact Hin |].
        -- rewrite getLoop_snoc, Hcur. cbn [getLoop]. unfold getProp.
           rewrite Hl. cbn [objectGet].
           rewrite (NoDup_assoc _ _ _ Hnd Hk). reflexivity.
        -- exists q. eauto.
      * apply in_flat_map in Hin. destruct Hin as ([i x'] & Hi & Hin).
        pose proof (Hkeys l _ Hl) as Hlen. cbn beta iota in Hlen.
        unfold indexed in Hi. apply indexedFrom_In in Hi.
        destruct Hi as [Hr Hn]. rewrite Nat.sub_0_r in Hn.
        rewrite dotted_snoc in Hin.
        destruct (IH (pre ++ [natToString i])%list x' k x Hrest
                    (Hsnoc _ (natToString_noDot i)))
          as (q & Hq & Hkq & Hx & Hq'); [| exact Hin |].
        -- rewrite getLoop_snoc, Hcur. cbn [getLoop]. unfold getProp.
           rewrite Hl. cbn [objectGet].
           pose proof (allDigits_not_length _ (allDigits_natToString i)) as Hnl.
           apply String.eqb_neq in Hnl. rewrite Hnl.
           rewrite arrayIndex_natToString by lia. rewrite Hn. reflexivity.
        -- exists q. eauto.
    + rewrite dotted_snoc in Hin.
      rewrite <- getLoop_one, <- Hcur, <- getLoop_snoc in Hin.
      destruct (IH (pre ++ [part])%list _ k x Hrest (Hsnoc part Hpart)
                  eq_refl Hin)
        as (q & Hq & Hkq & Hx & Hq').
      exists q. eauto.
Qed.

(** X7.  What the expansion pairs with a concrete path is what [get] reads
    there: in a store whose objects have distinct keys without dots and whose
    arrays are within the length limit of the language, every pair [(k, x)] of
    [expandWildcards], [k] not the empty string, satisfies [get(data, k) = x]. *)
Theorem expandWildcards_reads pattern k x :
  k <> "" ->
  In (k, x) (expandWildcards h pattern data) ->
  get h data k = x.
Proof.
  intros Hk Hin. unfold expandWildcards in Hin.
  destruct (includesChar "*" pattern); cbn [negb] in Hin.
  - rewrite expandRecursive_expansion in Hin. apply enter_In in Hin.
    destruct Hin as [Hin | []].
    destruct (expansion_reads (split "." pattern) [] data k x
                (split_parts_noDot pattern) (Forall_nil _) eq_refl Hin)
      as (q & Hq & Hkq & Hx & Hne).
    rewrite get_segments by exact Hk. unfold segments.
    rewrite Hkq, split_dotted; [exact Hx | exact Hq |].
    apply Hne. cbn [app]. apply split_nonempty.
  - destruct Hin as [Heq | []]. inversion Heq; subst. reflexivity.
Qed.

End Reads.

(** The pair of [tags.1] in the expansion of [tags.*] over [{name: "Ann",
    tags: ["x", "y"]}]. *)
Lemma expandWildcards_reads_witness :
  get annStore (VRef 1) "tags.1" = VPrim (PStr "y").
Proof.
  apply (expandWildcards_reads annStore (VRef 1)) with (pattern := "tags.*").
  - intros [| [| l]] o H; simpl in H; inversion H; subst.
    + simpl. lia.
    + split.
      * repeat constructor; simpl; intuition discriminate.
      * repeat constructor.
    + destruct l; discriminate.
  - discriminate.
  - vm_compute. right. left. reflexivity.
Defined.

(** ** Conditions *)

Lemma evaluateCondition_and host h v data cs :
  evaluateCondition host h (TArr (str "and" :: cs)) v data =
  everyM (fun c => evaluateCondition host h c v data) cs.
Proof.
  cbn [evaluateCondition isStr String.eqb Ascii.eqb Bool.eqb].
  induction cs as [| c cs IH]; [reflexivity |].
  cbn [everyM]. rewrite <- IH. reflexivity.
Qed.

Lemma evaluateCondition_or host h v data cs :
  evaluateCondition host h (TArr (str "or" :: cs)) v data =
  someM (fun c => evaluateCondition host h c v data) cs.
Proof.
  cbn [evaluateCondition isStr String.eqb Ascii.eqb Bool.eqb].
  induction cs as [| c cs IH]; [reflexivity |].
  cbn [someM]. rewrite <- IH. reflexivity.
Qed.

Lemma everyM_all f cs bs :
  Forall2 (fun c b => f c = Normal b) cs bs ->
  everyM f cs = Normal (forallb (fun b => b) bs).
Proof.
  induction 1 as [| c b cs bs Hc _ IH]; [reflexivity |].
  simpl. rewrite Hc. simpl. destruct b; [exact IH | reflexivity].
Qed.

Lemma someM_any f cs bs :
  Forall2 (fun c b => f c = Normal b) cs bs ->
  someM f cs = Normal (existsb (fun b => b) bs).
Proof.
  induction 1 as [| c b cs bs Hc _ IH]; [reflexivity |].
  simpl. rewrite Hc. simpl. destruct b; [reflexivity | exact IH].
Qed.

Lemma everyM_decided f pre c post r :
  Forall (fun c' => f c' = Normal true) pre ->
  f c = r -> r <> Normal true ->
  everyM f (pre ++ c :: post) =
  match r with Normal _ => Normal false | Throw e => Throw e end.
Proof.
  induction 1 as [| c' pre Hc _ IH]; intros Hr Hne; simpl.
  - rewrite Hr. destruct r as [[|] | e]; [congruence | reflexivity | reflexivity].
  - rewrite Hc. simpl. apply IH; assumption.
Qed.

Lemma someM_decided f pre c post r :
  Forall (fun c' => f c' = Normal false) pre ->
  f c = r -> r <> Normal false ->
  someM f (pre ++ c :: post) =
  match r with Normal _ => Normal true | Throw e => Throw e end.
Proof.
  induction 1 as [| c' pre Hc _ IH]; intros Hr Hne; simpl.
  - rewrite Hr. destruct r as [[|] | e]; [reflexivity | congruence | reflexivity].
  - rewrite Hc. simpl. apply IH; assumption.
Qed.

(** X8.  Compound conditions: when every member evaluates, [and] is the
    conjunction and [or] the disjunction of the outcomes; evaluation goes from
    left to right and stops at the first member that decides ([false] under
    [and], [true] under [or]) or throws, so that what stands behind it is not
    evaluated. *)
Theorem compound_conditions host h v data :
  let eval c := evaluateCondition host h c v data in
  (forall cs bs,
      Forall2 (fun c b => eval c = Normal b) cs bs ->
      eval (TArr (str "and" :: cs)) = Normal (forallb (fun b => b) bs)
      /\ eval (TArr (str "or" :: cs)) = Normal (existsb (fun b => b) bs))
  /\ (forall pre c post,
        Forall (fun c' => eval c' = Normal true) pre ->
        (eval c = Normal false ->
         eval (TArr (str "and" :: pre ++ c :: post)) = Normal false)
        /\ (forall e, eval c = Throw e ->
            eval (TArr (str "and" :: pre ++ c :: post)) = Throw e))
  /\ (forall pre c post,
        Forall (fun c' => eval c' = Normal false) pre ->
        (eval c = Normal true ->
         eval (TArr (str "or" :: pre ++ c :: post)) = Normal true)
        /\ (forall e, eval c = Throw e ->
            eval (TArr (str "or" :: pre ++ c :: post)) = Throw e)).
Proof.
  intros eval. unfold eval. split; [| split].
  - intros cs bs H. rewrite evaluateCondition_and, evaluateCondition_or.
    split; [apply everyM_all | apply someM_any]; exact H.
  - intros pre c post Hpre. split.
    + intros Hc. rewrite evaluateCondition_and.
      rewrite (everyM_decided _ pre c post (Normal false) Hpre Hc);
        [reflexivity | discriminate].
    + intros e Hc. rewrite evaluateCondition_and.
      rewrite (everyM_decided _ pre c post (Throw e) Hpre Hc);
        [reflexivity | discriminate].
  - intros pre c post Hpre. split.
    + intros Hc. rewrite evaluateCondition_or.
      rewrite (someM_decided _ pre c post (Normal true) Hpre Hc);
        [reflexivity | discriminate].
    + intros e Hc. rewrite evaluateCondition_or.
      rewrite (someM_decided _ pre c post (Throw e) Hpre Hc);
        [reflexivity | discriminate].
Qed.

(** Under [and], a false [@empty] in front of the number 5, which is no
    condition. *)
Lemma compound_conditions_witness :
  evaluateCondition bareHost []
    (TArr (str "and" :: [] ++ TArr [str "@empty"] :: [num 5]))
    (VPrim (PStr "x")) undefined = Normal false.
Proof.
  apply (proj1 (proj1 (proj2
           (compound_conditions bareHost [] (VPrim (PStr "x")) undefined))
           [] (TArr [str "@empty"]) [num 5] (Forall_nil _))).
  reflexivity.
Defined.

Lemma tree_nested_ind (P : tree -> Prop) :
  (forall p, P (TPrim p)) ->
  (forall items, Forall P items -> P (TArr items)) ->
  (forall entries, P (TObj entries)) ->
  (forall source flags, P (TRegExp source flags)) ->
  forall t, P t.
Proof.
  intros Hp Ha Ho Hr. fix IH 1.
  intros [p | items | entries | s f]; [apply Hp | | apply Ho | apply Hr].
  apply Ha. induction items as [| t items IHi]; constructor;
    [apply IH | exact IHi].
Qed.

Lemma evaluateSelfCondition_plain host h s rest v :
  (s =? "@matches") = false ->
  exists b, evaluateSelfCondition host h (str s :: rest) v = Normal b.
Proof.
  intros Hm. unfold evaluateSelfCondition. cbn [item nth isStr].
  rewrite Hm.
  repeat match goal with
         | |- context [if ?b then _ else _] => destruct b
         end; eexists; reflexivity.
Qed.

Lemma evaluateFieldCondition_plain h s rest data :
  (if membershipOp (item 0 rest) then hasIncludes (item 1 rest) else true)
  = true ->
  exists b, evaluateFieldCondition h (str s :: rest) data = Normal b.
Proof.
  unfold evaluateFieldCondition, membershipOp. cbn [item nth getField bind].
  change (nth 0 rest (TPrim PUndefined)) with (item 0 rest).
  change (nth 1 rest (TPrim PUndefined)) with (item 1 rest).
  intros H.
  destruct (isStr "filled" (item 0 rest)); [eexists; reflexivity |].
  destruct (isStr "empty" (item 0 rest)); [eexists; reflexivity |].
  destruct (isStr "in" (item 0 rest)).
  - simpl in H. destruct (item 1 rest) as [[] | | |]; try discriminate;
      eexists; reflexivity.
  - destruct (isStr "not_in" (item 0 rest)); [| eexists; reflexivity].
    simpl in H. destruct (item 1 rest) as [[] | | |]; try discriminate;
      eexists; reflexivity.
Qed.

Lemma evaluateCondition_plain host h v data c :
  plainCondition c = true ->
  exists b, evaluateCondition host h c v data = Normal b.
Proof.
  induction c as [p | items IH | entries | source flags]
    using tree_nested_ind; try discriminate.
  destruct items as [| [[| | | | s] | | |] rest]; try discriminate.
  cbn [plainCondition]. inversion IH as [| ? ? _ IHrest]; subst.
  destruct (s =? "and") eqn:Hand.
  - apply String.eqb_eq in Hand. subst s. cbn [orb].
    rewrite evaluateCondition_and. clear IH.
    induction rest as [| c rest IHr]; intros Hall; [eexists; reflexivity |].
    inversion IHrest as [| ? ? Hc Hrest]; subst.
    apply andb_true_iff in Hall. destruct Hall as [Hpc Hall].
    destruct (Hc Hpc) as [b Hb]. cbn [everyM]. rewrite Hb. cbn [bind].
    destruct b; [apply IHr; assumption | eexists; reflexivity].
  - destruct (s =? "or") eqn:Hor.
    + apply String.eqb_eq in Hor. subst s. cbn [orb].
      rewrite evaluateCondition_or. clear IH.
      induction rest as [| c rest IHr]; intros Hall; [eexists; reflexivity |].
      inversion IHrest as [| ? ? Hc Hrest]; subst.
      apply andb_true_iff in Hall. destruct Hall as [Hpc Hall].
      destruct (Hc Hpc) as [b Hb]. cbn [someM]. rewrite Hb. cbn [bind].
      destruct b; [eexists; reflexivity | apply IHr; assumption].
    + cbn [orb]. cbn [evaluateCondition isStr]. rewrite Hand, Hor.
      unfold evaluateSimpleCondition. cbn [item nth].
      destruct (startsWith "@" s).
      * intros Hm. apply negb_true_iff in Hm.
        apply evaluateSelfCondition_plain. exact Hm.
      * apply evaluateFieldCondition_plain.
Qed.

Lemma validateItems_returns host h field v data items :
  plainItems items ->
  exists es, Validator.validateItems host h field v data items = Normal es.
Proof.
  induction 1 as [| [r | c] items Hit _ IH]; cbn [Validator.validateItems].
  - eexists. reflexivity.
  - destruct IH as [es IH].
    destruct (Validator.validateSimpleRule h field v data r) as [e |];
      [| eauto].
    destruct (Validator.bails r); [eexists; reflexivity |].
    rewrite IH. eexists. reflexivity.
  - destruct IH as [es IH].
    destruct (evaluateCondition_plain host h v data _ Hit) as [b Hb].
    unfold Validator.validateConditionalRule. rewrite Hb. cbn [bind].
    destruct (if b then Some (thenRules c) else elseRules c);
      cbn [bind]; rewrite IH; eexists; reflexivity.
Qed.

Lemma validateField_returns host h field v data items :
  plainItems items ->
  exists es, Validator.validateField host h field v data items = Normal es.
Proof.
  intros H. unfold Validator.validateField.
  destruct (hasNullableRule items && isEmpty h v);
    [eexists; reflexivity | apply validateItems_returns; exact H].
Qed.



Lemma known_false names s x :
  known names s = false -> In x names -> (s =? x) = false.
Proof.
  unfold known. intros H Hin.
  destruct (s =? x) eqn:E; [| reflexivity].
  assert (Hex : existsb (String.eqb s) names = true)
    by (apply existsb_exists; exists x; auto).
  congruence.
Qed.

Ltac unknown H :=
  repeat match goal with
         | |- context [?s =? ?x] =>
             rewrite (known_false _ s x H)
               by (unfold selfSubjects, fieldOperators, typeNames;
                   cbn [In]; auto 20)
         end.

(** X10.  Conditions that can never hold evaluate to [false] without an
    exception: a subject that begins with [@] and is none of the six self
    conditions, a field condition whose operator is none of the ten operators
    or is missing, and [@type] with a name that is neither [array] nor one
    that [typeof] yields on the values of a record ([integer] and [null] among
    them). *)
Theorem unknown_conditions_are_false host h v data :
  (forall subject rest,
      startsWith "@" subject = true ->
      known selfSubjects subject = false ->
      evaluateCondition host h (TArr (str subject :: rest)) v data =
      Normal false)
  /\ (forall field op rest,
        startsWith "@" field = false ->
        field <> "and" -> field <> "or" ->
        known fieldOperators op = false ->
        evaluateCondition host h (TArr (str field :: str op :: rest)) v data =
        Normal false)
  /\ (forall field,
        startsWith "@" field = false ->
        field <> "and" -> field <> "or" ->
        evaluateCondition host h (TArr [str field]) v data = Normal false)
  /\ (forall t rest,
        known typeNames t = false ->
        evaluateCondition host h (TArr (str "@type" :: str t :: rest)) v data =
        Normal false).
Proof.
  split; [| split; [| split]].
  - intros subject rest Hat Hk.
    assert (Hand : (subject =? "and") = false).
    { destruct subject as [| c s]; [discriminate |].
      destruct (String c s =? "and") eqn:E; [| reflexivity].
      apply String.eqb_eq in E. rewrite E in Hat. discriminate. }
    assert (Hor : (subject =? "or") = false).
    { destruct (subject =? "or") eqn:E; [| reflexivity].
      apply String.eqb_eq in E. rewrite E in Hat. discriminate. }
    cbn [evaluateCondition isStr]. rewrite Hand, Hor.
    unfold evaluateSimpleCondition. cbn [item nth]. rewrite Hat.
    unfold evaluateSelfCondition. cbn [item nth isStr].
    unknown Hk. reflexivity.
  - intros field op rest Hat Hand Hor Hk.
    apply String.eqb_neq in Hand, Hor.
    cbn [evaluateCondition isStr]. rewrite Hand, Hor.
    unfold evaluateSimpleCondition. cbn [item nth]. rewrite Hat.
    unfold evaluateFieldCondition. cbn [item nth getField bind isStr].
    unknown Hk. unfold compare. cbn [isStr]. unknown Hk. reflexivity.
  - intros field Hat Hand Hor.
    apply String.eqb_neq in Hand, Hor.
    cbn [evaluateCondition isStr]. rewrite Hand, Hor.
    unfold evaluateSimpleCondition. cbn [item nth]. rewrite Hat.
    reflexivity.
  - intros t rest Hk.
    cbn [evaluateCondition isStr String.eqb Ascii.eqb Bool.eqb].
    unfold evaluateSimpleCondition. cbn [item nth startsWith String.prefix].
    cbn [Ascii.ascii_dec Ascii.ascii_rec Ascii.ascii_rect Bool.bool_dec
         bool_rec bool_rect sumbool_rec sumbool_rect].
    unfold evaluateSelfCondition. cbn [item nth isStr].
    cbn [String.eqb Ascii.eqb Bool.eqb].
    unknown Hk.
    destruct v as [[] |]; cbn [typeof primTypeof]; rewrite String.eqb_sym;
      unknown Hk; reflexivity.
Qed.

(** The misspelt subject [@emtpy]. *)
Lemma unknown_conditions_are_false_witness :
  evaluateCondition bareHost [] (TArr [str "@emtpy"]) undefined undefined
  = Normal false.
Proof.
  apply (proj1 (unknown_conditions_are_false bareHost [] undefined undefined)
           "@emtpy" []); reflexivity.
Defined.

Lemma primLt_ofNat a b :
  primLt (PNum (ofNat a)) (PNum (ofNat b)) = Some (a <? b)%nat.
Proof.
  unfold primLt, primToNumber, numLt, ofNat, ofZ. f_equal.
  rewrite Qcompare_inject_Z.
  destruct (Z.compare_spec (Z.of_nat a) (Z.of_nat b)) as [H | H | H];
    symmetry; [apply Nat.ltb_ge | apply Nat.ltb_lt | apply Nat.ltb_ge]; lia.
Qed.

Lemma numEq_ofNat a b : numEq (ofNat a) (ofNat b) = (a =? b)%nat.
Proof.
  unfold numEq, ofNat, ofZ, Qeq_bool. cbn [Qnum Qden inject_Z].
  rewrite !Z.mul_1_r.
  destruct (Nat.eqb_spec a b) as [-> | Hne].
  - apply Z.eqb_eq. reflexivity.
  - destruct (Z.eqb_spec (Z.of_nat a) (Z.of_nat b)); [lia | reflexivity].
Qed.

Lemma compare_lengths h op len n :
  compare h (VPrim (PNum (ofNat len))) (str op) (TPrim (PNum (ofNat n))) =
  lengthOutcome op len n.
Proof.
  unfold compare, lengthOutcome. cbn [isStr valueToPrimitive treeToPrimitive].
  unfold strictEquals, primEq. rewrite numEq_ofNat.
  unfold greaterThan, greaterOrEqual, lessThan, lessOrEqual.
  rewrite !primLt_ofNat.
  destruct (op =? "="); [reflexivity |].
  destruct (op =? "!="); [reflexivity |].
  destruct (op =? ">"); [destruct (n <? len)%nat; reflexivity |].
  destruct (op =? ">=").
  { rewrite Nat.leb_antisym. destruct (len <? n)%nat; reflexivity. }
  destruct (op =? "<"); [destruct (len <? n)%nat; reflexivity |].
  destruct (op =? "<="); [| reflexivity].
  rewrite Nat.leb_antisym. destruct (n <? len)%nat; reflexivity.
Qed.

(** X11.  [@length] against a number compares lengths as natural numbers: the
    length of a string, the length of an array, and 0 for every other value,
    so that [["@length", "=", 0]] holds for a number, a boolean, [null],
    [undefined] and a plain object. *)
Theorem length_condition host h data op n rest :
  let eval v :=
    evaluateCondition host h
      (TArr (str "@length" :: str op :: TPrim (PNum (ofNat n)) :: rest))
      v data in
  (forall s,
      eval (VPrim (PStr s)) = Normal (lengthOutcome op (String.length s) n))
  /\ (forall l elems named,
        lookup h l = Some (Arr elems named) ->
        eval (VRef l) = Normal (lengthOutcome op (List.length elems) n))
  /\ (forall v,
        typeof v <> "string" -> isArray h v = false ->
        eval v = Normal (lengthOutcome op 0 n)).
Proof.
  intros eval.
  assert (E : forall v,
             eval v =
             Normal (compare h
                       (VPrim (PNum (ofNat
                          match v with
                          | VPrim (PStr s) => String.length s
                          | VRef l =>
                              match lookup h l with
                              | Some (Arr elems _) => List.length elems
                              | _ => O
                              end
                          | _ => O
                          end)))
                       (str op) (TPrim (PNum (ofNat n)))))
    by reflexivity.
  split; [| split].
  - intros s. rewrite E, compare_lengths. reflexivity.
  - intros l elems named Hl. rewrite E, Hl, compare_lengths. reflexivity.
  - intros v Hs Ha. rewrite E, compare_lengths.
    destruct v as [[] | l]; try reflexivity.
    + exfalso. apply Hs. reflexivity.
    + unfold isArray in Ha.
      destruct (lookup h l) as [[] |]; try reflexivity. discriminate.
Qed.

(** The number 42 has length 0. *)
Lemma length_condition_witness :
  evaluateCondition bareHost []
    (TArr [str "@length"; str "="; TPrim (PNum (ofNat 0))])
    (VPrim (PNum (ofZ 42))) undefined = Normal true.
Proof.
  apply (proj2 (proj2 (length_condition bareHost [] undefined "=" 0 []))
           (VPrim (PNum (ofZ 42)))).
  - discriminate.
  - reflexivity.
Defined.

(** ** Parsing *)

(** X12.  Specifications outside the declared types fail in the constructor
    with the language's [TypeError], not with one of the library's exceptions:
    a field whose rules are not an array (a bare ["required"]), an empty array
    as a rule, an array headed by [null], a conditional without a then branch
    or whose then branch is not an array, and, once the then branch has
    parsed, an else branch that is neither absent, [null] nor an array. *)
Theorem malformed_specification_type_errors registry :
  (forall field raw rest,
      (forall items, raw <> TArr items) ->
      Validator.new registry ((field, raw) :: rest) = Throw TypeError)
  /\ parseRule registry (TArr []) = Throw TypeError
  /\ (forall ps, parseRule registry (TArr (TPrim PNull :: ps)) = Throw TypeError)
  /\ parseRule registry (TArr [str "when"]) = Throw TypeError
  /\ (forall cond, parseRule registry (TArr [str "when"; cond]) = Throw TypeError)
  /\ (forall cond thenBranch more,
        (forall items, thenBranch <> TArr items) ->
        parseRule registry (TArr (str "when" :: cond :: thenBranch :: more))
        = Throw TypeError)
  /\ (forall cond thens parsed elseBranch more,
        mapM (parseSimpleRule registry) thens = Normal parsed ->
        (forall items, elseBranch <> TArr items) ->
        elseBranch <> TPrim PUndefined -> elseBranch <> TPrim PNull ->
        parseRule registry
          (TArr (str "when" :: cond :: TArr thens :: elseBranch :: more))
        = Throw TypeError).
Proof.
  split; [| split; [| split; [| split; [| split; [| split]]]]];
    try reflexivity.
  - intros field raw rest Hraw. unfold Validator.new, parseRules.
    cbn [parseRulesFrom]. unfold parseFieldRules, mapArray.
    destruct raw; try reflexivity. exfalso. eapply Hraw. reflexivity.
  - intros cond thenBranch more Hthen. cbn [parseRule isStr item nth].
    cbn [String.eqb Ascii.eqb Bool.eqb]. unfold mapArray.
    destruct thenBranch; try reflexivity. exfalso. eapply Hthen. reflexivity.
  - intros cond thens parsed elseBranch more Hthens Helse Hu Hn.
    cbn [parseRule isStr item nth]. cbn [String.eqb Ascii.eqb Bool.eqb].
    unfold mapArray at 1. rewrite Hthens. cbn [bind].
    destruct elseBranch as [[] | items | |]; try reflexivity; try congruence.
Qed.

(** The specification [{name: "required"}], its rules not in an array. *)
Lemma malformed_specification_type_errors_witness :
  Validator.new (ruleRegistry bareHost) [("name", str "required")]
  = Throw TypeError.
Proof.
  apply (proj1 (malformed_specification_type_errors (ruleRegistry bareHost))).
  discriminate.
Defined.

Lemma notin_assoc_None {A} k (m : list (string * A)) :
  ~ In k (map fst m) -> assoc k m = None.
Proof.
  induction m as [| [k' x] m IH]; simpl; [reflexivity |].
  intros H. destruct (k' =? k) eqn:Hk.
  - apply String.eqb_eq in Hk. exfalso. apply H. left. exact Hk.
  - apply IH. intros Hin. apply H. right. exact Hin.
Qed.

Lemma mapSet_new {A} k (x : A) m :
  ~ In k (map fst m) -> mapSet k x m = (m ++ [(k, x)])%list.
Proof.
  intros H. unfold mapSet. rewrite (notin_assoc_None _ _ H). reflexivity.
Qed.

Lemma parseRulesFrom_fields registry entries : forall acc parsed,
  NoDup (map fst acc ++ map fst entries) ->
  (parseRulesFrom registry entries acc = Normal parsed <->
   exists tail, parsed = (acc ++ tail)%list
                /\ Forall2 (parsedField registry) entries tail).
Proof.
  induction entries as [| [f raw] rest IH]; intros acc parsed Hnd.
  - simpl. split.
    + intros H. inversion H. exists []. rewrite app_nil_r. split; constructor.
    + intros (tail & -> & H). inversion H. rewrite app_nil_r. reflexivity.
  - cbn [parseRulesFrom].
    assert (Hf : ~ In f (map fst acc)).
    { intros Hin. apply NoDup_app_remove_r in Hnd as Hacc.
      simpl in Hnd. apply NoDup_remove_2 in Hnd. apply Hnd.
      apply in_or_app. left. exact Hin. }
    assert (Hnd' : forall items,
               NoDup (map fst (acc ++ [(f, items)]) ++ map fst rest)).
    { intros items. rewrite map_app, <- app_assoc. exact Hnd. }
    destruct (parseFieldRules registry raw) as [items | e] eqn:Hp; cbn [bind].
    + rewrite mapSet_new by exact Hf. rewrite (IH _ _ (Hnd' items)). split.
      * intros (tail & -> & H). exists ((f, items) :: tail).
        rewrite <- app_assoc. split; [reflexivity |].
        constructor; [split; [reflexivity | exact Hp] | exact H].
      * intros (tail & -> & H). inversion H as [| ? [f' items'] ? tail' [Hf' Hp'] Hrest]; subst.
        simpl in Hf', Hp'. subst f'. rewrite Hp in Hp'. inversion Hp'; subst.
        exists tail'. rewrite <- app_assoc. split; [reflexivity | exact Hrest].
    + split; [discriminate |].
      intros (tail & -> & H). inversion H as [| ? [f' items'] ? tail' [Hf' Hp'] Hrest]; subst.
      simpl in Hp'. congruence.
Qed.

(** X13.  [parseRules] on a specification with distinct field names succeeds
    exactly when every field's rule list parses, and the parsed map then has
    the same fields in the same order, each with the parsed form of its own
    list. *)
Theorem parseRules_fields registry rules parsed :
  NoDup (map fst rules) ->
  (parseRules registry rules = Normal parsed <->
   Forall2 (parsedField registry) rules parsed).
Proof.
  intros Hnd. unfold parseRules.
  rewrite (parseRulesFrom_fields registry rules [] parsed Hnd). split.
  - intros (tail & -> & H). exact H.
  - intros H. exists parsed. split; [reflexivity | exact H].
Qed.

(** The specification [{name: ["required"], "tags.*": ["string"]}] and its
    parsed map. *)
Lemma parseRules_fields_witness :
  Forall2 (parsedField (ruleRegistry bareHost))
    [("name", TArr [str "required"]); ("tags.*", TArr [str "string"])]
    (Validator.parsedRules annValidator).
Proof.
  apply (parseRules_fields (ruleRegistry bareHost)
           [("name", TArr [str "required"]); ("tags.*", TArr [str "string"])]).
  - repeat constructor; simpl; intuition discriminate.
  - reflexivity.
Defined.

Lemma parseSimpleRule_name registry rule r :
  parseSimpleRule registry rule = Normal r ->
  getRule registry (str (ruleName r)) = Some (handler r)
  /\ (rule = str (ruleName r) /\ ruleParams r = []
      \/ rule = TArr (str (ruleName r) :: ruleParams r)).
Proof.
  unfold parseSimpleRule.
  destruct rule as [[| | | | s] | items | |]; try discriminate; cbn [bind].
  - destruct (validateRuleName (str s)); [| discriminate]. cbn [bind].
    destruct (getRule registry (str s)) as [hd |] eqn:Hg; [| discriminate].
    intros H. inversion H; subst. simpl. auto.
  - destruct (validateRuleName (item 0 items)); [| discriminate]. cbn [bind].
    destruct (getRule registry (item 0 items)) as [hd |] eqn:Hg; [| discriminate].
    intros H. inversion H; subst. clear H. cbn [ruleName handler ruleParams].
    destruct items as [| [[| | | | s] | | |] ps]; try discriminate Hg.
    simpl. auto.
Qed.

Lemma parseRule_nullable registry raw it :
  parseRule registry raw = Normal it ->
  match it with
  | Simple r => ruleName r =? "nullable"
  | Conditional _ => false
  end = nullableEntry raw.
Proof.
  assert (Hs : forall r,
             parseSimpleRule registry raw = Normal r ->
             (ruleName r =? "nullable") = nullableEntry raw).
  { intros r Hr. apply parseSimpleRule_name in Hr.
    destruct Hr as (_ & [[-> _] | ->]); reflexivity. }
  unfold parseRule. destruct raw as [p | items | |].
  - destruct (parseSimpleRule registry (TPrim p)) eqn:Hp; [| discriminate].
    intros H. inversion H. apply Hs. reflexivity.
  - destruct (isStr "when" (item 0 items)) eqn:Hw.
    + destruct (mapArray _ _); [| discriminate]. cbn [bind].
      destruct (match item 3 items with
                | TPrim PUndefined | TPrim PNull => _
                | _ => _ end); [| discriminate].
      cbn [bind]. intros H. inversion H.
      destruct items as [| [[| | | | s] | | |] ps]; try discriminate Hw.
      simpl in Hw. apply String.eqb_eq in Hw. subst s. reflexivity.
    + destruct (parseSimpleRule registry (TArr items)) eqn:Hp; [| discriminate].
      intros H. inversion H. apply Hs. reflexivity.
  - discriminate.
  - discriminate.
Qed.

(** X14.  After parsing, [hasNullableRule] depends on the top level of the raw
    list alone: it holds exactly when some entry is ["nullable"] or an array
    headed by it; a [nullable] inside a branch of a conditional does not
    count. *)
Theorem hasNullableRule_top_level registry raws items :
  parseFieldRules registry (TArr raws) = Normal items ->
  hasNullableRule items = existsb nullableEntry raws.
Proof.
  unfold parseFieldRules, mapArray. revert items.
  induction raws as [| raw raws IH]; intros items; cbn [mapM].
  - intros H. inversion H. reflexivity.
  - destruct (parseRule registry raw) as [it |] eqn:Hit; [| discriminate].
    cbn [bind]. destruct (mapM (parseRule registry) raws); [| discriminate].
    cbn [bind]. intros H. inversion H; subst.
    cbn [hasNullableRule existsb]. fold (hasNullableRule a).
    rewrite (IH a eq_refl), <- (parseRule_nullable _ _ _ Hit).
    reflexivity.
Qed.

(** A [nullable] in the then branch of a conditional, next to [string]. *)
Lemma hasNullableRule_top_level_witness :
  hasNullableRule
    [Conditional {| condition := TArr [str "@empty"];
                    thenRules := [ruleOf nullableRule []];
                    elseRules := None |};
     Simple (ruleOf stringRule [])] =
  existsb nullableEntry
    [TArr [str "when"; TArr [str "@empty"]; TArr [str "nullable"]];
     str "string"].
Proof.
  apply (hasNullableRule_top_level (ruleRegistry bareHost)). reflexivity.
Defined.

(** ** The registry *)

Lemma mapSet_assoc {A} k (x : A) m : assoc k (mapSet k x m) = Some x.
Proof.
  unfold mapSet. destruct (isSome (assoc k m)) eqn:Hin.
  - induction m as [| [k' y] m IH]; simpl in *; [discriminate |].
    destruct (k' =? k) eqn:Hk; simpl; rewrite Hk; auto.
  - induction m as [| [k' y] m IH]; simpl in *.
    + rewrite String.eqb_refl. reflexivity.
    + destruct (k' =? k) eqn:Hk; [discriminate | auto].
Qed.

Lemma mapSet_assoc_other {A} k k' (x : A) m :
  k' <> k -> assoc k' (mapSet k x m) = assoc k' m.
Proof.
  intros Hne. unfold mapSet. destruct (isSome (assoc k m)).
  - apply assoc_replaceProp_other. exact Hne.
  - apply assoc_app_other. exact Hne.
Qed.

(** X15.  Registering and looking up: [registerRule] makes [getRule] return
    the handler under its name and leaves every other name as it was; a name
    already present keeps its place in [getRuleNames], a new one is appended;
    and a rule of that name, if the name passes the name check, then parses to
    the registered handler, also when it replaces a built-in one. *)
Theorem registerRule_getRule hd registry :
  getRule (registerRule hd registry) (str (name hd)) = Some hd
  /\ (forall n, n <> name hd ->
        getRule (registerRule hd registry) (str n) = getRule registry (str n))
  /\ (forall n, hasRule (registerRule hd registry) (str n) =
                (n =? name hd) || hasRule registry (str n))
  /\ getRuleNames (registerRule hd registry) =
     (if hasRule registry (str (name hd)) then getRuleNames registry
      else getRuleNames registry ++ [name hd])%list
  /\ (forall rule,
        rule = str (name hd) \/ (exists ps, rule = TArr (str (name hd) :: ps)) ->
        (String.length (name hd) <= MAX_LENGTH)%nat ->
        NAME_PATTERN (name hd) = true ->
        parseSimpleRule (registerRule hd registry) rule =
        Normal {| ruleName := name hd;
                  ruleParams := match rule with TArr items => tl items | _ => [] end;
                  handler := hd |}).
Proof.
  split; [| split; [| split; [| split]]].
  - apply mapSet_assoc.
  - intros n Hn. apply mapSet_assoc_other. exact Hn.
  - intros n. unfold hasRule, getRule, registerRule.
    destruct (n =? name hd) eqn:Hn.
    + apply String.eqb_eq in Hn. subst n. rewrite mapSet_assoc. reflexivity.
    + apply String.eqb_neq in Hn. rewrite mapSet_assoc_other by exact Hn.
      reflexivity.
  - unfold getRuleNames, hasRule, getRule, registerRule, mapSet.
    destruct (isSome (assoc (name hd) registry)).
    + apply replaceProp_keys.
    + rewrite map_app. reflexivity.
  - intros rule Hrule Hlen Hpat.
    rewrite (parseSimpleRule_named _ _ _ Hrule), validateRuleName_string.
    apply Nat.ltb_ge in Hlen. rewrite Hlen, Hpat. cbn [negb bind].
    unfold getRule, registerRule. rewrite mapSet_assoc. reflexivity.
Qed.

(** A custom handler registered under the name [required]. *)
Lemma registerRule_getRule_witness :
  parseSimpleRule
    (registerRule
       {| name := "required"; validate := fun _ _ _ _ _ => None;
          bailOnFailure := None; skipIfEmpty := None |}
       (ruleRegistry bareHost))
    (str "required") =
  Normal {| ruleName := "required"; ruleParams := [];
            handler := {| name := "required";
                          validate := fun _ _ _ _ _ => None;
                          bailOnFailure := None; skipIfEmpty := None |} |}.
Proof.
  apply (proj2 (proj2 (proj2 (proj2
           (registerRule_getRule
              {| name := "required"; validate := fun _ _ _ _ _ => None;
                 bailOnFailure := None; skipIfEmpty := None |}
              (ruleRegistry bareHost)))))).
  - left. reflexivity.
  - unfold MAX_LENGTH. simpl. lia.
  - reflexivity.
Defined.

Lemma ruleRegistry_entries host :
  ruleRegistry host = map (fun hd => (name hd, hd)) (builtInRules host).
Proof. reflexivity. Qed.

Lemma assoc_In {A} k (x : A) m : assoc k m = Some x -> In (k, x) m.
Proof.
  induction m as [| [k' y] m IH]; simpl; [discriminate |].
  destruct (k' =? k) eqn:Hk.
  - apply String.eqb_eq in Hk. intros H. inversion H; subst. left. reflexivity.
  - intros H. right. apply IH. exact H.
Qed.

Lemma distinct_NoDup l : distinct l = true -> NoDup l.
Proof.
  induction l as [| x l IH]; simpl; intros H; constructor.
  - apply andb_true_iff in H. destruct H as [H _].
    apply negb_true_iff in H. intros Hin.
    assert (Hex : existsb (String.eqb x) l = true).
    { apply existsb_exists. exists x. split; [exact Hin | apply String.eqb_refl]. }
    congruence.
  - apply andb_true_iff in H. apply IH. apply H.
Qed.

Lemma builtin_names host :
  getRuleNames (ruleRegistry host) = map name (builtInRules host).
Proof. reflexivity. Qed.

Lemma builtin_parse host hd :
  In hd (builtInRules host) ->
  parseSimpleRule (ruleRegistry host) (str (name hd)) =
  Normal {| ruleName := name hd; ruleParams := []; handler := hd |}.
Proof.
  intros Hin. unfold builtInRules in Hin. cbn [app map In] in Hin.
  repeat (destruct Hin as [Hin | Hin]; [subst hd; reflexivity |]).
  contradiction.
Qed.

(** X16.  The built-in registry: 45 names, all different, none of them [when];
    and every registered name parses, as a rule without parameters, to the
    handler registered under it, whose [name] is that name. *)
Theorem builtin_rules_parse host :
  List.length (getRuleNames (ruleRegistry host)) = 45%nat
  /\ NoDup (getRuleNames (ruleRegistry host))
  /\ getRule (ruleRegistry host) (str "when") = None
  /\ (forall n,
        In n (getRuleNames (ruleRegistry host)) ->
        exists hd,
          parseSimpleRule (ruleRegistry host) (str n) =
          Normal {| ruleName := n; ruleParams := []; handler := hd |}
          /\ name hd = n).
Proof.
  split; [reflexivity |]. split; [| split; [reflexivity |]].
  - apply distinct_NoDup. reflexivity.
  - intros n Hn. rewrite builtin_names in Hn.
    apply in_map_iff in Hn. destruct Hn as (hd & Hname & Hin).
    exists hd. subst n. split; [apply builtin_parse; exact Hin | reflexivity].
Qed.

(** The last registered rule, [vat_eu]. *)
Lemma builtin_rules_parse_witness :
  exists hd,
    parseSimpleRule (ruleRegistry bareHost) (str "vat_eu") =
    Normal {| ruleName := "vat_eu"; ruleParams := []; handler := hd |}
    /\ name hd = "vat_eu".
Proof.
  apply (proj2 (proj2 (proj2 (builtin_rules_parse bareHost)))).
  rewrite builtin_names. apply in_map_iff.
  exists (leafRule bareHost "vat_eu"). split; [reflexivity |].
  unfold builtInRules. apply in_or_app. right.
  apply in_map. cbn [In]. do 35 right. left. reflexivity.
Defined.

Lemma builtin_handler host s hd :
  getRule (ruleRegistry host) (str s) = Some hd ->
  In hd (builtInRules host) /\ name hd = s.
Proof.
  unfold getRule. rewrite ruleRegistry_entries. intros H.
  apply assoc_In in H. apply in_map_iff in H.
  destruct H as (hd' & Heq & Hin). inversion Heq; subst. auto.
Qed.

(** X17.  Flags of the built-in rules: a rule parsed against the built-in
    registry that is not one of the four presence rules reports nothing for an
    empty value (it is not run), and the rules that bail are exactly
    [required], [filled] and [present]. *)
Theorem builtin_flags host rule r :
  parseSimpleRule (ruleRegistry host) rule = Normal r ->
  (presenceRule (ruleName r) = false ->
   forall h field v data,
     isEmpty h v = true ->
     Validator.validateSimpleRule h field v data r = None)
  /\ (Validator.bails r = true <->
      ruleName r = "required" \/ ruleName r = "filled"
      \/ ruleName r = "present").
Proof.
  intros Hp. apply parseSimpleRule_name in Hp. destruct Hp as [Hg _].
  apply builtin_handler in Hg. destruct Hg as [Hin Hname].
  unfold Validator.validateSimpleRule, Validator.bails.
  rewrite <- Hname. clear Hname.
  unfold builtInRules in Hin. cbn [app map In] in Hin.
  repeat (destruct Hin as [Hin | Hin];
          [rewrite <- Hin; clear Hin; split;
           [ intros Hpr; try discriminate Hpr;
             intros h field v data He; cbn [handler leafRule skipIfEmpty
               stringRule integerRule booleanRule arrayRule andb];
             rewrite He; reflexivity
           | split;
             [ intros Hb; try discriminate Hb; cbn; auto
             | intros [Hb | [Hb | Hb]]; try discriminate Hb; reflexivity ] ] |]).
  contradiction.
Qed.

(** [integer] on a missing field. *)
Lemma builtin_flags_witness :
  Validator.validateSimpleRule [] "age" undefined undefined
    {| ruleName := "integer"; ruleParams := []; handler := integerRule |}
  = None.
Proof.
  apply (proj1 (builtin_flags bareHost (str "integer")
                  {| ruleName := "integer"; ruleParams := [];
                     handler := integerRule |} eq_refl));
    reflexivity.
Defined.

(** ** Rules at work in [validateField] *)

(** X18.  The presence rules compared: [present] reports an error exactly for
    [undefined]; [filled] exactly for a value that is not [undefined] and is
    empty; [required] exactly for an empty value, which is when [present] or
    [filled] reports one; [nullable] never reports one. *)
Theorem presence_rules h field v data ps :
  let fails hd :=
    isSome (Validator.validateSimpleRule h field v data (ruleOf hd ps)) in
  (fails presentRule = true <-> v = undefined)
  /\ (fails filledRule = true <-> v <> undefined /\ isEmpty h v = true)
  /\ fails requiredRule = isEmpty h v
  /\ fails requiredRule = fails presentRule || fails filledRule
  /\ fails nullableRule = false.
Proof.
  cbn zeta. unfold Validator.validateSimpleRule, ruleOf.
  cbn [handler skipIfEmpty ruleParams requiredRule filledRule presentRule
       nullableRule validate andb].
  split; [| split; [| split; [| split]]].
  - destruct v as [[] |]; cbn [isSome]; split; intros H; congruence.
  - destruct v as [[] |]; cbn [isSome].
    1: split; [discriminate | intros [H _]; congruence].
    all: match goal with
         | |- context [isEmpty ?a ?b] => destruct (isEmpty a b)
         end; cbn [isSome]; split;
           [ intros H; split; congruence
           | intros [_ H]; congruence
           | discriminate
           | intros [_ H]; congruence ].
  - destruct (isEmpty h v); reflexivity.
  - destruct v as [[] |]; cbn [isSome orb]; try reflexivity.
    all: destruct (isEmpty h _); reflexivity.
  - reflexivity.
Qed.

Lemma bind_Normal {A B} (c : Completion A) (k : A -> Completion B) b :
  bind c k = Normal b -> exists a, c = Normal a /\ k a = Normal b.
Proof. destruct c; simpl; [eauto | discriminate]. Qed.

(** X19.  Errors come in rule order: when the items [xs] run through without a
    bailing failure, the errors of [xs ++ ys] are those of [xs] followed by
    those of [ys], and an exception raised in [ys] is the outcome. *)
Theorem validateItems_app host h field v data xs ys es :
  Validator.validateItems host h field v data xs = Normal es ->
  existsb (stops h field v data) xs = false ->
  Validator.validateItems host h field v data (xs ++ ys) =
  bind (Validator.validateItems host h field v data ys)
       (fun more => Normal (es ++ more)%list).
Proof.
  revert es. induction xs as [| [r | c] xs IH]; intros es Hxs Hstop.
  - simpl in Hxs. inversion Hxs. simpl.
    destruct (Validator.validateItems host h field v data ys); reflexivity.
  - cbn [existsb stops] in Hstop. apply orb_false_iff in Hstop.
    destruct Hstop as [Hr Hstop].
    rewrite <- app_comm_cons. cbn [Validator.validateItems] in *.
    destruct (Validator.validateSimpleRule h field v data r) as [e |].
    + cbn [isSome] in Hr. rewrite andb_true_r in Hr. rewrite Hr in *.
      apply bind_Normal in Hxs. destruct Hxs as (more & Hmore & Hes).
      inversion Hes; subst. rewrite (IH more Hmore Hstop).
      destruct (Validator.validateItems host h field v data ys); reflexivity.
    + apply IH; assumption.
  - cbn [existsb stops orb] in Hstop.
    rewrite <- app_comm_cons. cbn [Validator.validateItems] in *.
    apply bind_Normal in Hxs. destruct Hxs as (condErrors & Hc & Hxs).
    apply bind_Normal in Hxs. destruct Hxs as (more & Hmore & Hes).
    inversion Hes; subst. rewrite Hc. cbn [bind].
    rewrite (IH more Hmore Hstop).
    destruct (Validator.validateItems host h field v data ys); simpl;
      [rewrite app_assoc; reflexivity | reflexivity].
Qed.

(** [string] followed by [array] on the number 5. *)
Lemma validateItems_app_witness :
  Validator.validateItems bareHost [] "f" (VPrim (PNum (ofZ 5))) undefined
    ([Simple (ruleOf stringRule [])] ++ [Simple (ruleOf arrayRule [])]) =
  bind (Validator.validateItems bareHost [] "f" (VPrim (PNum (ofZ 5)))
          undefined [Simple (ruleOf arrayRule [])])
       (fun more => Normal ([fieldError "validation.string" "f"] ++ more)%list).
Proof.
  apply (validateItems_app bareHost [] "f" (VPrim (PNum (ofZ 5))) undefined
           [Simple (ruleOf stringRule [])] [Simple (ruleOf arrayRule [])]);
    reflexivity.
Defined.

Lemma validateItems_simples host h field v data rs :
  Validator.validateItems host h field v data (map Simple rs) =
  Normal (Validator.applyRules h field v data rs).
Proof.
  induction rs as [| r rs IH]; [reflexivity |].
  cbn [map Validator.validateItems Validator.applyRules].
  destruct (Validator.validateSimpleRule h field v data r) as [e |].
  - destruct (Validator.bails r); [reflexivity |]. rewrite IH. reflexivity.
  - exact IH.
Qed.

(** X20.  A conditional as the only item of a field: its errors are those of
    the rules of the selected branch (the then branch when the condition
    holds, the else branch or nothing otherwise), the same that these rules
    produce as top-level items; a [nullable] in the branch does not short-
    circuit an empty value; an exception of the condition is the outcome. *)
Theorem conditional_branch host h field v data c :
  (forall b,
      evaluateCondition host h (condition c) v data = Normal b ->
      Validator.validateField host h field v data [Conditional c] =
      Normal (Validator.applyRules h field v data (selectedBranch c b))
      /\ Validator.validateItems host h field v data
           (map Simple (selectedBranch c b)) =
         Normal (Validator.applyRules h field v data (selectedBranch c b)))
  /\ (forall e,
        evaluateCondition host h (condition c) v data = Throw e ->
        Validator.validateField host h field v data [Conditional c] = Throw e).
Proof.
  unfold Validator.validateField. cbn [hasNullableRule existsb orb andb].
  cbn [Validator.validateItems]. unfold Validator.validateConditionalRule.
  split.
  - intros b Hb. rewrite Hb. cbn [bind]. split; [| apply validateItems_simples].
    unfold selectedBranch. destruct b.
    + cbn [bind]. rewrite app_nil_r. reflexivity.
    + destruct (elseRules c); cbn [bind]; [rewrite app_nil_r |]; reflexivity.
  - intros e He. rewrite He. reflexivity.
Qed.

(** [nullable] and [required] in the then branch of [@empty], on a missing
    field. *)
Lemma conditional_branch_witness :
  Validator.validateField bareHost [] "vat" undefined undefined
    [Conditional {| condition := TArr [str "@empty"];
                    thenRules := [ruleOf nullableRule [];
                                  ruleOf requiredRule []];
                    elseRules := None |}] =
  Normal [fieldError "validation.required" "vat"].
Proof.
  apply (proj1 (proj1 (conditional_branch bareHost [] "vat" undefined undefined
           {| condition := TArr [str "@empty"];
              thenRules := [ruleOf nullableRule []; ruleOf requiredRule []];
              elseRules := None |}) true eq_refl)).
Defined.

(** ** The run of [validate] *)

Section Returns.

Variable host : Host.
Variable hInit : heap.
Variable data : value.

Let out := VRef (List.length hInit).

(** One field: its errors are recorded, or its value is written into
    the trie; in both cases the step returns. *)
Lemma validateEntry_returns fieldRules h S done errs field v :
  Trie hInit h S (leavesOf done) -> spine S (leavesOf done) ->
  plainItems fieldRules ->
  goodPath field ->
  (forall f' v', In (f', v') done -> unrelated f' field) ->
  exists errs' h' S' done',
    Validator.validateEntry host data out fieldRules errs h field v
    = (Normal errs', h')
    /\ Trie hInit h' S' (leavesOf done')
    /\ spine S' (leavesOf done')
    /\ (forall x, In x done' -> In x done \/ x = (field, v)).
Proof.
  intros T Hsp Hplain Hgood Hun.
  destruct (validateField_returns host h field v data fieldRules Hplain)
    as [fe Hfe].
  destruct fe as [| e0 more].
  - destruct Hgood as [Hne Hnl].
    destruct (setLoop_trie hInit v (segments field) h S (leavesOf done) []
                (List.length hInit) T (trie_root _ _ _ _ T) eq_refl
                (split_nonempty _ _) Hnl)
      as (h2 & S2 & Hset & _).
    + intros x w (f' & Hin & ->). simpl. apply (Hun f' w Hin).
    + simpl. intros HS.
      destruct (Hsp _ HS) as [Hnil | (p & w & k & r & Hw & Hp)].
      * eapply split_nonempty; eauto.
      * destruct Hw as (f' & Hin & ->).
        apply (Hun f' w Hin). exists (k :: r). exact Hp.
    + assert (Hrun : forall es,
                 Validator.validateEntry host data out fieldRules es h field v
                 = (Normal es, h2)).
      { intros es. unfold Validator.validateEntry. rewrite Hfe.
        cbn [List.length Nat.ltb Nat.leb]. unfold out.
        rewrite set_segments by exact Hne. rewrite Hset. reflexivity. }
      destruct (validateEntry_trie host hInit data fieldRules h S done field v
                  h2 T Hsp (Hrun []) (conj Hne Hnl) Hun)
        as (S' & T' & Hsp').
      exists errs, h2, S', (done ++ [(field, v)])%list.
      split; [apply Hrun |]. split; [exact T' |]. split; [exact Hsp' |].
      intros x Hx. apply in_app_or in Hx.
      destruct Hx as [Hx | [Hx | []]]; auto.
  - exists (ownSet field (e0 :: more) errs), h, S, done.
    split; [| auto].
    unfold Validator.validateEntry. rewrite Hfe. reflexivity.
Qed.

Lemma validateEntries_returns fieldRules entries : forall h S done errs,
  Trie hInit h S (leavesOf done) -> spine S (leavesOf done) ->
  plainItems fieldRules ->
  separated entries ->
  (forall f v f' v', In (f, v) done -> In (f', v') entries -> unrelated f f') ->
  exists errs' h' S' done',
    Validator.validateEntries host data out fieldRules entries errs h
    = (Normal errs', h')
    /\ Trie hInit h' S' (leavesOf done')
    /\ spine S' (leavesOf done')
    /\ (forall x, In x done' -> In x done \/ In x entries).
Proof.
  induction entries as [| [field v] entries IH];
    intros h S done errs T Hsp Hplain Hsep Hcross.
  - exists errs, h, S, done. simpl. auto.
  - destruct Hsep as (Hg & Hu & Hs).
    destruct (validateEntry_returns fieldRules h S done errs field v
                T Hsp Hplain Hg)
      as (errs1 & h1 & S1 & done1 & Hrun1 & T1 & Hsp1 & Hsub1).
    { intros f' v' Hin. eapply Hcross; [exact Hin | left; reflexivity]. }
    destruct (IH h1 S1 done1 errs1 T1 Hsp1 Hplain Hs)
      as (errs' & h' & S' & done' & Hrun & T' & Hsp' & Hsub).
    { intros f1 v1 f' v' Hin Hin'.
      destruct (Hsub1 _ Hin) as [Hd | Heq].
      - eapply Hcross; [exact Hd | right; exact Hin'].
      - inversion Heq; subst. eapply Hu; eauto. }
    exists errs', h', S', done'. cbn [Validator.validateEntries].
    rewrite Hrun1. split; [exact Hrun |]. split; [exact T' |].
    split; [exact Hsp' |].
    intros x Hx. destruct (Hsub x Hx) as [Hd | He]; [| right; right; exact He].
    destruct (Hsub1 x Hd) as [Hd' | Heq]; [left; exact Hd' |].
    right. left. symmetry. exact Heq.
Qed.

Hypothesis Hclosed : closedHeap hInit.
Hypothesis Hdata : closedValue (List.length hInit) data.

Lemma validatePatterns_returns parsed : forall h S done errs,
  Trie hInit h S (leavesOf done) -> spine S (leavesOf done) ->
  plainRules parsed ->
  separated (addressedBy hInit data parsed) ->
  (forall f v f' v',
      In (f, v) done -> In (f', v') (addressedBy hInit data parsed) ->
      unrelated f f') ->
  exists errs' h' S' done',
    Validator.validatePatterns host data out parsed errs h = (Normal errs', h')
    /\ Trie hInit h' S' (leavesOf done').
Proof.
  induction parsed as [| [pattern fieldRules] parsed IH];
    intros h S done errs T Hsp Hplain Hsep Hcross.
  - exists errs, h, S, done. simpl. auto.
  - cbn [Validator.validatePatterns].
    rewrite (addressed_agree hInit h Hclosed (trie_frame _ _ _ _ T)
               data pattern Hdata).
    change (addressedBy hInit data ((pattern, fieldRules) :: parsed))
      with (Validator.addressed hInit data pattern
            ++ addressedBy hInit data parsed)%list in *.
    destruct (separated_app _ _ Hsep) as (Hs1 & Hs2 & H12).
    apply Forall_cons_iff in Hplain. destruct Hplain as [Hp1 Hp2].
    destruct (validateEntries_returns fieldRules
                (Validator.addressed hInit data pattern) h S done errs
                T Hsp Hp1 Hs1)
      as (errs1 & h1 & S1 & done1 & Hrun1 & T1 & Hsp1 & Hsub1).
    { intros f v f' v' Hin Hin'. eapply Hcross; [exact Hin |].
      apply in_or_app. left. exact Hin'. }
    destruct (IH h1 S1 done1 errs1 T1 Hsp1 Hp2 Hs2)
      as (errs' & h' & S' & done' & Hrun & T').
    { intros f v f' v' Hin Hin'. destruct (Hsub1 _ Hin) as [Hd | Ha].
      - eapply Hcross; [exact Hd |]. apply in_or_app. right. exact Hin'.
      - eapply H12; eauto. }
    exists errs', h', S', done'. fold out. rewrite Hrun1. auto.
Qed.

End Returns.



(** ** Handlers of [rules/comparison.ts] and [rules/regional.ts] *)

(** X22.  [in] and [not_in]: for every value and parameters exactly one of the
    two reports an error; the list may be given as one array parameter or
    spread over the parameters, with the same outcome, unless the first spread
    value is itself an array; [in] passes exactly when some listed value
    equals the value without coercion; and an empty value passes both, since
    neither rule is run on it. *)
Theorem membership_rules h v data field :
  (forall ps,
      isSome (validate inRule h v ps data field) =
      negb (isSome (validate notInRule h v ps data field)))
  /\ (forall values,
        (forall nested, item 0 values <> TArr nested) ->
        validate inRule h v [TArr values] data field =
        validate inRule h v values data field
        /\ validate notInRule h v [TArr values] data field =
           validate notInRule h v values data field)
  /\ (forall ps,
        validate inRule h v ps data field = None <->
        exists allowed, In allowed (listedValues ps)
                        /\ sameValueZero v allowed = true)
  /\ (forall ps,
        isEmpty h v = true ->
        Validator.validateSimpleRule h field v data (ruleOf inRule ps) = None
        /\ Validator.validateSimpleRule h field v data (ruleOf notInRule ps)
           = None).
Proof.
  split; [| split; [| split]].
  - intros ps. cbn [validate inRule notInRule].
    destruct (existsb (sameValueZero v) (listedValues ps)); reflexivity.
  - intros values Hflat.
    assert (Hl : listedValues [TArr values] = listedValues values).
    { unfold listedValues at 2. cbn [listedValues item nth].
      destruct (item 0 values) eqn:Hi; try reflexivity.
      exfalso. eapply Hflat. reflexivity. }
    cbn [validate inRule notInRule]. rewrite Hl. split; reflexivity.
  - intros ps. cbn [validate inRule]. rewrite <- existsb_exists.
    destruct (existsb (sameValueZero v) (listedValues ps)); cbn [negb];
      split; intros H; congruence.
  - intros ps He. unfold Validator.validateSimpleRule, ruleOf.
    cbn [handler skipIfEmpty inRule notInRule andb]. rewrite He.
    split; reflexivity.
Qed.

(** The list ["a", "b"] given as one array and spread. *)
Lemma membership_rules_witness :
  validate inRule [] (VPrim (PStr "b")) [TArr [str "a"; str "b"]]
    undefined "f" =
  validate inRule [] (VPrim (PStr "b")) [str "a"; str "b"] undefined "f".
Proof.
  apply (proj1 (proj2 (membership_rules [] (VPrim (PStr "b")) undefined "f"))
           [str "a"; str "b"]).
  discriminate.
Defined.

(** X23.  [same], [different] and [confirmed]: [different] reports an error
    exactly when [same] does not; [confirmed] is [same] against the field
    [<field>_confirmation]; [same] passes exactly when the value is strictly
    equal to the value at the other path; and a first parameter that is truthy
    and not a string makes both [same] and [different] throw a [TypeError]. *)
Theorem agreement_rules h v data field :
  (forall ps,
      reports (differentValidate h v ps data field) =
      bind (reports (sameValidate h v ps data field))
           (fun b => Normal (negb b)))
  /\ (forall ps ps',
        reports (sameValidate h v (str (field ++ "_confirmation") :: ps')
                   data field) =
        Normal (isSome (validate confirmedRule h v ps data field)))
  /\ (forall other ps,
        sameValidate h v (str other :: ps) data field = Normal None <->
        valueStrictEquals v (get h data other) = true)
  /\ (forall p ps,
        (forall s, p <> PStr s) -> primTruthy p = true ->
        sameValidate h v (TPrim p :: ps) data field = Throw TypeError
        /\ differentValidate h v (TPrim p :: ps) data field = Throw TypeError).
Proof.
  split; [| split; [| split]].
  - intros ps. unfold reports, differentValidate, sameValidate.
    destruct (getField h data (item 0 ps)) as [other | e]; cbn [bind];
      [| reflexivity].
    destruct (valueStrictEquals v other); reflexivity.
  - intros ps ps'. unfold reports, sameValidate.
    cbn [item nth getField bind validate confirmedRule].
    destruct (valueStrictEquals v _); reflexivity.
  - intros other ps. unfold sameValidate. cbn [item nth getField bind].
    destruct (valueStrictEquals v _); cbn [negb]; split; intros H;
      congruence.
  - intros p ps Hstr Ht. unfold sameValidate, differentValidate.
    cbn [item nth getField].
    destruct p as [| | b | n | s]; try discriminate Ht.
    + rewrite Ht. split; reflexivity.
    + rewrite Ht. split; reflexivity.
    + exfalso. eapply Hstr. reflexivity.
Qed.

(** The number 5 as the other field. *)
Lemma agreement_rules_witness :
  sameValidate [] (VPrim (PStr "x")) [num 5] undefined "f" = Throw TypeError
  /\ differentValidate [] (VPrim (PStr "x")) [num 5] undefined "f"
     = Throw TypeError.
Proof.
  apply (proj2 (proj2 (proj2
           (agreement_rules [] (VPrim (PStr "x")) undefined "f")))
           (PNum (ofZ 5)) []).
  - discriminate.
  - reflexivity.
Defined.

Lemma oibTable_holds : oibTable = true.
Proof. vm_compute. reflexivity. Qed.

Lemma in_states t : (1 <= t <= 10)%nat <-> In t oibStates.
Proof. unfold oibStates. rewrite in_seq. lia. Qed.

Lemma in_digits d : (d < 10)%nat <-> In d oibDigits.
Proof. unfold oibDigits. rewrite in_seq. lia. Qed.

Lemma oibTable_at d t :
  (d < 10)%nat -> (1 <= t <= 10)%nat ->
  (1 <= oibStep t d <= 10)%nat
  /\ (forall t', (1 <= t' <= 10)%nat -> oibStep t d = oibStep t' d -> t = t')
  /\ (forall d', (d' < 10)%nat -> oibStep t d = oibStep t d' -> d = d')
  /\ (forall t', (1 <= t' <= 10)%nat ->
        ((11 - t) mod 10 = (11 - t') mod 10)%nat -> t = t').
Proof.
  intros Hd Ht. pose proof oibTable_holds as H. unfold oibTable in H.
  rewrite forallb_forall in H. specialize (H d (proj1 (in_digits d) Hd)).
  rewrite forallb_forall in H. specialize (H t (proj1 (in_states t) Ht)).
  apply andb_true_iff in H. destruct H as [H H4].
  apply andb_true_iff in H. destruct H as [H H3].
  apply andb_true_iff in H. destruct H as [H1 H2].
  rewrite forallb_forall in H2, H3, H4.
  split; [| split; [| split]].
  - apply existsb_exists in H1. destruct H1 as (x & Hx & Heq).
    apply Nat.eqb_eq in Heq. rewrite Heq. apply in_states. exact Hx.
  - intros t' Ht' Heq. specialize (H2 t' (proj1 (in_states t') Ht')).
    rewrite Heq, Nat.eqb_refl in H2. apply Nat.eqb_eq. exact H2.
  - intros d' Hd' Heq. specialize (H3 d' (proj1 (in_digits d') Hd')).
    rewrite Heq, Nat.eqb_refl in H3. apply Nat.eqb_eq. exact H3.
  - intros t' Ht' Heq. specialize (H4 t' (proj1 (in_states t') Ht')).
    rewrite Heq, Nat.eqb_refl in H4. apply Nat.eqb_eq. exact H4.
Qed.

Lemma isDigit_digitOf c : isDigit c = true -> (digitOf c < 10)%nat.
Proof.
  unfold isDigit, digitOf. intros H. apply andb_true_iff in H.
  destruct H as [H1 H2]. apply Nat.leb_le in H1, H2. lia.
Qed.

Lemma digitOf_inj c c' :
  isDigit c = true -> isDigit c' = true -> digitOf c = digitOf c' -> c = c'.
Proof.
  unfold isDigit, digitOf. intros H H' Heq.
  apply andb_true_iff in H, H'. destruct H as [H1 _], H' as [H1' _].
  apply Nat.leb_le in H1, H1'.
  rewrite <- (ascii_nat_embedding c), <- (ascii_nat_embedding c').
  f_equal. lia.
Qed.

Lemma allChars_app p a b :
  allChars p (a ++ b) = allChars p a && allChars p b.
Proof.
  induction a as [| c a IH]; simpl; [reflexivity |].
  rewrite IH. apply andb_assoc.
Qed.

Lemma oibLoop_range value : forall n t,
  allChars isDigit value = true -> (1 <= t <= 10)%nat ->
  (1 <= oibLoop n value t <= 10)%nat.
Proof.
  induction value as [| c value IH]; intros [| n] t Hv Ht; simpl; try exact Ht.
  simpl in Hv. apply andb_true_iff in Hv. destruct Hv as [Hc Hv].
  apply IH; [exact Hv |].
  apply oibTable_at; [apply isDigit_digitOf; exact Hc | exact Ht].
Qed.

Lemma oibLoop_inj value : forall n t t',
  allChars isDigit value = true ->
  (1 <= t <= 10)%nat -> (1 <= t' <= 10)%nat ->
  oibLoop n value t = oibLoop n value t' -> t = t'.
Proof.
  induction value as [| c value IH]; intros [| n] t t' Hv Ht Ht' Heq;
    simpl in Heq; try exact Heq.
  simpl in Hv. apply andb_true_iff in Hv. destruct Hv as [Hc Hv].
  pose proof (isDigit_digitOf c Hc) as Hd.
  apply IH in Heq; [| exact Hv | apply oibTable_at; assumption
                    | apply oibTable_at; assumption].
  destruct (oibTable_at (digitOf c) t Hd Ht) as (_ & Hinj & _).
  apply Hinj; assumption.
Qed.

Lemma oibLoop_app a : forall n x t,
  (String.length a <= n)%nat ->
  oibLoop n (a ++ x) t =
  oibLoop (n - String.length a) x (oibLoop (String.length a) a t).
Proof.
  induction a as [| c a IH]; intros n x t Hn; simpl.
  - rewrite Nat.sub_0_r. reflexivity.
  - destruct n as [| n]; [simpl in Hn; lia |].
    simpl in Hn. cbn [oibLoop Nat.sub]. apply IH. lia.
Qed.

Lemma get_app_at a c b : String.get (String.length a) (a ++ String c b) = Some c.
Proof. induction a as [| d a IH]; simpl; [reflexivity | exact IH]. Qed.

Lemma get_app_after a c b : forall n,
  (String.length a < n)%nat ->
  String.get n (a ++ String c b) = String.get (n - String.length a - 1) b.
Proof.
  induction a as [| d a IH]; intros n Hn; simpl in *.
  - destruct n as [| n]; [lia |]. simpl. rewrite Nat.sub_0_r. reflexivity.
  - destruct n as [| n]; [lia |]. simpl. apply IH. lia.
Qed.

Lemma oibRule_accepts h value ps data field :
  validate oibRule h (VPrim (PStr value)) ps data field = None <->
  String.length value = 11%nat /\ allChars isDigit value = true
  /\ oibControl value = true.
Proof.
  cbn [validate oibRule]. unfold elevenDigits.
  destruct (String.length value =? 11)%nat eqn:Hlen; cbn [andb].
  - apply Nat.eqb_eq in Hlen.
    destruct (allChars isDigit value); cbn [negb].
    + destruct (oibControl value); cbn [negb]; split; intros H;
        try discriminate; auto. destruct H as (_ & _ & H). discriminate.
    + split; [discriminate | intros (_ & H & _); discriminate].
  - apply Nat.eqb_neq in Hlen. cbn [negb].
    split; [discriminate | intros (H & _); congruence].
Qed.

(** X24.  The OIB check detects every single-digit error: when a string is
    accepted, replacing any one of its characters by another gives a string
    that is rejected. *)
Theorem oib_detects_single_digit_errors h ps data field a c c' b :
  validate oibRule h (VPrim (PStr (a ++ String c b))) ps data field = None ->
  c' <> c ->
  validate oibRule h (VPrim (PStr (a ++ String c' b))) ps data field <> None.
Proof.
  intros Hok Hne Hbad.
  apply oibRule_accepts in Hok, Hbad.
  destruct Hok as (Hlen & Hdig & Hctl), Hbad as (_ & Hdig' & Hctl').
  rewrite allChars_app in Hdig, Hdig'. cbn [allChars] in Hdig, Hdig'.
  apply andb_true_iff in Hdig, Hdig'.
  destruct Hdig as [Ha Hcb], Hdig' as [_ Hcb'].
  apply andb_true_iff in Hcb, Hcb'.
  destruct Hcb as [Hc Hb], Hcb' as [Hc' _].
  rewrite length_append in Hlen. cbn [String.length] in Hlen.
  unfold oibControl in Hctl, Hctl'.
  assert (Hstart : (1 <= 10 <= 10)%nat) by lia.
  pose proof (oibLoop_range a (String.length a) 10 Ha Hstart) as Hr.
  destruct (Nat.eq_dec (String.length a) 10) as [Hten | Hlt].
  - assert (Hget : forall x, String.get 10 (a ++ String x b) = Some x)
      by (intros x; rewrite <- Hten; apply get_app_at).
    rewrite Hget in Hctl, Hctl'.
    rewrite oibLoop_app in Hctl, Hctl' by lia.
    rewrite Hten, Nat.sub_diag in Hctl, Hctl'. cbn [oibLoop] in Hctl, Hctl'.
    apply Nat.eqb_eq in Hctl, Hctl'.
    apply Hne. apply digitOf_inj; [exact Hc' | exact Hc | congruence].
  - rewrite !get_app_after in Hctl, Hctl' by lia.
    destruct (String.get (10 - String.length a - 1) b) as [e |];
      [| discriminate].
    apply Nat.eqb_eq in Hctl, Hctl'.
    rewrite oibLoop_app in Hctl, Hctl' by lia.
    destruct (10 - String.length a)%nat as [| m] eqn:Hm; [lia |].
    cbn [oibLoop] in Hctl, Hctl'.
    set (t0 := oibLoop (String.length a) a 10) in *.
    pose proof (isDigit_digitOf c Hc) as Hd.
    pose proof (isDigit_digitOf c' Hc') as Hd'.
    pose proof (oibTable_at (digitOf c) t0 Hd Hr) as (Hs & _ & Hinj & _).
    pose proof (oibTable_at (digitOf c') t0 Hd' Hr) as (Hs' & _ & _ & _).
    pose proof (oibLoop_range b m _ Hb Hs) as Hf.
    pose proof (oibLoop_range b m _ Hb Hs') as Hf'.
    pose proof (oibTable_at 0 _ ltac:(lia) Hf) as (_ & _ & _ & Hcinj).
    assert (Hloop : oibLoop m b (oibStep t0 (digitOf c))
                    = oibLoop m b (oibStep t0 (digitOf c'))).
    { apply Hcinj; [exact Hf' | congruence]. }
    apply oibLoop_inj in Hloop; [| exact Hb | exact Hs | exact Hs'].
    apply Hinj in Hloop; [| exact Hd'].
    apply Hne. apply digitOf_inj; [exact Hc' | exact Hc | congruence].
Qed.

(** The accepted string 12345678903 and the same string with its sixth digit
    changed. *)
Lemma oib_detects_single_digit_errors_witness :
  validate oibRule [] (VPrim (PStr "12345678903")) [] undefined "oib" = None
  /\ validate oibRule [] (VPrim (PStr "12345178903")) [] undefined "oib"
     <> None.
Proof.
  assert (Hok : validate oibRule [] (VPrim (PStr "12345678903")) []
                  undefined "oib" = None) by (vm_compute; reflexivity).
  split; [exact Hok |].
  apply (oib_detects_single_digit_errors [] [] undefined "oib"
           "12345" "6"%char "1"%char "78903" Hok).
  discriminate.
Defined.

(** X25.  Every ten digits have exactly one check digit: for a string of ten
    digits there is a digit, and no other character, that completes it to an
    accepted OIB. *)
Theorem oib_check_digit h ps data field p :
  String.length p = 10%nat -> allChars isDigit p = true ->
  exists d,
    isDigit d = true
    /\ validate oibRule h (VPrim (PStr (p ++ String d ""))) ps data field
       = None
    /\ (forall d',
          validate oibRule h (VPrim (PStr (p ++ String d' ""))) ps data field
          = None -> d' = d).
Proof.
  intros Hlen Hp.
  assert (Hget : forall x, String.get 10 (p ++ String x "") = Some x)
    by (intros x; rewrite <- Hlen; apply get_app_at).
  assert (Hloop : forall x,
             oibLoop 10 (p ++ String x "") 10 = oibLoop 10 p 10).
  { intros x. rewrite oibLoop_app by lia. rewrite Hlen, Nat.sub_diag.
    reflexivity. }
  set (control := ((11 - oibLoop 10 p 10) mod 10)%nat).
  assert (Hc : (control < 10)%nat) by (apply Nat.mod_upper_bound; lia).
  set (d := ascii_of_nat (48 + control)).
  assert (Hd : nat_of_ascii d = (48 + control)%nat)
    by (apply nat_ascii_embedding; lia).
  assert (Hdig : isDigit d = true).
  { unfold isDigit. rewrite Hd. apply andb_true_iff.
    split; apply Nat.leb_le; lia. }
  assert (Hacc : forall x,
             validate oibRule h (VPrim (PStr (p ++ String x ""))) ps data field
             = None <-> isDigit x = true /\ digitOf x = control).
  { intros x. rewrite oibRule_accepts, length_append, allChars_app, Hp, Hlen.
    cbn [String.length allChars andb]. unfold oibControl.
    rewrite Hget, Hloop. fold control. rewrite andb_true_r, Nat.eqb_eq.
    intuition congruence. }
  exists d. split; [exact Hdig |]. split.
  - apply Hacc. split; [exact Hdig |]. unfold digitOf. rewrite Hd. lia.
  - intros d' H'. apply Hacc in H'. destruct H' as [Hdig' Hv'].
    apply digitOf_inj; [exact Hdig' | exact Hdig |].
    rewrite Hv'. unfold digitOf. rewrite Hd. lia.
Qed.

(** The digits 1234567890. *)
Lemma oib_check_digit_witness :
  exists d,
    isDigit d = true
    /\ validate oibRule [] (VPrim (PStr ("1234567890" ++ String d "")))
         [] undefined "oib" = None
    /\ (forall d',
          validate oibRule [] (VPrim (PStr ("1234567890" ++ String d' "")))
            [] undefined "oib" = None -> d' = d).
Proof.
  apply (oib_check_digit [] [] undefined "oib" "1234567890"); reflexivity.
Defined.
